(** * autonomous-pm: wave scheduler, streaming hub and version lineage

    A shallow embedding of the service layer of the repository
    ([app/services/doc_generator.py], [app/services/streaming.py],
    [app/services/version_manager.py]), of the rows of
    [app/models/graph_node.py] it works on and of the part of Python's
    [difflib] it calls, together with the properties the design document
    states about them. *)

From Stdlib Require Import QArith.
From stdpp Require Import gmap strings list fin_maps relations pretty sorting.

Set Warnings "-register-all,-clear-no-such-hyp".

(** ** Results of running Python code

    A call either returns, raises, or gets no answer from the model: it
    is cut off by the fuel that bounds the [while] loops, or it reaches a
    part of a library function that the model leaves out. *)

Inductive exn : Type :=
  | ValueError (msg : string)
  | IntegrityError (msg : string)
  | ZeroDivisionError
  | TypeError (msg : string)
  | KeyError (key : string)
  | RuntimeError (msg : string).

Inductive outcome (A : Type) : Type :=
  | Ok (a : A)
  | Raise (e : exn)
  | OutOfFuel.
Arguments Ok {A} a.
Arguments Raise {A} e.
Arguments OutOfFuel {A}.

(** [list.remove(x)]: drops the first element equal to [x]; [None] stands
    for the [ValueError] Python raises when there is none. *)
Fixpoint list_remove `{EqDecision A} (x : A) (l : list A) : option (list A) :=
  match l with
  | [] => None
  | y :: l' => if decide (x = y) then Some l' else (y ::.) <$> list_remove x l'
  end.

(** ** Values shared by the services *)

(** A [uuid.UUID], by its 128-bit integer value. *)
Record UUID : Type := mkUUID { uuid_int : N }.

#[global] Instance UUID_eq_dec : EqDecision UUID.
Proof. solve_decision. Defined.

#[global] Instance UUID_countable : Countable UUID.
Proof. by apply (inj_countable' uuid_int mkUUID); intros []. Defined.

Definition hex_digit (d : N) : Ascii.ascii :=
  default Ascii.zero (String.get (N.to_nat d) "0123456789abcdef").

(** The [k] lowest hexadecimal digits of [n], most significant first. *)
Fixpoint hex_digits (k : nat) (n : N) : string :=
  match k with
  | O => ""
  | S k' => hex_digits k' (n / 16)%N +:+ String (hex_digit (n mod 16)%N) ""
  end.

(** [str(uuid)]: 32 hexadecimal digits in groups of 8-4-4-4-12. *)
Definition uuid_str (u : UUID) : string :=
  let h := hex_digits 32 (uuid_int u) in
  String.substring 0 8 h +:+ "-" +:+ String.substring 8 4 h +:+ "-" +:+
  String.substring 12 4 h +:+ "-" +:+ String.substring 16 4 h +:+ "-" +:+
  String.substring 20 12 h.

(** JSON-like values: what the [Dict[str, Any]] payloads hold. *)
Inductive json : Type :=
  | JNull
  | JBool (b : bool)
  | JInt (z : Z)
  | JNum (q : Q)
  | JStr (s : string)
  | JList (l : list json)
  | JDict (d : list (string * json)).

(** A Python [dict] with string keys: an association list in insertion
    order, one entry per key. *)
Abbreviation dict := (list (string * json)).

Fixpoint dict_get (k : string) (d : dict) : option json :=
  match d with
  | [] => None
  | (k', v) :: d' => if decide (k = k') then Some v else dict_get k d'
  end.

(** [d[k] = v]: the value of an existing key is replaced in place, a new
    key goes to the end. *)
Fixpoint dict_set (k : string) (v : json) (d : dict) : dict :=
  match d with
  | [] => [(k, v)]
  | (k', v') :: d' =>
      if decide (k = k') then (k, v) :: d' else (k', v') :: dict_set k v d'
  end.

(** [{**a, **b}] *)
Definition dict_merge (a b : dict) : dict :=
  foldl (λ acc kv, dict_set kv.1 kv.2 acc) a b.

(** [min(a, b)], on the rationals that stand for the floats: the first
    argument unless the second is smaller. *)
Definition py_min (a b : Q) : Q := if Qlt_le_dec b a then b else a.

(** ** [models/graph_node.py]: the rows the services read and write *)

Inductive NodeType : Type :=
  | NodeType_PROJECT | DOCS_SUBGRAPH | RESOURCES | GITHUB_REPO | TASKS_EPICS
  | DOCUMENT | DOCUMENT_VERSION.

Inductive EdgeType : Type :=
  | DEPENDS_ON | RELATED_TO | BLOCKS | CONTAINS | REFERENCES | IMPLEMENTS
  | DERIVED_FROM | SUPERSEDES | LINKS_TO.

Inductive GraphLayer : Type :=
  | PORTFOLIO | GraphLayer_PROJECT | DOCUMENTATION.

(** The floats of the model are carried as rationals; the [created_at] and
    [updated_at] stamps, which no service reads, are left out. *)
Module GraphNode.
Record t : Type := mk {
  id : UUID;
  node_type : NodeType;
  layer : GraphLayer;
  label : string;
  description : option string;
  position_x : Q;
  position_y : Q;
  position_z : Z;
  width : Q;
  height : Q;
  color : option string;
  is_expanded : bool;
  parent_id : option UUID;
  project_id : option UUID;
  data : dict;
  created_by : option UUID
}.
End GraphNode.

Module GraphEdge.
Record t : Type := mk {
  id : UUID;
  edge_type : EdgeType;
  source_id : UUID;
  target_id : UUID;
  label : option string;
  color : option string;
  is_animated : bool;
  data : dict
}.
End GraphEdge.

Module DocumentNode.
Record t : Type := mk {
  id : UUID;
  graph_node_id : UUID;
  title : string;
  doc_type : string;
  content : string;
  content_format : string;
  version : Z;
  parent_version_id : option UUID;
  is_latest : bool;
  is_generating : bool;
  generation_progress : Q;
  generated_by_agent : option string;
  tags : list string;
  metadata : dict;
  project_id : UUID
}.

(** [doc.is_latest = b] *)
Definition set_is_latest (b : bool) (d : t) : t :=
  mk (id d) (graph_node_id d) (title d) (doc_type d) (content d)
     (content_format d) (version d) (parent_version_id d) b
     (is_generating d) (generation_progress d) (generated_by_agent d)
     (tags d) (metadata d) (project_id d).

(** [doc.content = c; doc.is_generating = False;
    doc.generation_progress = 1.0] *)
Definition set_generated (c : string) (d : t) : t :=
  mk (id d) (graph_node_id d) (title d) (doc_type d) c
     (content_format d) (version d) (parent_version_id d) (is_latest d)
     false 1 (generated_by_agent d) (tags d) (metadata d) (project_id d).
End DocumentNode.

(** The rows a [Session] sees, by primary key. [session.get] is a lookup;
    [add] followed by [commit] stores the row, and fails when a new row
    brings a primary key that is taken. *)
Record Session : Type := mkSession {
  documents : gmap UUID DocumentNode.t;
  graph_nodes : gmap UUID GraphNode.t;
  graph_edges : gmap UUID GraphEdge.t
}.

Definition put_document (d : DocumentNode.t) (s : Session) : Session :=
  mkSession (<[DocumentNode.id d := d]> (documents s))
            (graph_nodes s) (graph_edges s).

Definition put_graph_node (n : GraphNode.t) (s : Session) : Session :=
  mkSession (documents s) (<[GraphNode.id n := n]> (graph_nodes s))
            (graph_edges s).

Definition put_graph_edge (e : GraphEdge.t) (s : Session) : Session :=
  mkSession (documents s) (graph_nodes s)
            (<[GraphEdge.id e := e]> (graph_edges s)).

(** ** [difflib], as far as [VersionDiffService] uses it

    [SequenceMatcher(None, a, b)] of the Python library: no junk
    predicate, [autojunk] on. Sequences are lists, indices are naturals. *)

Module Difflib.

Section sequence_matcher.
Context `{Countable A}.

(** [for i, elt in enumerate(b): b2j.setdefault(elt, []).append(i)] *)
Definition index_elements (b : list A) : gmap A (list nat) :=
  foldl (λ b2j ie, <[ie.2 := default [] (b2j !! ie.2) ++ [ie.1]]> b2j)
        ∅ (zip (seq 0 (length b)) b).

(** [__chain_b]: with 200 elements or more, the elements that occur more
    than [n // 100 + 1] times are dropped from [b2j]. *)
Definition chain_b (b : list A) : gmap A (list nat) :=
  let b2j := index_elements b in
  let n := length b in
  if decide (200 ≤ n)
  then filter (λ kv, ¬ (n `div` 100 + 1 < length kv.2)) b2j
  else b2j.

(** [bjunk] is empty when [isjunk] is [None]. *)
Definition isbjunk (elt : A) : bool := false.

(** [j2len.get(j-1, 0)] *)
Definition j2len_get (j2len : gmap nat nat) (j : nat) : nat :=
  match j with
  | O => 0
  | S j' => default 0 (j2len !! j')
  end.

(** [for j in b2j.get(a[i], nothing)], with its [continue] and [break]. *)
Fixpoint scan_row (i : nat) (js : list nat) (blo bhi : nat)
    (j2len newj2len : gmap nat nat) (best : nat * nat * nat)
    : gmap nat nat * (nat * nat * nat) :=
  match js with
  | [] => (newj2len, best)
  | j :: js' =>
      if decide (j < blo) then scan_row i js' blo bhi j2len newj2len best
      else if decide (bhi ≤ j) then (newj2len, best)
      else
        let k := j2len_get j2len j + 1 in
        let newj2len := <[j := k]> newj2len in
        let best := if decide (best.2 < k) then (i + 1 - k, j + 1 - k, k)
                    else best in
        scan_row i js' blo bhi j2len newj2len best
  end.

(** [for i in range(alo, ahi)] *)
Fixpoint scan_rows (rows : list nat) (a : list A) (b2j : gmap A (list nat))
    (blo bhi : nat) (j2len : gmap nat nat) (best : nat * nat * nat)
    : nat * nat * nat :=
  match rows with
  | [] => best
  | i :: rows' =>
      let js := default [] (a !! i ≫= λ elt, b2j !! elt) in
      let '(newj2len, best') := scan_row i js blo bhi j2len ∅ best in
      scan_rows rows' a b2j blo bhi newj2len best'
  end.

(** [a[i] == b[j]] for indices in range. *)
Definition same_at (a b : list A) (i j : nat) : Prop :=
  match a !! i, b !! j with
  | Some x, Some y => x = y
  | _, _ => False
  end.

#[global] Instance same_at_dec a b i j : Decision (same_at a b i j).
Proof. unfold same_at. destruct (a !! i), (b !! j); apply _. Defined.

(** [while besti > alo and bestj > blo and isbjunk(b[bestj-1]) is junk
    and a[besti-1] == b[bestj-1]]; it turns at most [steps] times. *)
Fixpoint extend_left (junk : bool) (steps : nat) (a b : list A)
    (alo blo : nat) (best : nat * nat * nat) : nat * nat * nat :=
  match steps with
  | O => best
  | S steps' =>
      let '(besti, bestj, bestsize) := best in
      if decide (alo < besti ∧ blo < bestj
                 ∧ default false (isbjunk <$> b !! (bestj - 1)) = junk
                 ∧ same_at a b (besti - 1) (bestj - 1))
      then extend_left junk steps' a b alo blo
             (besti - 1, bestj - 1, bestsize + 1)
      else best
  end.

(** [while besti+bestsize < ahi and bestj+bestsize < bhi and
    isbjunk(b[bestj+bestsize]) is junk and
    a[besti+bestsize] == b[bestj+bestsize]] *)
Fixpoint extend_right (junk : bool) (steps : nat) (a b : list A)
    (ahi bhi : nat) (best : nat * nat * nat) : nat * nat * nat :=
  match steps with
  | O => best
  | S steps' =>
      let '(besti, bestj, bestsize) := best in
      if decide (besti + bestsize < ahi ∧ bestj + bestsize < bhi
                 ∧ default false (isbjunk <$> b !! (bestj + bestsize)) = junk
                 ∧ same_at a b (besti + bestsize) (bestj + bestsize))
      then extend_right junk steps' a b ahi bhi (besti, bestj, bestsize + 1)
      else best
  end.

(** [find_longest_match(alo, ahi, blo, bhi)], for [ahi] and [bhi] within
    the sequences. The bounds on the turns of the four [while] loops are
    the distances to the ends of the ranges. *)
Definition find_longest_match (a b : list A) (b2j : gmap A (list nat))
    (alo ahi blo bhi : nat) : nat * nat * nat :=
  let best := scan_rows (seq alo (ahi - alo)) a b2j blo bhi ∅ (alo, blo, 0) in
  let best := extend_left false best.1.1 a b alo blo best in
  let best := extend_right false ahi a b ahi bhi best in
  let best := extend_left true best.1.1 a b alo blo best in
  extend_right true ahi a b ahi bhi best.

(** The [while queue] loop of [get_matching_blocks]. The head of [queue]
    is the entry appended last, the one [pop] takes. *)
Fixpoint match_queue (fuel : nat) (a b : list A) (b2j : gmap A (list nat))
    (queue : list (nat * nat * nat * nat))
    (matching_blocks : list (nat * nat * nat))
    : outcome (list (nat * nat * nat)) :=
  match queue with
  | [] => Ok matching_blocks
  | (alo, ahi, blo, bhi) :: queue' =>
      match fuel with
      | O => OutOfFuel
      | S fuel' =>
          let '(i, j, k) := find_longest_match a b b2j alo ahi blo bhi in
          if decide (k = 0) then match_queue fuel' a b b2j queue' matching_blocks
          else
            let queue1 := if decide (alo < i ∧ blo < j)
                          then (alo, i, blo, j) :: queue' else queue' in
            let queue2 := if decide (i + k < ahi ∧ j + k < bhi)
                          then (i + k, ahi, j + k, bhi) :: queue1 else queue1 in
            match_queue fuel' a b b2j queue2 (matching_blocks ++ [(i, j, k)])
      end
  end.

End sequence_matcher.

(** The order of tuples of integers. *)
Definition block_le (x y : nat * nat * nat) : Prop :=
  x.1.1 < y.1.1
  ∨ (x.1.1 = y.1.1 ∧ (x.1.2 < y.1.2 ∨ (x.1.2 = y.1.2 ∧ x.2 ≤ y.2))).

#[global] Instance block_le_dec x y : Decision (block_le x y).
Proof. unfold block_le. apply _. Defined.

(** One turn of the loop that merges adjacent blocks; the state is
    [(i1, j1, k1)] and [non_adjacent]. *)
Definition collapse_step (st : nat * nat * nat * list (nat * nat * nat))
    (block : nat * nat * nat) : nat * nat * nat * list (nat * nat * nat) :=
  let '(i1, j1, k1, non_adjacent) := st in
  let '(i2, j2, k2) := block in
  if decide (i1 + k1 = i2 ∧ j1 + k1 = j2)
  then (i1, j1, k1 + k2, non_adjacent)
  else (i2, j2, k2,
        if decide (k1 = 0) then non_adjacent else non_adjacent ++ [(i1, j1, k1)]).

Definition collapse (matching_blocks : list (nat * nat * nat))
    : list (nat * nat * nat) :=
  let '(i1, j1, k1, non_adjacent) :=
    foldl collapse_step (0, 0, 0, []) matching_blocks in
  if decide (k1 = 0) then non_adjacent else non_adjacent ++ [(i1, j1, k1)].

Section matching.
Context `{Countable A}.

(** [get_matching_blocks]. No range is looked at twice and a range of
    [m] elements of [a] gives rise to fewer than [2 m] others, hence the
    fuel. *)
Definition get_matching_blocks (a b : list A)
    : outcome (list (nat * nat * nat)) :=
  let la := length a in
  let lb := length b in
  match match_queue (2 * la + 1) a b (chain_b b) [(0, la, 0, lb)] [] with
  | Ok matching_blocks =>
      Ok (collapse (merge_sort block_le matching_blocks) ++ [(la, lb, 0)])
  | Raise e => Raise e
  | OutOfFuel => OutOfFuel
  end.

(** [_calculate_ratio] *)
Definition _calculate_ratio (matches length : nat) : Q :=
  if decide (length = 0) then 1
  else (2 * inject_Z (Z.of_nat matches) / inject_Z (Z.of_nat length))%Q.

Definition ratio (a b : list A) : outcome Q :=
  match get_matching_blocks a b with
  | Ok blocks =>
      Ok (_calculate_ratio (sum_list (snd <$> blocks)) (length a + length b))
  | Raise e => Raise e
  | OutOfFuel => OutOfFuel
  end.

End matching.

(** *** Opcodes and the unified format *)

Inductive tag : Type := replace | delete | insert | equal.

#[global] Instance tag_eq_dec : EqDecision tag.
Proof. solve_decision. Defined.

Definition opcode : Type := tag * nat * nat * nat * nat.

(** The loop of [get_opcodes]; the state is [(i, j)] and [answer]. *)
Definition opcode_step (st : nat * nat * list opcode)
    (block : nat * nat * nat) : nat * nat * list opcode :=
  let '(i, j, answer) := st in
  let '(ai, bj, size) := block in
  let answer :=
    if decide (i < ai ∧ j < bj) then answer ++ [(replace, i, ai, j, bj)]
    else if decide (i < ai) then answer ++ [(delete, i, ai, j, bj)]
    else if decide (j < bj) then answer ++ [(insert, i, ai, j, bj)]
    else answer in
  let answer :=
    if decide (size = 0) then answer
    else answer ++ [(equal, ai, ai + size, bj, bj + size)] in
  (ai + size, bj + size, answer).

Definition get_opcodes (blocks : list (nat * nat * nat)) : list opcode :=
  (foldl opcode_step (0, 0, []) blocks).2.

(** The loop of [get_grouped_opcodes]; the state is the groups yielded so
    far and the open [group]. *)
Definition group_step (n : nat) (st : list (list opcode) * list opcode)
    (code : opcode) : list (list opcode) * list opcode :=
  let '(groups, group) := st in
  let '(t, i1, i2, j1, j2) := code in
  if decide (t = equal ∧ n + n < i2 - i1)
  then (groups ++ [group ++ [(t, i1, i2 `min` (i1 + n), j1, j2 `min` (j1 + n))]],
        [(t, i1 `max` (i2 - n), i2, j1 `max` (j2 - n), j2)])
  else (groups, group ++ [code]).

Definition fix_leading (n : nat) (codes : list opcode) : list opcode :=
  match codes with
  | (equal, i1, i2, j1, j2) :: rest =>
      (equal, i1 `max` (i2 - n), i2, j1 `max` (j2 - n), j2) :: rest
  | _ => codes
  end.

Definition fix_trailing (n : nat) (codes : list opcode) : list opcode :=
  match last codes with
  | Some (equal, i1, i2, j1, j2) =>
      <[pred (length codes) := (equal, i1, i2 `min` (i1 + n), j1,
                                j2 `min` (j1 + n))]> codes
  | _ => codes
  end.

Definition get_grouped_opcodes (n : nat) (codes : list opcode)
    : list (list opcode) :=
  let codes := match codes with [] => [(equal, 0, 1, 0, 1)] | _ => codes end in
  let codes := fix_trailing n (fix_leading n codes) in
  let '(groups, group) := foldl (group_step n) ([], []) codes in
  match group with
  | [] => groups
  | [(equal, _, _, _, _)] => groups
  | _ => groups ++ [group]
  end.

(** [_format_range_unified] *)
Definition _format_range_unified (start stop : nat) : string :=
  let beginning := start + 1 in
  let length := stop - start in
  if decide (length = 1) then pretty beginning
  else
    let beginning := if decide (length = 0) then beginning - 1 else beginning in
    pretty beginning +:+ "," +:+ pretty length.

(** [a[i1:i2]] *)
Definition slice {A} (l : list A) (i1 i2 : nat) : list A :=
  take (i2 - i1) (drop i1 l).

Definition opcode_lines (a b : list string) (code : opcode) : list string :=
  let '(t, i1, i2, j1, j2) := code in
  match t with
  | equal => (λ line, " " +:+ line) <$> slice a i1 i2
  | replace => ((λ line, "-" +:+ line) <$> slice a i1 i2)
               ++ ((λ line, "+" +:+ line) <$> slice b j1 j2)
  | delete => (λ line, "-" +:+ line) <$> slice a i1 i2
  | insert => (λ line, "+" +:+ line) <$> slice b j1 j2
  end.

Definition group_lines (a b : list string) (group : list opcode)
    : list string :=
  match head group, last group with
  | Some (_, f1, _, f3, _), Some (_, _, l2, _, l4) =>
      ("@@ -" +:+ _format_range_unified f1 l2 +:+ " +" +:+
       _format_range_unified f3 l4 +:+ " @@")
      :: concat (opcode_lines a b <$> group)
  | _, _ => []
  end.

(** [unified_diff(a, b, lineterm='', n=n)], all the lines it yields. *)
Definition unified_diff (a b : list string) (n : nat)
    : outcome (list string) :=
  match get_matching_blocks a b with
  | Ok blocks =>
      match get_grouped_opcodes n (get_opcodes blocks) with
      | [] => Ok []
      | groups =>
          Ok ("--- " :: "+++ " :: concat (group_lines a b <$> groups))
      end
  | Raise e => Raise e
  | OutOfFuel => OutOfFuel
  end.

(** *** Notions used to reason about the matcher *)

Section rows.
Context `{Countable A}.

(** The indices of [b] that hold [elt], in ascending order. *)
Definition positions (elt : A) (b : list A) : list nat :=
  filter (λ j, b !! j = Some elt) (seq 0 (length b)).

(** The indices the row of [i] runs over when [x] is matched with itself. *)
Definition row_of (x : list A) (i : nat) : list nat :=
  default [] (x !! i ≫= λ elt, chain_b x !! elt).

(** The length of the run of indices with a non-empty row that ends at
    [j]. *)
Fixpoint run (x : list A) (j : nat) : nat :=
  match j with
  | O => if decide (row_of x 0 = []) then 0 else 1
  | S j' => if decide (row_of x (S j') = []) then 0 else S (run x j')
  end.

Definition pred_run (x : list A) (j : nat) : nat :=
  match j with
  | O => 0
  | S j' => run x j'
  end.

(** What one entry [j] of a row does to the best match. *)
Definition bump (i : nat) (j2len : gmap nat nat) (best : nat * nat * nat)
    (j : nat) : nat * nat * nat :=
  let k := j2len_get j2len j + 1 in
  if decide (best.2 < k) then (i + 1 - k, j + 1 - k, k) else best.

(** What holds before the row of [i] when [x] is matched with itself:
    [j2len] is bounded by the runs and exact on the diagonal, the best
    match lies on the diagonal, ends within the rows seen and is as
    long as every run seen. *)
Record rows_inv (x : list A) (i : nat) (j2len : gmap nat nat)
    (best : nat * nat * nat) : Prop := {
  ri_prev_le : ∀ j, j2len_get j2len j ≤ pred_run x i
                    ∧ j2len_get j2len j ≤ pred_run x j;
  ri_prev_diag : j2len_get j2len i = pred_run x i;
  ri_diag : best.1.1 = best.1.2;
  ri_seen : ∀ j, j < i → run x j ≤ best.2;
  ri_end : best.1.1 + best.2 ≤ i
}.

End rows.

End Difflib.

(** ** [streaming.py]: the connection manager and the event stream *)

Module Streaming.

(** A [WebSocket] object, by its identity. *)
Definition WebSocket : Type := positive.

(** The peers: [closed] holds the sockets on which [send_json] raises,
    [delivered] logs every message that went through, oldest first. *)
Record Net : Type := mkNet {
  closed : gset positive;
  delivered : list (positive * dict)
}.

(** [await connection.send_json(message)] *)
Definition send_json (net : Net) (connection : WebSocket) (message : dict)
    : Net * outcome unit :=
  if decide (connection ∈ closed net)
  then (net, Raise (ValueError "send on a closed connection"))
  else (mkNet (closed net) (delivered net ++ [(connection, message)]), Ok ()).

Record ConnectionManager : Type := mkManager {
  project_connections : gmap string (gset positive);
  document_connections : gmap string (gset positive);
  global_connections : gset positive
}.

Definition manager_init : ConnectionManager := mkManager ∅ ∅ ∅.

(** [scope_id] is [Optional[str]]; the empty string is falsy like [None]. *)
Definition truthy_id (scope_id : option string) : option string :=
  match scope_id with
  | Some s => if decide (s = "") then None else Some s
  | None => None
  end.

Definition bucket_add (scope_id : string) (websocket : WebSocket)
    (m : gmap string (gset positive)) : gmap string (gset positive) :=
  <[scope_id := {[websocket]} ∪ default ∅ (m !! scope_id)]> m.

(** [connect], once the handshake [websocket.accept()] is done. *)
Definition connect (mgr : ConnectionManager) (websocket : WebSocket)
    (scope : string) (scope_id : option string) : ConnectionManager :=
  if decide (scope = "global") then
    mkManager (project_connections mgr) (document_connections mgr)
              ({[websocket]} ∪ global_connections mgr)
  else
    match truthy_id scope_id with
    | Some sid =>
        if decide (scope = "project") then
          mkManager (bucket_add sid websocket (project_connections mgr))
                    (document_connections mgr) (global_connections mgr)
        else if decide (scope = "document") then
          mkManager (project_connections mgr)
                    (bucket_add sid websocket (document_connections mgr))
                    (global_connections mgr)
        else mgr
    | None => mgr
    end.

(** [discard], then [del] of the bucket when it became empty. *)
Definition bucket_discard (scope_id : string) (websocket : WebSocket)
    (m : gmap string (gset positive)) : gmap string (gset positive) :=
  match m !! scope_id with
  | None => m
  | Some bucket =>
      let bucket' := bucket ∖ {[websocket]} in
      if decide (bucket' = ∅) then delete scope_id m
      else <[scope_id := bucket']> m
  end.

Definition disconnect (mgr : ConnectionManager) (websocket : WebSocket)
    (scope : string) (scope_id : option string) : ConnectionManager :=
  if decide (scope = "global") then
    mkManager (project_connections mgr) (document_connections mgr)
              (global_connections mgr ∖ {[websocket]})
  else
    match truthy_id scope_id with
    | Some sid =>
        if decide (scope = "project") then
          mkManager (bucket_discard sid websocket (project_connections mgr))
                    (document_connections mgr) (global_connections mgr)
        else if decide (scope = "document") then
          mkManager (project_connections mgr)
                    (bucket_discard sid websocket (document_connections mgr))
                    (global_connections mgr)
        else mgr
    | None => mgr
    end.

(** *** Broadcasts

    A broadcast walks the set of subscribers and awaits one send after
    the other. While a send is awaited other tasks run, and they may call
    the manager. *)

(** A call another task makes on the manager: [connect], [disconnect],
    or one [discard] of the clean-up loop of another broadcast. *)
Inductive call : Type :=
  | Connect (websocket : WebSocket) (scope : string)
            (scope_id : option string)
  | Disconnect (websocket : WebSocket) (scope : string)
               (scope_id : option string)
  | DiscardProject (project_id : string) (connection : WebSocket)
  | DiscardDocument (document_id : string) (connection : WebSocket)
  | DiscardGlobal (connection : WebSocket).

(** [m[key].discard(connection)], which keeps the key; without the key
    the other task gets a [KeyError] and the dictionary stays as it is. *)
Definition bucket_drop (key : string) (connection : WebSocket)
    (m : gmap string (gset positive)) : gmap string (gset positive) :=
  match m !! key with
  | Some bucket => <[key := bucket ∖ {[connection]}]> m
  | None => m
  end.

Definition run_call (c : call) (mgr : ConnectionManager)
    : ConnectionManager :=
  match c with
  | Connect websocket scope scope_id => connect mgr websocket scope scope_id
  | Disconnect websocket scope scope_id =>
      disconnect mgr websocket scope scope_id
  | DiscardProject key connection =>
      mkManager (bucket_drop key connection (project_connections mgr))
                (document_connections mgr) (global_connections mgr)
  | DiscardDocument key connection =>
      mkManager (project_connections mgr)
                (bucket_drop key connection (document_connections mgr))
                (global_connections mgr)
  | DiscardGlobal connection =>
      mkManager (project_connections mgr) (document_connections mgr)
                (global_connections mgr ∖ {[connection]})
  end.

(** What the other tasks do during the sends of one broadcast: the entry
    of index [i] is the call made on the manager while the send of index
    [i] is awaited, if any, and there is none past the end of the list.
    Several calls during one send are left out: which subscribers the
    walk then reaches depends on the layout of the set. *)
Definition schedule : Type := list (option call).

(** No other task calls the manager. *)
Definition alone : schedule := [].

Definition during (others : schedule) (mgr : ConnectionManager)
    : ConnectionManager :=
  match others with
  | Some c :: _ => run_call c mgr
  | _ => mgr
  end.

(** [len] of the set that is walked: the set the manager holds now, or
    the emptied set that [disconnect] took out of its dictionary. *)
Definition live_size (bucket : option (gset positive)) : nat :=
  match bucket with
  | Some b => size b
  | None => 0
  end.

(** The [for connection in bucket: try ... except ...] loop, on the set
    itself and not on a copy of it. [connections] are the members still
    to come and [used] is the size the set had when the walk started;
    [live] reads the set in the manager. The message goes to every
    connection in turn, and a connection whose send raises is put aside in
    [disconnected]. After each send the walk asks the set for its next
    member, and the set raises when its size is not what it was. *)
Fixpoint send_all (connections : list WebSocket) (used : nat)
    (live : ConnectionManager → option (gset positive))
    (message : dict) (others : schedule)
    (mgr : ConnectionManager) (net : Net) (disconnected : gset positive)
    : ConnectionManager * Net * outcome (gset positive) :=
  match connections with
  | [] => (mgr, net, Ok disconnected)
  | connection :: rest =>
      let '(net', sent) := send_json net connection message in
      let disconnected :=
        match sent with
        | Ok _ => disconnected
        | _ => {[connection]} ∪ disconnected
        end in
      let mgr' := during others mgr in
      if decide (live_size (live mgr') = used)
      then send_all rest used live message (tail others) mgr' net'
                    disconnected
      else (mgr', net',
            Raise (RuntimeError "Set changed size during iteration"))
  end.

(** The clean-up loop: [bucket.discard(connection)] for each one put aside. *)
Definition discard_all (bucket : gset positive) (disconnected : list WebSocket)
    : gset positive :=
  foldl (λ b connection, b ∖ {[connection]}) bucket disconnected.

(** The body shared by [broadcast_to_project] and [broadcast_to_document];
    [get] and [put] read and write the dictionary either of them works
    on. The clean-up looks the key up again for each connection put
    aside, and nothing is awaited in it. *)
Definition broadcast_to
    (get : ConnectionManager → gmap string (gset positive))
    (put : gmap string (gset positive) → ConnectionManager
           → ConnectionManager)
    (mgr : ConnectionManager) (key : string) (message : dict) (net : Net)
    (others : schedule) : ConnectionManager * Net * outcome unit :=
  match get mgr !! key with
  | None => (mgr, net, Ok ())
  | Some bucket =>
      match send_all (elements bucket) (size bucket) (λ mgr, get mgr !! key)
                     message others mgr net ∅ with
      | (mgr', net', Ok disconnected) =>
          match elements disconnected, get mgr' !! key with
          | [], _ => (mgr', net', Ok ())
          | _ :: _, None => (mgr', net', Raise (KeyError key))
          | gone, Some bucket' =>
              (put (<[key := discard_all bucket' gone]> (get mgr')) mgr',
               net', Ok ())
          end
      | (mgr', net', Raise e) => (mgr', net', Raise e)
      | (mgr', net', OutOfFuel) => (mgr', net', OutOfFuel)
      end
  end.

Definition put_project_connections (m : gmap string (gset positive))
    (mgr : ConnectionManager) : ConnectionManager :=
  mkManager m (document_connections mgr) (global_connections mgr).

Definition put_document_connections (m : gmap string (gset positive))
    (mgr : ConnectionManager) : ConnectionManager :=
  mkManager (project_connections mgr) m (global_connections mgr).

Definition broadcast_to_project (mgr : ConnectionManager) (project_id : string)
    (message : dict) (net : Net) (others : schedule)
    : ConnectionManager * Net * outcome unit :=
  broadcast_to project_connections put_project_connections
               mgr project_id message net others.

Definition broadcast_to_document (mgr : ConnectionManager)
    (document_id : string) (message : dict) (net : Net) (others : schedule)
    : ConnectionManager * Net * outcome unit :=
  broadcast_to document_connections put_document_connections
               mgr document_id message net others.

(** *** Stream events *)

Record StreamEvent : Type := mkStreamEvent {
  event_type : string;
  data : dict;
  timestamp : string
}.

(** [to_dict] *)
Definition to_dict (e : StreamEvent) : dict :=
  [("event", JStr (event_type e)); ("data", JDict (data e));
   ("timestamp", JStr (timestamp e))].

(** An SSE frame [event: <type>\ndata: <json>\n\n], by the type on its
    first line and the object serialised on its second. *)
Record SSE : Type := mkSSE { sse_event : string; sse_data : dict }.

Definition to_sse (e : StreamEvent) : SSE := mkSSE (event_type e) (data e).

(** [if content_chunk:] and [if metadata:]: [None], the empty string and
    the empty dict are falsy. *)
Definition truthy_str (s : option string) : option string :=
  match s with
  | Some c => if decide (c = "") then None else Some c
  | None => None
  end.

Definition truthy_dict (d : option dict) : option dict :=
  match d with
  | Some [] => None
  | Some m => Some m
  | None => None
  end.

(** [DocumentStreamEvent.__init__]; [now] is [datetime.utcnow().isoformat()]. *)
Definition DocumentStreamEvent (document_id : UUID) (event_type : string)
    (content_chunk : option string) (progress : Q) (metadata : option dict)
    (now : string) : StreamEvent :=
  let data := [("document_id", JStr (uuid_str document_id));
               ("progress", JNum progress)] in
  let data := match truthy_str content_chunk with
              | Some c => dict_set "content_chunk" (JStr c) data
              | None => data
              end in
  let data := match truthy_dict metadata with
              | Some m => dict_set "metadata" (JDict m) data
              | None => data
              end in
  mkStreamEvent event_type data now.

(** What an async generator of chunks does when it is driven to its end:
    it yields a chunk and goes on, it is exhausted, or it raises an
    exception whose [str] is [msg]. *)
Inductive content_generator : Type :=
  | Yield (chunk : string) (rest : content_generator)
  | Exhausted
  | Throw (msg : string).

(** The [async for] loop of [document_stream_generator] and what follows
    it; [clock k] is the time at which the [k]-th event is built. *)
Fixpoint stream_chunks (document_id : UUID) (clock : nat → string) (k : nat)
    (total_chars : Z) (content_generator : content_generator) : list SSE :=
  match content_generator with
  | Yield chunk rest =>
      let total_chars := (total_chars + Z.of_nat (String.length chunk))%Z in
      let event :=
        DocumentStreamEvent document_id "content_chunk" (Some chunk)
          (py_min (inject_Z total_chars / inject_Z 10000) 1) None (clock k) in
      to_sse event :: stream_chunks document_id clock (S k) total_chars rest
  | Exhausted =>
      [to_sse (DocumentStreamEvent document_id "complete" None 1 None (clock k))]
  | Throw msg =>
      [to_sse (DocumentStreamEvent document_id "error" None 0
                 (Some [("error", JStr msg)]) (clock k))]
  end.

Definition document_stream_generator (document_id : UUID)
    (clock : nat → string) (content_generator : content_generator) : list SSE :=
  to_sse (DocumentStreamEvent document_id "start" None 0 None (clock O))
  :: stream_chunks document_id clock 1 0 content_generator.

(** The chunks a generator yields and the failure that ends it, if any. *)
Fixpoint chunks_of (g : content_generator) : list string :=
  match g with
  | Yield chunk rest => chunk :: chunks_of rest
  | Exhausted | Throw _ => []
  end.

Fixpoint failure_of (g : content_generator) : option string :=
  match g with
  | Yield _ rest => failure_of rest
  | Exhausted => None
  | Throw msg => Some msg
  end.

(** *** What a broadcast is expected to do *)

(** [message] went, once, to exactly the members of [bucket] whose send
    does not fail, and to nobody else. *)
Definition delivered_to_open (bucket : gset positive) (message : dict)
    (net net' : Net) : Prop :=
  closed net' = closed net
  ∧ ∃ new, delivered net' = delivered net ++ new
      ∧ NoDup new
      ∧ ∀ c m, (c, m) ∈ new ↔ (c ∈ bucket ∧ ¬ (c ∈ closed net) ∧ m = message).

(** The bucket under [key] lost exactly its failing members; the other
    buckets are as they were. *)
Definition dropped_only_failed (m m' : gmap string (gset positive))
    (key : string) (bucket : gset positive) (net : Net) : Prop :=
  m' !! key = Some (bucket ∖ closed net)
  ∧ ∀ k, k ≠ key → m' !! k = m !! k.

End Streaming.

(** ** [doc_generator.py]: templates and the dependency waves *)

Module DocGenerator.

Record DocumentTemplate : Type := mkTemplate {
  doc_type : string;
  title : string;
  prompt_template : string;
  dependencies : list string;
  estimated_tokens : Z
}.
Arguments mkTemplate _%_string _%_string _%_string _ _%_Z.

(** Templates are compared field by field where Python compares object
    identities; [remove] is only ever asked for templates that satisfy or
    fail the selection together with their equals, so that the waves are
    the same either way. *)
#[global] Instance DocumentTemplate_eq_dec : EqDecision DocumentTemplate.
Proof. solve_decision. Defined.

(** [all(dep in generated_types for dep in template.dependencies)] *)
Definition deps_satisfied (generated_types : gset string)
    (template : DocumentTemplate) : Prop :=
  Forall (λ dep, dep ∈ generated_types) (dependencies template).

#[global] Instance deps_satisfied_dec g t : Decision (deps_satisfied g t).
Proof. unfold deps_satisfied. apply _. Defined.

(** The [for template in current_wave] loop that closes an iteration:
    every template of the wave is removed from [remaining] and its
    [doc_type] joins [generated_types]. *)
Fixpoint place_wave (current_wave remaining : list DocumentTemplate)
    (generated_types : gset string)
    : option (list DocumentTemplate * gset string) :=
  match current_wave with
  | [] => Some (remaining, generated_types)
  | template :: rest =>
      match list_remove template remaining with
      | None => None
      | Some remaining' =>
          place_wave rest remaining' ({[doc_type template]} ∪ generated_types)
      end
  end.

(** The wave chosen by one iteration: the templates whose dependencies are
    all generated, or every remaining template when there is none. *)
Definition select_wave (remaining : list DocumentTemplate)
    (generated_types : gset string) : list DocumentTemplate :=
  match filter (deps_satisfied generated_types) remaining with
  | [] => remaining
  | current_wave => current_wave
  end.

(** [while remaining:], one unit of fuel per iteration. *)
Fixpoint build_loop (fuel : nat) (waves : list (list DocumentTemplate))
    (remaining : list DocumentTemplate) (generated_types : gset string)
    : outcome (list (list DocumentTemplate)) :=
  match remaining with
  | [] => Ok waves
  | _ :: _ =>
      match fuel with
      | O => OutOfFuel
      | S fuel' =>
          let current_wave := select_wave remaining generated_types in
          match place_wave current_wave remaining generated_types with
          | None => Raise (ValueError "list.remove(x): x not in list")
          | Some (remaining', generated_types') =>
              build_loop fuel' (waves ++ [current_wave])
                         remaining' generated_types'
          end
      end
  end.

(** [_build_dependency_graph]; [fuel] bounds the iterations. *)
Definition _build_dependency_graph (fuel : nat)
    (templates : list DocumentTemplate)
    : outcome (list (list DocumentTemplate)) :=
  build_loop fuel [] templates ∅.

(** The dependency relation of a template set, on [doc_type]s. *)
Definition dep_edge (templates : list DocumentTemplate) (d d' : string) : Prop :=
  ∃ t, t ∈ templates ∧ doc_type t = d ∧ d' ∈ dependencies t.

Definition acyclic (templates : list DocumentTemplate) : Prop :=
  ∀ d, ¬ tc (dep_edge templates) d d.

(** Every dependency names the [doc_type] of a template of the set. *)
Definition deps_closed (templates : list DocumentTemplate) : Prop :=
  ∀ t d, t ∈ templates → d ∈ dependencies t →
    ∃ t', t' ∈ templates ∧ doc_type t' = d.

(** Every dependency of a template of wave [i] is the [doc_type] of a
    template of an earlier wave; in particular the templates of the first
    wave have no dependency. *)
Definition waves_respect_deps (waves : list (list DocumentTemplate)) : Prop :=
  ∀ i w t d, waves !! i = Some w → t ∈ w → d ∈ dependencies t →
    ∃ j w' t', j < i ∧ waves !! j = Some w' ∧ t' ∈ w' ∧ doc_type t' = d.

(** The same, asked of the waves after the first only. *)
Definition later_waves_respect_deps
    (waves : list (list DocumentTemplate)) : Prop :=
  ∀ i w t d, 0 < i → waves !! i = Some w → t ∈ w → d ∈ dependencies t →
    ∃ j w' t', j < i ∧ waves !! j = Some w' ∧ t' ∈ w' ∧ doc_type t' = d.

(** A ranking of the types that every dependency lowers rules cycles out. *)
Definition ranked (rank : string → nat) templates : Prop :=
  Forall (λ t, Forall (λ d, rank d < rank (doc_type t)) (dependencies t))
         templates.

(** A ranking of the catalogue. *)
Definition sample_rank (d : string) : nat :=
  if decide (d = "PRD") then 0
  else if decide (d = "TechnicalSpec") then 1
  else 2.

Section loop_invariant.
Implicit Types (g : gset string) (r templates : list DocumentTemplate).
Implicit Types (acc : list (list DocumentTemplate)).

(** What is known between two iterations when [templates] are being
    scheduled: the waves emitted so far and [remaining] split the input,
    [generated_types] holds the types of the emitted templates, and the
    emitted waves respect the dependencies. *)
Record loop_inv templates acc r g : Prop := {
  inv_split : templates ≡ₚ concat acc ++ r;
  inv_generated : g = list_to_set (doc_type <$> concat acc);
  inv_respect : waves_respect_deps acc
}.

End loop_invariant.

(** *** Generation of one document *)

(** What [_generate_single_document] works on: the session, the global
    connection manager and the peers behind it. *)
Record World : Type := mkWorld {
  session : Session;
  manager : Streaming.ConnectionManager;
  net : Streaming.Net
}.

(** The message broadcast after [chunk] joined [full_content]. The
    division raises when [estimated_tokens] is zero. *)
Definition content_chunk_message (document_id : UUID)
    (chunk full_content : string) (template : DocumentTemplate)
    : outcome dict :=
  if decide (estimated_tokens template = 0%Z) then Raise ZeroDivisionError
  else
    Ok [("event", JStr "content_chunk");
        ("data", JDict
           [("document_id", JStr (uuid_str document_id));
            ("chunk", JStr chunk);
            ("progress",
             JNum (inject_Z (Z.of_nat (String.length full_content))
                   / inject_Z (estimated_tokens template)))])].

(** *** The prompt

    [template.prompt_template.format(project_name=..., context=...,
    **context)]. *)

(** The keyword arguments of the call. The two named ones are evaluated
    first; a key of [context] that repeats one of them is a [TypeError],
    the first such key in the order of the dictionary being the one
    reported. *)
Definition multiple_values (key : string) : exn :=
  TypeError ("str.format() got multiple values for keyword argument '"
             +:+ key +:+ "'").

Definition format_kwargs (context : dict) : outcome dict :=
  let project_name :=
    default (JStr "Project") (dict_get "project_name" context) in
  let description := default (JStr "") (dict_get "description" context) in
  match List.find (λ kv, bool_decide (kv.1 = "project_name"
                                       ∨ kv.1 = "context")) context with
  | Some (key, _) => Raise (multiple_values key)
  | None =>
      Ok (("project_name", project_name) :: ("context", description)
          :: context)
  end.

(** Where the reading of a format string stands: in literal text, after
    an opening brace, in the replacement field [name], or after a closing
    brace met in literal text. *)
Inductive format_state : Type :=
  | Text
  | Opened
  | Named (name : string)
  | Closed.

(** Characters by their codes: the braces, and what makes a replacement
    field more than a name: [.] and [[] (attribute and index), [!]
    (conversion), [:] (format specification) and a nested [{]. *)
Definition is_open (c : Ascii.ascii) : Prop := Ascii.nat_of_ascii c = 123.
Definition is_close (c : Ascii.ascii) : Prop := Ascii.nat_of_ascii c = 125.

Definition is_rich (c : Ascii.ascii) : bool :=
  bool_decide (Ascii.nat_of_ascii c ∈ [46; 91; 33; 58; 123]).

Definition is_digit (c : Ascii.ascii) : bool :=
  bool_decide (48 ≤ Ascii.nat_of_ascii c ≤ 57).

Fixpoint all_digits (s : string) : bool :=
  match s with
  | EmptyString => true
  | String c rest => is_digit c && all_digits rest
  end.

(** [str.format] with keyword arguments only, from left to right: [{{]
    and [}}] stand for a brace, a lone brace is a [ValueError], and a
    replacement field that is a name is looked up among the keyword
    arguments, a [KeyError] when it is missing. Only whether the call
    returns is kept: the text it returns is not read by the generator.
    Fields that are empty or a number (positional arguments) or that
    hold an attribute, an index, a conversion or a format specification
    are left out, and get no answer. *)
Fixpoint format_from (st : format_state) (template : string)
    (kwargs : dict) : outcome unit :=
  match template with
  | EmptyString =>
      match st with
      | Text => Ok ()
      | Opened => Raise (ValueError "Single '{' encountered in format string")
      | Named _ => Raise (ValueError "expected '}' before end of string")
      | Closed => Raise (ValueError "Single '}' encountered in format string")
      end
  | String c rest =>
      match st with
      | Text =>
          if decide (is_open c) then format_from Opened rest kwargs
          else if decide (is_close c) then format_from Closed rest kwargs
          else format_from Text rest kwargs
      | Opened =>
          if decide (is_open c) then format_from Text rest kwargs
          else if decide (is_close c) then OutOfFuel
          else if is_rich c then OutOfFuel
          else format_from (Named (String c "")) rest kwargs
      | Named name =>
          if decide (is_close c) then
            if all_digits name then OutOfFuel
            else
              match dict_get name kwargs with
              | Some _ => format_from Text rest kwargs
              | None => Raise (KeyError name)
              end
          else if is_rich c then OutOfFuel
          else format_from (Named (name +:+ String c "")) rest kwargs
      | Closed =>
          if decide (is_close c) then format_from Text rest kwargs
          else Raise (ValueError "Single '}' encountered in format string")
      end
  end.

Definition str_format (template : string) (kwargs : dict) : outcome unit :=
  format_from Text template kwargs.

(** The argument of [generate_content_stream], evaluated before the
    stream is asked for its first chunk. *)
Definition render_prompt (template : DocumentTemplate) (context : dict)
    : outcome unit :=
  match format_kwargs context with
  | Ok kwargs => str_format (prompt_template template) kwargs
  | Raise e => Raise e
  | OutOfFuel => OutOfFuel
  end.

(** [context.update({"project_name": ..., "description": ...})] on
    [request.context or {}]: the context the endpoint [generate_documents]
    hands to the coordinator. *)
Definition endpoint_context (request_context : option dict)
    (project_name description : string) : dict :=
  dict_set "description" (JStr description)
    (dict_set "project_name" (JStr project_name)
       (default [] request_context)).

(** The [async for chunk in ...] loop, for a generation that runs alone:
    no other task calls the connection manager meanwhile. [chunks] is
    what the content stream yields. *)
Fixpoint stream_content (document_id : UUID) (template : DocumentTemplate)
    (chunks : list string) (full_content : string)
    (mgr : Streaming.ConnectionManager) (net : Streaming.Net)
    : Streaming.ConnectionManager * Streaming.Net * outcome string :=
  match chunks with
  | [] => (mgr, net, Ok full_content)
  | chunk :: rest =>
      let full_content := full_content +:+ chunk in
      match content_chunk_message document_id chunk full_content template with
      | Ok message =>
          match Streaming.broadcast_to_document mgr (uuid_str document_id)
                  message net Streaming.alone with
          | (mgr', net', Ok _) =>
              stream_content document_id template rest full_content mgr' net'
          | (mgr', net', Raise e) => (mgr', net', Raise e)
          | (mgr', net', OutOfFuel) => (mgr', net', OutOfFuel)
          end
      | Raise e => (mgr, net, Raise e)
      | OutOfFuel => (mgr, net, OutOfFuel)
      end
  end.

(** [_generate_single_document], for a generation that runs alone. The
    two [uuid4] are the identifiers drawn for the graph node and for the
    document; [chunks] stands for the stream [generate_content_stream]
    returns, which does not read the prompt. The world returned with a
    failure is the one the exception leaves behind. *)
Definition _generate_single_document (w : World) (project_id : UUID)
    (template : DocumentTemplate) (context : dict) (chunks : list string)
    (uuid4 : UUID * UUID) : World * outcome (UUID * string) :=
  let '(graph_node_id, doc_node_id) := uuid4 in
  let graph_node :=
    GraphNode.mk graph_node_id DOCUMENT DOCUMENTATION (title template) None
      0 0 0 300 200 None false None (Some project_id)
      [("doc_type", JStr (doc_type template))] None in
  if decide (is_Some (graph_nodes (session w) !! graph_node_id))
  then (w, Raise (IntegrityError "graph_nodes.id"))
  else
    let s1 := put_graph_node graph_node (session w) in
    match
      Streaming.broadcast_to_project (manager w) (uuid_str project_id)
        [("event", JStr "node_created");
         ("data", JDict [("node_id", JStr (uuid_str graph_node_id));
                         ("node_type", JStr "document");
                         ("label", JStr (title template))])]
        (net w) Streaming.alone
    with
    | (mgr1, net1, Ok _) =>
        let doc_node :=
          DocumentNode.mk doc_node_id graph_node_id (title template)
            (doc_type template) "" "markdown" 1 None true true 0
            (Some "swarm_coordinator") [] [] project_id in
        if decide (is_Some (documents s1 !! doc_node_id))
        then (mkWorld s1 mgr1 net1, Raise (IntegrityError "document_nodes.id"))
        else
          let s2 := put_document doc_node s1 in
          match render_prompt template context with
          | Ok _ =>
              match stream_content doc_node_id template chunks "" mgr1 net1
              with
              | (mgr2, net2, Ok full_content) =>
                  let s3 :=
                    put_document
                      (DocumentNode.set_generated full_content doc_node) s2 in
                  match
                    Streaming.broadcast_to_document mgr2
                      (uuid_str doc_node_id)
                      [("event", JStr "generation_complete");
                       ("data",
                        JDict [("document_id",
                                JStr (uuid_str doc_node_id))])]
                      net2 Streaming.alone
                  with
                  | (mgr3, net3, Ok _) =>
                      (mkWorld s3 mgr3 net3, Ok (doc_node_id, full_content))
                  | (mgr3, net3, Raise e) => (mkWorld s3 mgr3 net3, Raise e)
                  | (mgr3, net3, OutOfFuel) =>
                      (mkWorld s3 mgr3 net3, OutOfFuel)
                  end
              | (mgr2, net2, Raise e) => (mkWorld s2 mgr2 net2, Raise e)
              | (mgr2, net2, OutOfFuel) => (mkWorld s2 mgr2 net2, OutOfFuel)
              end
          | Raise e => (mkWorld s2 mgr1 net1, Raise e)
          | OutOfFuel => (mkWorld s2 mgr1 net1, OutOfFuel)
          end
    | (mgr1, net1, Raise e) => (mkWorld s1 mgr1 net1, Raise e)
    | (mgr1, net1, OutOfFuel) => (mkWorld s1 mgr1 net1, OutOfFuel)
    end.

(** The progress a broadcast message carries under [data.progress]. *)
Definition progress_of (message : dict) : option Q :=
  match dict_get "data" message with
  | Some (JDict data) =>
      match dict_get "progress" data with
      | Some (JNum q) => Some q
      | _ => None
      end
  | _ => None
  end.

(** The progress values of the [content_chunk] messages [connection]
    received, oldest first. *)
Definition chunk_progress (connection : Streaming.WebSocket)
    (net : Streaming.Net) : list Q :=
  omap (λ cm, match dict_get "event" cm.2 with
              | Some (JStr e) =>
                  if decide (cm.1 = connection ∧ e = "content_chunk")
                  then progress_of cm.2 else None
              | _ => None
              end)
       (Streaming.delivered net).

(** Templates of the catalogue. *)
Definition PRD :=
  mkTemplate "PRD" "Product Requirements Document"
    "Write a comprehensive Product Requirements Document for {project_name}.

Include:
1. Executive Summary
2. Problem Statement
3. Goals and Objectives
4. User Stories and Use Cases
5. Feature Requirements
6. Success Metrics
7. Timeline and Milestones

Context: {context}"
    [] 3000.

Definition TechnicalSpec :=
  mkTemplate "TechnicalSpec" "Technical Specification"
    "Write a detailed Technical Specification for {project_name}.

Include:
1. Architecture Overview
2. System Components
3. Data Models
4. API Specifications
5. Security Considerations
6. Performance Requirements
7. Technology Stack

Context: {context}
Requirements: {requirements}"
    ["PRD"] 4000.

Definition APIDoc :=
  mkTemplate "APIDoc" "API Documentation"
    "Write comprehensive API Documentation for {project_name}.

Include:
1. Authentication
2. Endpoints (with request/response examples)
3. Error Codes
4. Rate Limiting
5. Webhooks
6. SDK Examples

Context: {context}
Technical Spec: {technical_spec}"
    ["TechnicalSpec"] 3500.

Definition Architecture :=
  mkTemplate "Architecture" "Architecture Diagram Documentation"
    "Write detailed Architecture Documentation for {project_name}.

Include:
1. System Architecture (describe diagram)
2. Component Interactions
3. Data Flow
4. Deployment Architecture
5. Scalability Considerations
6. Technology Choices and Rationale

Context: {context}
Technical Spec: {technical_spec}"
    ["TechnicalSpec"] 2000.

(** A context under which the prompt of [Architecture] renders. *)
Definition sample_context : dict :=
  [("description", JStr "A planning tool");
   ("technical_spec", JStr "See the technical specification.")].

(** A text of 2159 characters, the length of the placeholder architecture
    document, cut into chunks of 50 characters as [generate_content_stream]
    does. *)
Definition fifty : string :=
  "## 1. Overview ................................. |".

Definition architecture_chunks : list string :=
  replicate 43 fifty ++ ["## End..."].

(** A world in which connection 1 listens on document 2. *)
Definition sample_world : World :=
  mkWorld (mkSession ∅ ∅ ∅)
    (Streaming.connect Streaming.manager_init 1%positive
       "document" (Some (uuid_str (mkUUID 2))))
    (Streaming.mkNet ∅ []).

End DocGenerator.
(** ** [version_manager.py]: the lineage of document versions *)

Module VersionManager.

Definition STACK_Z_OFFSET : Z := 1.
Definition STACK_Y_OFFSET : Q := 20.

(** [_get_root_id]: the walk up the [parent_version_id] links, which ends
    at a document with no parent or with a parent the session does not
    have. One unit of fuel per turn of the [while]; [None] when it ran out. *)
Fixpoint _get_root_id (fuel : nat) (s : Session) (current : DocumentNode.t)
    : option UUID :=
  match DocumentNode.parent_version_id current with
  | None => Some (DocumentNode.id current)
  | Some parent_id =>
      match documents s !! parent_id with
      | None => Some (DocumentNode.id current)
      | Some parent =>
          match fuel with
          | O => None
          | S fuel' => _get_root_id fuel' s parent
          end
      end
  end.

(** The node stacked on [current_graph_node] for the next version of
    [current_doc]. *)
Definition stacked_graph_node (new_id : UUID) (current_doc : DocumentNode.t)
    (current_graph_node : GraphNode.t) : GraphNode.t :=
  GraphNode.mk new_id
    (GraphNode.node_type current_graph_node)
    (GraphNode.layer current_graph_node)
    (DocumentNode.title current_doc +:+ " v" +:+
       pretty (DocumentNode.version current_doc + 1)%Z)
    (GraphNode.description current_graph_node)
    (GraphNode.position_x current_graph_node)
    (GraphNode.position_y current_graph_node - STACK_Y_OFFSET)%Q
    (GraphNode.position_z current_graph_node + STACK_Z_OFFSET)%Z
    (GraphNode.width current_graph_node)
    (GraphNode.height current_graph_node)
    (GraphNode.color current_graph_node)
    false
    (Some (GraphNode.id current_graph_node))
    (GraphNode.project_id current_graph_node)
    (dict_set "parent_version_id"
       (JStr (uuid_str (DocumentNode.id current_doc)))
       (dict_set "version" (JInt (DocumentNode.version current_doc + 1))
          (GraphNode.data current_graph_node)))
    None.

(** The next version of [current_doc]. *)
Definition next_version (new_id : UUID) (new_graph_node : GraphNode.t)
    (current_doc : DocumentNode.t) (new_content : string)
    (metadata : option dict) : DocumentNode.t :=
  DocumentNode.mk new_id
    (GraphNode.id new_graph_node)
    (DocumentNode.title current_doc)
    (DocumentNode.doc_type current_doc)
    new_content
    (DocumentNode.content_format current_doc)
    (DocumentNode.version current_doc + 1)%Z
    (Some (DocumentNode.id current_doc))
    true
    false 0 None
    (DocumentNode.tags current_doc)
    (dict_merge (DocumentNode.metadata current_doc) (default [] metadata))
    (DocumentNode.project_id current_doc).

Definition supersedes_edge (new_id : UUID) (new_doc : DocumentNode.t)
    (new_graph_node current_graph_node : GraphNode.t) : GraphEdge.t :=
  GraphEdge.mk new_id SUPERSEDES
    (GraphNode.id new_graph_node) (GraphNode.id current_graph_node)
    (Some ("v" +:+ pretty (DocumentNode.version new_doc)))
    None false [("version_link", JBool true)].

(** [create_new_version]. The three [uuid4] are the identifiers drawn for
    the new graph node, the new document and the edge between the nodes.
    The session returned with a failure is the last one committed. The
    last statement builds the [_broadcast_version_created] coroutine
    without awaiting it, so that nothing is sent. *)
Definition create_new_version (fuel : nat) (s : Session) (document_id : UUID)
    (new_content : string) (metadata : option dict)
    (uuid4 : UUID * UUID * UUID) : Session * outcome DocumentNode.t :=
  let '(new_graph_node_id, new_doc_id, version_edge_id) := uuid4 in
  match documents s !! document_id with
  | None =>
      (s, Raise (ValueError
                   ("Document " +:+ uuid_str document_id +:+ " not found")))
  | Some current_doc =>
      let current_doc := DocumentNode.set_is_latest false current_doc in
      let s1 := put_document current_doc s in
      match _get_root_id fuel s1 current_doc with
      | None => (s, OutOfFuel)
      | Some root_id =>
          match graph_nodes s1 !! DocumentNode.graph_node_id current_doc with
          | None =>
              (s, Raise (ValueError
                           ("Graph node " +:+
                            uuid_str (DocumentNode.graph_node_id current_doc)
                            +:+ " not found")))
          | Some current_graph_node =>
              let new_graph_node :=
                stacked_graph_node new_graph_node_id current_doc
                                   current_graph_node in
              if decide (is_Some (graph_nodes s1 !! new_graph_node_id))
              then (s, Raise (IntegrityError "graph_nodes.id"))
              else
                let s2 := put_graph_node new_graph_node s1 in
                let new_doc :=
                  next_version new_doc_id new_graph_node current_doc
                               new_content metadata in
                let version_edge :=
                  supersedes_edge version_edge_id new_doc new_graph_node
                                  current_graph_node in
                if decide (is_Some (documents s2 !! new_doc_id))
                then (s2, Raise (IntegrityError "document_nodes.id"))
                else if decide (is_Some (graph_edges s2 !! version_edge_id))
                then (s2, Raise (IntegrityError "graph_edges.id"))
                else (put_graph_edge version_edge (put_document new_doc s2),
                      Ok new_doc)
          end
      end
  end.

(** *** Chains *)

(** Rows sit under their own key, and a parent link names a row of the
    table, as the foreign key on [parent_version_id] demands. *)
Record session_wf (s : Session) : Prop := {
  wf_keys : ∀ k d, documents s !! k = Some d → DocumentNode.id d = k;
  wf_parents : ∀ k d p, documents s !! k = Some d →
    DocumentNode.parent_version_id d = Some p → is_Some (documents s !! p)
}.

(** The walk up from a document ends after [n] turns. *)
Inductive reaches_root (s : Session) : DocumentNode.t → nat → Prop :=
  | reaches_here d :
      DocumentNode.parent_version_id d = None → reaches_root s d 0
  | reaches_dangling d p :
      DocumentNode.parent_version_id d = Some p →
      documents s !! p = None → reaches_root s d 0
  | reaches_up d p parent n :
      DocumentNode.parent_version_id d = Some p →
      documents s !! p = Some parent →
      reaches_root s parent n → reaches_root s d (S n).

(** The members of the chain that descends from the document [root_id]. *)
Inductive chain_member (s : Session) (root_id : UUID)
    : DocumentNode.t → Prop :=
  | chain_root d :
      documents s !! root_id = Some d → chain_member s root_id d
  | chain_child k d p parent :
      documents s !! k = Some d →
      DocumentNode.parent_version_id d = Some p →
      documents s !! p = Some parent →
      chain_member s root_id parent →
      chain_member s root_id d.

(** A chain that is a single root: version 1, latest, no parent, no child,
    and its graph node in the session. *)
Record single_root (s : Session) (root_id : UUID) : Prop := {
  root_wf : session_wf s;
  root_doc : ∃ root, documents s !! root_id = Some root
      ∧ DocumentNode.version root = 1%Z
      ∧ DocumentNode.is_latest root = true
      ∧ DocumentNode.parent_version_id root = None
      ∧ is_Some (graph_nodes s !! DocumentNode.graph_node_id root);
  root_alone : ∀ k d, documents s !! k = Some d →
      DocumentNode.parent_version_id d ≠ Some root_id
}.

Definition fresh (uuid4 : UUID * UUID * UUID) (s : Session) : Prop :=
  graph_nodes s !! uuid4.1.1 = None
  ∧ documents s !! uuid4.1.2 = None
  ∧ graph_edges s !! uuid4.2 = None.

(** One call of [create_new_version], with fresh identifiers, that names a
    document flagged [is_latest] (or no document at all). *)
Definition call_on_latest (s s' : Session) : Prop :=
  ∃ fuel document_id new_content metadata uuid4 result,
    fresh uuid4 s
    ∧ (∀ d, documents s !! document_id = Some d →
            DocumentNode.is_latest d = true)
    ∧ create_new_version fuel s document_id new_content metadata uuid4
      = (s', result).

(** One call of [create_new_version], with fresh identifiers, on any
    document. *)
Definition call_on_any (s s' : Session) : Prop :=
  ∃ fuel document_id new_content metadata uuid4 result,
    fresh uuid4 s
    ∧ create_new_version fuel s document_id new_content metadata uuid4
      = (s', result).

(** The members of the chain are the elements of [l], their versions are
    [1, 2, ..., length l], and one of them exactly is flagged [is_latest]. *)
Definition chain_is (s : Session) (root_id : UUID)
    (l : list DocumentNode.t) : Prop :=
  (∀ d, chain_member s root_id d ↔ d ∈ l)
  ∧ NoDup l
  ∧ DocumentNode.version <$> l = seqZ 1 (Z.of_nat (length l))
  ∧ ∃ latest, filter (λ d, DocumentNode.is_latest d = true) l = [latest].

(** The chain laid out in the order of its versions: the document at
    index [i] is in the session, has version [i + 1] and the document
    before it as its parent, is flagged exactly when it is the last one,
    and no document outside [l] has a parent in [l]. *)
Record chain_inv (s : Session) (root_id : UUID)
    (l : list DocumentNode.t) : Prop := {
  ci_wf : session_wf s;
  ci_head : DocumentNode.id <$> l !! 0 = Some root_id;
  ci_nodes : ∀ i d, l !! i = Some d →
      documents s !! DocumentNode.id d = Some d
      ∧ DocumentNode.version d = Z.of_nat (S i)
      ∧ DocumentNode.is_latest d = bool_decide (S i = length l)
      ∧ DocumentNode.parent_version_id d
        = match i with O => None | S j => DocumentNode.id <$> l !! j end
      ∧ is_Some (graph_nodes s !! DocumentNode.graph_node_id d);
  ci_closed : ∀ k d p, documents s !! k = Some d → p ∈ l →
      DocumentNode.parent_version_id d = Some (DocumentNode.id p) → d ∈ l
}.

(** *** A sample lineage *)

Definition sample_graph_node : GraphNode.t :=
  GraphNode.mk (mkUUID 101) DOCUMENT DOCUMENTATION
    "Product Requirements Document" None 0 0 0 300 200 None false None
    (Some (mkUUID 9)) [("doc_type", JStr "PRD")] None.

Definition sample_root : DocumentNode.t :=
  DocumentNode.mk (mkUUID 1) (mkUUID 101) "Product Requirements Document"
    "PRD" "# PRD" "markdown" 1 None true false 1 (Some "swarm_coordinator")
    [] [] (mkUUID 9).

Definition sample_session : Session :=
  mkSession {[mkUUID 1 := sample_root]} {[mkUUID 101 := sample_graph_node]} ∅.

(** The session after a first edit of the root. *)
Definition sample_session_2 : Session :=
  (create_new_version 0 sample_session (mkUUID 1) "# PRD, second draft" None
     (mkUUID 102, mkUUID 2, mkUUID 202)).1.

(** The session after a further edit that names the root again. *)
Definition sample_session_fork : Session :=
  (create_new_version 0 sample_session_2 (mkUUID 1) "# PRD, another draft"
     None (mkUUID 103, mkUUID 3, mkUUID 203)).1.

End VersionManager.

(** ** [version_manager.py]: [VersionDiffService] *)

Module VersionDiffService.

(** The characters of a [str] are the characters of a [string], code
    points below 256. [str.splitlines] cuts at the line boundaries among
    them: LF, VT, FF, CR, CR LF, FS, GS, RS and NEL. *)
Definition is_line_boundary (c : Ascii.ascii) : bool :=
  bool_decide (Ascii.nat_of_ascii c ∈ [10; 11; 12; 13; 28; 29; 30; 133]).

Fixpoint splitlines_go (line : string) (s : string) : list string :=
  match s with
  | EmptyString => if decide (line = "") then [] else [line]
  | String c rest =>
      if decide (Ascii.nat_of_ascii c = 13) then
        match rest with
        | String c' rest' =>
            if decide (Ascii.nat_of_ascii c' = 10)
            then line :: splitlines_go "" rest'
            else line :: splitlines_go "" rest
        | EmptyString => [line]
        end
      else if is_line_boundary c then line :: splitlines_go "" rest
      else splitlines_go (line +:+ String c "") rest
  end.

Definition splitlines (s : string) : list string := splitlines_go "" s.

(** A generator object, by the items it has yet to yield. Whoever
    iterates it takes them all and leaves it exhausted. *)
Definition generator : Type := list string.

(** [list(g)] *)
Definition list_of (g : generator) : list string * generator := (g, []).

(** [sum(1 for line in g if line.startswith(prefix))] *)
Definition count_startswith (prefix : string) (g : generator)
    : nat * generator :=
  (length (filter (λ line, String.prefix prefix line = true) g), []).

Record DiffResult : Type := mkDiffResult {
  diff_lines : list string;
  added_lines : nat;
  removed_lines : nat
}.

(** [compute_diff]: the three entries of the result are evaluated in
    order, on the one generator [diff]. *)
Definition compute_diff (content_a content_b : string) : outcome DiffResult :=
  let lines_a := splitlines content_a in
  let lines_b := splitlines content_b in
  match Difflib.unified_diff lines_a lines_b 3 with
  | Ok diff =>
      let '(lines, diff) := list_of diff in
      let '(added, diff) := count_startswith "+" diff in
      let '(removed, diff) := count_startswith "-" diff in
      Ok (mkDiffResult lines added removed)
  | Raise e => Raise e
  | OutOfFuel => OutOfFuel
  end.

(** [compute_similarity] *)
Definition compute_similarity (content_a content_b : string) : outcome Q :=
  Difflib.ratio (String.list_ascii_of_string content_a)
                (String.list_ascii_of_string content_b).

(** The lines of a unified diff that add a line, and those that remove
    one: the lines marked [+] or [-] after the two lines of the header. *)
Definition added_in (lines : list string) : nat :=
  length (filter (λ line, String.prefix "+" line = true) (drop 2 lines)).

Definition removed_in (lines : list string) : nat :=
  length (filter (λ line, String.prefix "-" line = true) (drop 2 lines)).

End VersionDiffService.

(** ** Notions for the further properties *)

Module Scheduler.
Import DocGenerator.

(** Every template of a wave after the first was held back by the wave
    before it: one of its dependencies is of no type generated before
    that wave. *)
Definition waves_levelled (waves : list (list DocumentTemplate)) : Prop :=
  ∀ i w t, waves !! S i = Some w → t ∈ w →
    ∃ d, d ∈ dependencies t ∧ d ∉ doc_type <$> concat (take i waves).

(** The templates still to place were not selectable when the last wave
    of [acc] was chosen. *)
Definition held_back (r : list DocumentTemplate)
    (acc : list (list DocumentTemplate)) : Prop :=
  acc = [] ∨
  ∀ t, t ∈ r →
    ∃ d, d ∈ dependencies t
      ∧ d ∉ doc_type <$> concat (take (pred (length acc)) acc).

End Scheduler.

(** ** [doc_generator.py]: the placeholder content stream *)

Module ContentStream.

(** [s[i:j]] for [0 <= i]; the slice stops at the end of [s]. *)
Definition str_slice (s : string) (i j : nat) : string :=
  String.substring i (j - i) s.

(** [range(i, stop, step)] for a positive [step], walked for at most
    [fuel] elements. *)
Fixpoint range_from (fuel i stop step : nat) : list nat :=
  match fuel with
  | O => []
  | S fuel' =>
      if decide (i < stop) then i :: range_from fuel' (i + step) stop step
      else []
  end.

(** [range(0, stop, step)]: it has no more than [stop] elements. *)
Definition py_range (stop step : nat) : list nat :=
  range_from stop 0 stop step.

(** [for i in range(0, len(content), chunk_size):
       yield content[i:i + chunk_size]] *)
Definition chunked (content : string) (chunk_size : nat) : list string :=
  (λ i, str_slice content i (i + chunk_size))
    <$> py_range (String.length content) chunk_size.

(** [generate_content_stream]: the placeholder text of the type, or the
    default one, in chunks of 50 characters. The texts are parameters. *)
Definition generate_content_stream (content_map : string → option string)
    (default_content : string) (doc_type : string) : list string :=
  chunked (default default_content (content_map doc_type)) 50.

(** [''.join(chunks)] *)
Definition joined (chunks : list string) : string :=
  foldr String.append "" chunks.

End ContentStream.

(** ** Completions with the exceptions of the handlers and endpoints *)

Inductive raised : Type :=
  | Base (e : exn)
  | AttributeError (msg : string)
  | HTTPException (status_code : Z) (detail : string).

Inductive completion (A : Type) : Type :=
  | Returns (a : A)
  | Raises (r : raised)
  | Diverges.
Arguments Returns {A} a.
Arguments Raises {A} r.
Arguments Diverges {A}.

Definition completion_of {A} (o : outcome A) : completion A :=
  match o with
  | Ok a => Returns a
  | Raise e => Raises (Base e)
  | OutOfFuel => Diverges
  end.

(** ** [streaming.py]: the rest of the connection manager *)

Module Connections.
Import Streaming.

(** [broadcast_global]: the walk is over the global set itself, and the
    clean-up discards from it. *)
Definition broadcast_global (mgr : ConnectionManager) (message : dict)
    (net : Net) (others : schedule)
    : ConnectionManager * Net * outcome unit :=
  match send_all (elements (global_connections mgr))
                 (size (global_connections mgr))
                 (λ mgr, Some (global_connections mgr))
                 message others mgr net ∅ with
  | (mgr', net', Ok disconnected) =>
      (mkManager (project_connections mgr') (document_connections mgr')
         (discard_all (global_connections mgr') (elements disconnected)),
       net', Ok ())
  | (mgr', net', Raise e) => (mgr', net', Raise e)
  | (mgr', net', OutOfFuel) => (mgr', net', OutOfFuel)
  end.

(** [send_personal_message]: the exception of a failed send is printed
    and dropped. *)
Definition send_personal_message (message : dict) (websocket : WebSocket)
    (net : Net) : Net :=
  (send_json net websocket message).1.

(** What [websocket.receive_json()] gives, call after call: a value and
    then the next call, the [WebSocketDisconnect] of a peer that left, or
    another exception. *)
Inductive incoming : Type :=
  | Receive (data : json) (rest : incoming)
  | WebSocketDisconnect
  | ReceiveError (msg : string).

(** The [while True] loop of [handle_websocket_connection], up to the
    exception that ends it; [clock k] is the time at which the [k]-th
    message is handled. A value that is no object has no [get], and the
    [AttributeError] ends the loop like any other exception. *)
Fixpoint serve (websocket : WebSocket) (clock : nat → string) (k : nat)
    (messages : incoming) (net : Net) : Net :=
  match messages with
  | Receive (JDict data) rest =>
      let message_type := dict_get "type" data in
      let net :=
        match message_type with
        | Some (JStr t) =>
            if decide (t = "ping") then
              send_personal_message
                [("type", JStr "pong"); ("timestamp", JStr (clock k))]
                websocket net
            else net
        | _ => net
        end in
      serve websocket clock (S k) rest net
  | Receive _ _ => net
  | WebSocketDisconnect => net
  | ReceiveError _ => net
  end.

(** [handle_websocket_connection], once the handshake is done, for a
    handler that runs alone. *)
Definition handle_websocket_connection (mgr : ConnectionManager)
    (websocket : WebSocket) (scope : string) (scope_id : option string)
    (clock : nat → string) (messages : incoming) (net : Net)
    : ConnectionManager * Net :=
  let mgr := connect mgr websocket scope scope_id in
  let net := serve websocket clock 0 messages net in
  (disconnect mgr websocket scope scope_id, net).

(** The set [connect] adds to and [disconnect] removes from. *)
Definition bucket_of (mgr : ConnectionManager) (scope : string)
    (scope_id : option string) : gset positive :=
  if decide (scope = "global") then global_connections mgr
  else
    match truthy_id scope_id with
    | Some sid =>
        if decide (scope = "project")
        then default ∅ (project_connections mgr !! sid)
        else if decide (scope = "document")
        then default ∅ (document_connections mgr !! sid)
        else ∅
    | None => ∅
    end.

(** No key of the dictionaries holds an empty set. *)
Definition no_empty_bucket (mgr : ConnectionManager) : Prop :=
  (∀ k b, project_connections mgr !! k = Some b → b ≠ ∅)
  ∧ (∀ k b, document_connections mgr !! k = Some b → b ≠ ∅).

(** The messages a connection was sent, oldest first. *)
Definition received (connection : WebSocket) (net : Net) : list dict :=
  omap (λ cm, if decide (cm.1 = connection) then Some cm.2 else None)
       (delivered net).

(** The messages of the client that are pings, up to the end of the loop. *)
Fixpoint pings (k : nat) (messages : incoming) : list nat :=
  match messages with
  | Receive (JDict data) rest =>
      match dict_get "type" data with
      | Some (JStr t) =>
          if decide (t = "ping") then k :: pings (S k) rest
          else pings (S k) rest
      | _ => pings (S k) rest
      end
  | _ => []
  end.

(** The chunk a broadcast message carries under [data.chunk]. *)
Definition chunk_of (message : dict) : option string :=
  match dict_get "data" message with
  | Some (JDict data) =>
      match dict_get "chunk" data with
      | Some (JStr c) => Some c
      | _ => None
      end
  | _ => None
  end.

(** The progress and the chunk of an SSE frame. *)
Definition frame_progress (f : SSE) : option Q :=
  match dict_get "progress" (sse_data f) with
  | Some (JNum q) => Some q
  | _ => None
  end.

Definition frame_chunk (f : SSE) : option string :=
  match dict_get "content_chunk" (sse_data f) with
  | Some (JStr c) => Some c
  | _ => None
  end.

End Connections.

(** ** [documents.py]: the SSE endpoint *)

Module DocumentsAPI.
Import Streaming ContentStream.

(** The generator over a list of chunks. *)
Definition content_generator_of (chunks : list string) : content_generator :=
  foldr Yield Exhausted chunks.

(** [stream_document_generation]: the frames of the response body, or the
    [HTTPException] raised before any is sent. *)
Definition stream_document_generation (s : Session) (document_id : UUID)
    (clock : nat → string) : completion (list SSE) :=
  match documents s !! document_id with
  | None => Raises (HTTPException 404 "Document not found")
  | Some doc =>
      if DocumentNode.is_generating doc then
        let chunk_size := 100 in
        Returns (document_stream_generator document_id clock
                   (content_generator_of
                      (chunked (DocumentNode.content doc) chunk_size)))
      else Raises (HTTPException 400 "Document generation already complete")
  end.

End DocumentsAPI.

(** ** [version_manager.py]: version stacks *)

Module VersionStack.

Record t : Type := mk {
  root_id : UUID;
  root_version : DocumentNode.t;
  versions : list DocumentNode.t
}.

(** [__init__] *)
Definition init (root_document : DocumentNode.t) : t :=
  mk (DocumentNode.id root_document) root_document [].

Definition add_version (version : DocumentNode.t) (stack : t) : t :=
  mk (root_id stack) (root_version stack) (versions stack ++ [version]).

(** [max(..., key=lambda v: v.version)] keeps the first of the greatest. *)
Fixpoint max_by_version (best : DocumentNode.t) (l : list DocumentNode.t)
    : DocumentNode.t :=
  match l with
  | [] => best
  | v :: l' =>
      max_by_version
        (if decide (DocumentNode.version best < DocumentNode.version v)%Z
         then v else best) l'
  end.

Definition get_latest (stack : t) : outcome DocumentNode.t :=
  match versions stack with
  | [] => Raise (ValueError "max() arg is an empty sequence")
  | v :: l => Ok (max_by_version v l)
  end.

Definition get_version (stack : t) (version_number : Z)
    : option DocumentNode.t :=
  List.find (λ v, bool_decide (DocumentNode.version v = version_number))
            (versions stack).

Definition get_stack_height (stack : t) : nat := length (versions stack).

End VersionStack.

Module VersionStacks.
Import VersionManager.

(** [order_by(DocumentNode.version)] *)
Definition version_le (a b : DocumentNode.t) : Prop :=
  (DocumentNode.version a ≤ DocumentNode.version b)%Z.

#[global] Instance version_le_dec : RelDecision version_le.
Proof. intros a b. unfold version_le. apply _. Defined.

#[global] Instance version_le_total : Total version_le.
Proof. intros a b. unfold version_le. lia. Qed.

#[global] Instance version_le_trans : Transitive version_le.
Proof. intros a b c. unfold version_le. lia. Qed.

(** The rows of the query of [get_version_stack], in the order of their
    versions; the database leaves the order of rows of one version open,
    and the sort keeps them as the table lists them. *)
Definition versions_query (s : Session) (root_id : UUID)
    : list DocumentNode.t :=
  merge_sort version_le
    (filter (λ d, DocumentNode.id d = root_id
                  ∨ DocumentNode.parent_version_id d = Some root_id)
            (map_to_list (documents s)).*2).

(** [get_version_stack] *)
Definition get_version_stack (fuel : nat) (s : Session) (document_id : UUID)
    : completion VersionStack.t :=
  match documents s !! document_id with
  | None =>
      Raises (Base (ValueError
                      ("Document " +:+ uuid_str document_id +:+ " not found")))
  | Some doc =>
      match _get_root_id fuel s doc with
      | None => Diverges
      | Some root_id =>
          match documents s !! root_id with
          | None =>
              Raises (AttributeError
                        "'NoneType' object has no attribute 'id'")
          | Some root_doc =>
              Returns (foldl (λ stack version,
                                VersionStack.add_version version stack)
                             (VersionStack.init root_doc)
                             (versions_query s root_id))
          end
      end
  end.

(** [expand_stack] *)
Definition expand_stack (fuel : nat) (s : Session) (document_id : UUID)
    : completion (list DocumentNode.t) :=
  match get_version_stack fuel s document_id with
  | Returns stack => Returns (VersionStack.versions stack)
  | Raises r => Raises r
  | Diverges => Diverges
  end.

(** [revert_to_version]; [now] is [datetime.utcnow().isoformat()]. *)
Definition revert_to_version (fuel : nat) (s : Session) (document_id : UUID)
    (version_number : Z) (now : string) (uuid4 : UUID * UUID * UUID)
    : Session * completion DocumentNode.t :=
  match get_version_stack fuel s document_id with
  | Returns stack =>
      match VersionStack.get_version stack version_number with
      | None =>
          (s, Raises (Base (ValueError
                              ("Version " +:+ pretty version_number
                               +:+ " not found"))))
      | Some target_version =>
          match VersionStack.get_latest stack with
          | Ok latest =>
              let '(s', new_version) :=
                create_new_version fuel s (DocumentNode.id latest)
                  (DocumentNode.content target_version)
                  (Some [("reverted_from_version", JInt version_number);
                         ("revert_timestamp", JStr now)])
                  uuid4 in
              (s', completion_of new_version)
          | Raise e => (s, Raises (Base e))
          | OutOfFuel => (s, Diverges)
          end
      end
  | Raises r => (s, Raises r)
  | Diverges => (s, Diverges)
  end.

(** The sample lineage after an edit of its second version. *)
Definition sample_session_3 : Session :=
  (create_new_version 1 sample_session_2 (mkUUID 2) "# PRD, third draft"
     None (mkUUID 103, mkUUID 3, mkUUID 203)).1.

End VersionStacks.

(** ** Measures for the matching blocks of the sequence matcher *)

Module Matching.

(** A block that lies inside the ranges it was looked for in. *)
Definition in_range (alo ahi blo bhi : nat) (best : nat * nat * nat) : Prop :=
  alo ≤ best.1.1 ∧ best.1.1 + best.2 ≤ ahi
  ∧ blo ≤ best.1.2 ∧ best.1.2 + best.2 ≤ bhi.

(** The run lengths of a row [j2len], as they stand before row [i]. *)
Definition row_bounded (alo blo i : nat) (j2len : gmap nat nat) : Prop :=
  ∀ j k, j2len !! j = Some k → k ≤ i - alo ∧ k ≤ j + 1 - blo.

(** The lengths of the two ranges of a queue entry
    [(alo, ahi, blo, bhi)]. *)
Definition span_a (q : nat * nat * nat * nat) : nat := q.1.1.2 - q.1.1.1.
Definition span_b (q : nat * nat * nat * nat) : nat := q.2 - q.1.2.

Definition ordered (q : nat * nat * nat * nat) : Prop :=
  q.1.1.1 ≤ q.1.1.2 ∧ q.1.2 ≤ q.2.

(** The turns of the queue loop a queue can still cause. *)
Definition queue_cost (queue : list (nat * nat * nat * nat)) : nat :=
  sum_list_with (λ q, 2 * span_a q + 1) queue.

Definition blocks_size (blocks : list (nat * nat * nat)) : nat :=
  sum_list_with snd blocks.

End Matching.

(* ================================================================= *)
(** * Properties *)

(** ** Lists *)

Section list_remove.
Context `{EqDecision A}.
Implicit Types l : list A.

Lemma list_remove_Some_perm x l l' : list_remove x l = Some l' → l ≡ₚ x :: l'.
Proof.
  revert l'. induction l as [|y l IH]; intros l'; simpl; [done|].
  destruct (decide (x = y)) as [->|Hne].
  - by intros [= ->].
  - destruct (list_remove x l) as [k|] eqn:Hk; simpl; [|done].
    intros [= <-]. rewrite (IH k eq_refl). apply Permutation_swap.
Qed.

Lemma list_remove_elem x l : x ∈ l → is_Some (list_remove x l).
Proof.
  induction 1 as [x l|x y l _ IH]; simpl.
  - rewrite decide_True by done. eauto.
  - destruct (decide (x = y)); [eauto|].
    destruct IH as [k ->]. simpl. eauto.
Qed.
End list_remove.

(** A finite set of vertices each of which has a successor in the set
    contains a cycle. *)
Lemma tc_idemp {A} (R : relation A) x y : tc (tc R) x y → tc R x y.
Proof. induction 1; [done|]. by etrans. Qed.

Lemma successors_cycle `{EqDecision A} (n : nat) :
  ∀ (R : relation A) (l : list A),
    length l ≤ n → l ≠ [] →
    (∀ x, x ∈ l → ∃ y, y ∈ l ∧ R x y) →
    ∃ x, tc R x x.
Proof.
  induction n as [|n IH]; intros R l Hlen Hne Hsucc.
  { destruct l; [done | simpl in Hlen; lia]. }
  destruct l as [|x l0]; [done|]. clear Hne.
  destruct (Hsucc x) as (y & Hy & Hxy); [left|].
  destruct (decide (y = x)) as [->|Hyx].
  { exists x. by apply tc_once. }
  set (l' := filter (λ z, z ≠ x) l0).
  assert (Hin' : ∀ z, z ∈ l' ↔ z ∈ x :: l0 ∧ z ≠ x).
  { intros z. unfold l'. rewrite list_elem_of_filter, elem_of_cons. naive_solver. }
  destruct (IH (tc R) l') as [v Hv].
  - pose proof (length_filter (λ z, z ≠ x) l0). simpl in Hlen. unfold l'. lia.
  - intros Hnil. assert (y ∈ l') as Hyl by (apply Hin'; done).
    rewrite Hnil in Hyl. by apply elem_of_nil in Hyl.
  - intros z [Hz Hzx]%Hin'.
    destruct (Hsucc z Hz) as (w & Hw & Hzw).
    destruct (decide (w = x)) as [->|Hwx].
    + exists y. split; [by apply Hin'|].
      eapply tc_l; [exact Hzw|]. by apply tc_once.
    + exists w. split; [by apply Hin'|]. by apply tc_once.
  - exists v. by apply tc_idemp.
Qed.

(** ** The sequence matcher on identical sequences *)

Module DifflibFacts.
Import Difflib.

Lemma filter_ext_elem {A} (P Q : A → Prop) `{!∀ x, Decision (P x)}
    `{!∀ x, Decision (Q x)} (l : list A) :
  (∀ x, x ∈ l → P x ↔ Q x) → filter P l = filter Q l.
Proof.
  induction l as [|a l IH]; intros Hiff; [done|].
  assert (filter P l = filter Q l) as Hl.
  { apply IH. intros y Hy. apply Hiff. by right. }
  destruct (decide (P a)) as [Ha|Ha].
  - rewrite !filter_cons_True; [by rewrite Hl|by apply Hiff; [left|]|done].
  - rewrite !filter_cons_False; [done| |done].
    intros HQ. apply Ha, Hiff; [left|done].
Qed.

Section matcher.
Context `{Countable A}.
Implicit Types (x b : list A) (elt : A).

Lemma index_elements_snoc b y :
  index_elements (b ++ [y])
  = <[y := default [] (index_elements b !! y) ++ [length b]]>
      (index_elements b).
Proof.
  unfold index_elements. rewrite length_app. simpl.
  rewrite seq_app. simpl.
  rewrite zip_with_app by (by rewrite length_seq).
  by rewrite foldl_app.
Qed.

Lemma positions_snoc elt b y :
  positions elt (b ++ [y])
  = positions elt b ++ (if decide (y = elt) then [length b] else []).
Proof.
  unfold positions. rewrite length_app. simpl. rewrite seq_app. simpl.
  rewrite filter_app. f_equal.
  - apply filter_ext_elem. intros j Hj. apply elem_of_seq in Hj.
    rewrite lookup_app_l by lia. done.
  - assert ((b ++ [y]) !! length b = Some y) as Hy.
    { rewrite lookup_app_r by lia. by rewrite Nat.sub_diag. }
    case_decide as Hye.
    + rewrite filter_cons_True; [done|]. by rewrite Hy, Hye.
    + rewrite filter_cons_False; [done|]. rewrite Hy. congruence.
Qed.

Lemma index_elements_lookup b elt :
  index_elements b !! elt
  = match positions elt b with [] => None | ps => Some ps end.
Proof.
  induction b as [|y b IH] using rev_ind; [done|].
  rewrite index_elements_snoc, positions_snoc.
  destruct (decide (y = elt)) as [->|Hy].
  - rewrite lookup_insert_eq, IH. by destruct (positions elt b).
  - rewrite lookup_insert_ne by done. by rewrite IH, app_nil_r.
Qed.

Lemma chain_b_lookup b elt idxs :
  chain_b b !! elt = Some idxs → idxs = positions elt b ∧ idxs ≠ [].
Proof.
  assert (index_elements b !! elt = Some idxs →
          idxs = positions elt b ∧ idxs ≠ []) as Hidx.
  { rewrite index_elements_lookup.
    destruct (positions elt b); [done|]. by intros [= <-]. }
  unfold chain_b. case_decide; [|done].
  rewrite map_lookup_filter_Some. intros [Hl _]. by apply Hidx.
Qed.

Lemma elem_of_positions elt b j :
  j ∈ positions elt b ↔ b !! j = Some elt.
Proof.
  unfold positions. rewrite list_elem_of_filter, elem_of_seq. split.
  - by intros [? _].
  - intros Hj. split; [done|]. apply lookup_lt_Some in Hj. lia.
Qed.

Lemma row_of_cases x i :
  row_of x i = []
  ∨ ∃ elt, x !! i = Some elt ∧ row_of x i = positions elt x.
Proof.
  unfold row_of. destruct (x !! i) as [elt|]; simpl; [|by left].
  destruct (chain_b x !! elt) as [idxs|] eqn:Hidx; simpl; [|by left].
  right. exists elt. split; [done|]. by apply chain_b_lookup.
Qed.

Lemma row_of_elem x i j :
  j ∈ row_of x i → j < length x ∧ row_of x j = row_of x i.
Proof.
  intros Hj. destruct (row_of_cases x i) as [Hnil|(elt & Hi & Hrow)].
  { rewrite Hnil in Hj. by apply elem_of_nil in Hj. }
  rewrite Hrow in Hj. apply elem_of_positions in Hj.
  split; [by eapply lookup_lt_Some|].
  unfold row_of. by rewrite Hi, Hj.
Qed.

Lemma row_of_split x i :
  row_of x i ≠ [] →
  ∃ lo hi, row_of x i = lo ++ [i] ++ hi
    ∧ Forall (λ j, j < i) lo ∧ Forall (λ j, i < j) hi.
Proof.
  intros Hne. destruct (row_of_cases x i) as [Hnil|(elt & Hi & Hrow)]; [done|].
  pose proof (lookup_lt_Some _ _ _ Hi) as Hlt.
  exists (filter (λ j, x !! j = Some elt) (seq 0 i)),
         (filter (λ j, x !! j = Some elt) (seq (S i) (length x - S i))).
  split; [|split].
  - rewrite Hrow. unfold positions.
    replace (length x) with (i + S (length x - S i)) at 1 by lia.
    rewrite seq_app. simpl. rewrite filter_app.
    by rewrite filter_cons_True by done.
  - apply Forall_forall. intros j [_ Hj%elem_of_seq]%list_elem_of_filter. lia.
  - apply Forall_forall. intros j [_ Hj%elem_of_seq]%list_elem_of_filter. lia.
Qed.

Lemma run_le x j : run x j ≤ S j.
Proof.
  induction j as [|j IH]; simpl; case_decide; lia.
Qed.

Lemma run_row x j :
  run x j = if decide (row_of x j = []) then 0 else S (pred_run x j).
Proof. by destruct j. Qed.

(** *** One row *)

Lemma scan_row_spec i js bhi j2len : ∀ new best,
  Forall (λ j, j < bhi) js →
  scan_row i js 0 bhi j2len new best
  = (foldl (λ m j, <[j := j2len_get j2len j + 1]> m) new js,
     foldl (bump i j2len) best js).
Proof.
  induction js as [|j js IH]; intros new best Hjs; [done|].
  apply Forall_cons in Hjs as [Hj Hjs]. cbn [scan_row foldl].
  rewrite decide_False by lia. rewrite decide_False by lia.
  by rewrite IH.
Qed.

Lemma foldl_insert_lookup (f : nat → nat) js : ∀ (m : gmap nat nat) j,
  foldl (λ m j, <[j := f j]> m) m js !! j
  = if decide (j ∈ js) then Some (f j) else m !! j.
Proof.
  induction js as [|j' js IH]; intros m j; cbn [foldl].
  - by rewrite decide_False by apply not_elem_of_nil.
  - rewrite IH. destruct (decide (j ∈ js)) as [Hin|Hout].
    + rewrite decide_True; [done|by right].
    + destruct (decide (j = j')) as [->|Hne].
      * rewrite decide_True by left. by rewrite lookup_insert_eq.
      * rewrite decide_False; [by rewrite lookup_insert_ne|].
        rewrite elem_of_cons. tauto.
Qed.

Lemma foldl_bump_small i j2len js : ∀ best,
  Forall (λ j, j2len_get j2len j + 1 ≤ best.2) js →
  foldl (bump i j2len) best js = best.
Proof.
  induction js as [|j js IH]; intros best Hjs; [done|].
  apply Forall_cons in Hjs as [Hj Hjs]. simpl.
  unfold bump at 2. rewrite decide_False by lia. by apply IH.
Qed.

Lemma rows_inv_row x i j2len best :
  i < length x → rows_inv x i j2len best →
  ∃ new best',
    scan_row i (row_of x i) 0 (length x) j2len ∅ best = (new, best')
    ∧ rows_inv x (S i) new best'.
Proof.
  intros Hi [Hle Hdiag Hbest Hseen Hend].
  assert (Forall (λ j, j < length x) (row_of x i)) as Hrange.
  { apply Forall_forall. intros j Hj. by apply row_of_elem in Hj as [? _]. }
  rewrite scan_row_spec by done. eexists _, _. split; [done|].
  set (new := foldl (λ m j, <[j := j2len_get j2len j + 1]> m) ∅ (row_of x i)).
  assert (∀ j, j ∈ row_of x i →
            j2len_get j2len j + 1 ≤ run x i
            ∧ j2len_get j2len j + 1 ≤ run x j) as Hk.
  { intros j Hj. pose proof (row_of_elem x i j Hj) as [_ Hrow].
    assert (row_of x i ≠ []) as Hne by (by intros Hnil; rewrite Hnil in Hj;
                                        apply elem_of_nil in Hj).
    rewrite (run_row x i), (run_row x j), Hrow.
    rewrite !decide_False by done.
    destruct (Hle j). lia. }
  assert (∀ j, default 0 (new !! j) ≤ run x i
               ∧ default 0 (new !! j) ≤ run x j) as Hnew.
  { intros j. unfold new. rewrite foldl_insert_lookup. case_decide as Hj.
    - simpl. by apply Hk.
    - rewrite lookup_empty. simpl. lia. }
  destruct (decide (row_of x i = [])) as [Hnil|Hne].
  - assert (run x i = 0) as Hrun.
    { rewrite run_row. by rewrite decide_True. }
    rewrite Hnil. simpl. split; simpl.
    + intros [|j]; simpl; [lia|]. apply Hnew.
    + unfold new. rewrite Hnil. simpl. by rewrite lookup_empty, Hrun.
    + done.
    + intros j Hj. destruct (decide (j = i)) as [->|]; [lia|].
      apply Hseen. lia.
    + lia.
  - destruct (row_of_split x i Hne) as (lo & hi & Hrow & Hlo & Hhi).
    assert (i ∈ row_of x i) as Hin.
    { rewrite Hrow, !elem_of_app, elem_of_cons. tauto. }
    assert (j2len_get j2len i + 1 = run x i) as Hki.
    { rewrite run_row, decide_False by done. rewrite Hdiag. lia. }
    assert (foldl (bump i j2len) best (row_of x i)
            = bump i j2len best i) as Hfold.
    { rewrite Hrow, !foldl_app. simpl.
      rewrite (foldl_bump_small i j2len lo).
      - apply foldl_bump_small. apply Forall_forall. intros j Hj.
        assert (j ∈ row_of x i) as Hjr.
        { rewrite Hrow, !elem_of_app, elem_of_cons. tauto. }
        destruct (Hk j Hjr) as [Hji _].
        unfold bump. case_decide; simpl; lia.
      - apply Forall_forall. intros j Hj.
        assert (j ∈ row_of x i) as Hjr.
        { rewrite Hrow, !elem_of_app. tauto. }
        destruct (Hk j Hjr) as [_ Hjj].
        rewrite Forall_forall in Hlo. specialize (Hseen j (Hlo j Hj)). lia. }
    rewrite Hfold.
    assert (run x i ≤ (bump i j2len best i).2
            ∧ best.2 ≤ (bump i j2len best i).2) as [Hb1 Hb2].
    { unfold bump. case_decide; simpl; lia. }
    split.
    + intros [|j]; simpl; [lia|]. apply Hnew.
    + simpl. unfold new. rewrite foldl_insert_lookup.
      rewrite decide_True by done. simpl. done.
    + unfold bump. case_decide; simpl; [done|done].
    + intros j Hj. destruct (decide (j = i)) as [->|]; [done|].
      specialize (Hseen j). lia.
    + pose proof (run_le x i). unfold bump. case_decide; simpl; lia.
Qed.

Lemma scan_rows_self x m : ∀ i j2len best,
  i + m = length x → rows_inv x i j2len best →
  ∃ d size,
    scan_rows (seq i m) x (chain_b x) 0 (length x) j2len best = (d, d, size)
    ∧ d + size ≤ length x.
Proof.
  induction m as [|m IH]; intros i j2len best Hlen Hinv.
  - destruct best as [[bi bj] bs]. destruct Hinv as [_ _ Hd _ He].
    simpl in *. subst bj. exists bi, bs. split; [done|lia].
  - cbn [seq scan_rows]. fold (row_of x i).
    destruct (rows_inv_row x i j2len best) as (new & best' & -> & Hinv');
      [lia|done|].
    apply IH; [lia|done].
Qed.

(** *** The loops that extend the match *)

Lemma same_at_self x i : i < length x → same_at x x i i.
Proof.
  intros Hi. unfold same_at.
  destruct (lookup_lt_is_Some_2 x i Hi) as [y ->]. done.
Qed.

Lemma extend_left_self x steps : ∀ d size,
  d ≤ steps → d + size ≤ length x →
  extend_left false steps x x 0 0 (d, d, size) = (0, 0, size + d).
Proof.
  induction steps as [|steps IH]; intros d size Hd Hlen.
  - assert (d = 0) as -> by lia. simpl. f_equal. lia.
  - cbn [extend_left]. destruct (decide (d = 0)) as [->|Hpos].
    + rewrite decide_False by lia. f_equal. lia.
    + rewrite decide_True.
      * rewrite IH by lia. f_equal. lia.
      * split; [lia|]. split; [lia|]. split.
        -- by destruct (x !! (d - 1)).
        -- apply same_at_self. lia.
Qed.

Lemma extend_right_self x steps : ∀ size,
  size ≤ length x → length x - size ≤ steps →
  extend_right false steps x x (length x) (length x) (0, 0, size)
  = (0, 0, length x).
Proof.
  induction steps as [|steps IH]; intros size Hsize Hsteps.
  - simpl. f_equal. lia.
  - cbn [extend_right]. destruct (decide (size = length x)) as [->|Hlt].
    + by rewrite decide_False by lia.
    + rewrite decide_True.
      * apply IH; lia.
      * split; [lia|]. split; [lia|]. split.
        -- by destruct (x !! (0 + size)).
        -- apply same_at_self. lia.
Qed.

Lemma extend_left_junk (a b : list A) steps alo blo best :
  extend_left true steps a b alo blo best = best.
Proof.
  destruct steps as [|steps]; [done|]. cbn [extend_left].
  destruct best as [[bi bj] bs]. rewrite decide_False; [done|].
  intros (_ & _ & Hjunk & _). by destruct (b !! (bj - 1)).
Qed.

Lemma extend_right_junk (a b : list A) steps ahi bhi best :
  extend_right true steps a b ahi bhi best = best.
Proof.
  destruct steps as [|steps]; [done|]. cbn [extend_right].
  destruct best as [[bi bj] bs]. rewrite decide_False; [done|].
  intros (_ & _ & Hjunk & _). by destruct (b !! (bj + bs)).
Qed.

Lemma rows_inv_start x : rows_inv x 0 ∅ (0, 0, 0).
Proof.
  split; simpl; try done.
  - intros [|j]; simpl; [lia|]. rewrite lookup_empty. simpl. lia.
  - intros; lia.
Qed.

(** The longest match of a sequence with itself is the whole of it. *)
Lemma find_longest_match_self x :
  find_longest_match x x (chain_b x) 0 (length x) 0 (length x)
  = (0, 0, length x).
Proof.
  unfold find_longest_match. rewrite Nat.sub_0_r.
  destruct (scan_rows_self x (length x) 0 ∅ (0, 0, 0) eq_refl
              (rows_inv_start x)) as (d & size & -> & Hend).
  cbn [fst snd]. rewrite extend_left_self by lia.
  rewrite extend_right_self by lia.
  by rewrite extend_left_junk, extend_right_junk.
Qed.

Lemma get_matching_blocks_self x :
  get_matching_blocks x x
  = Ok (if decide (length x = 0) then [(0, 0, 0)]
        else [(0, 0, length x); (length x, length x, 0)]).
Proof.
  unfold get_matching_blocks.
  replace (2 * length x + 1) with (S (2 * length x)) by lia.
  cbn [match_queue]. rewrite find_longest_match_self.
  destruct (decide (length x = 0)) as [Hz|Hnz].
  - rewrite Hz. by destruct (2 * 0).
  - rewrite decide_False by lia. rewrite decide_False by lia.
    destruct (2 * length x); simpl.
    + unfold collapse. simpl. by rewrite decide_False.
    + unfold collapse. simpl. by rewrite decide_False.
Qed.

(** The ratio of a sequence with itself is one. *)
Lemma ratio_self x : ∃ q, ratio x x = Ok q ∧ (q == 1)%Q.
Proof.
  unfold ratio. rewrite get_matching_blocks_self.
  destruct (decide (length x = 0)) as [Hz|Hnz].
  - exists 1%Q. rewrite Hz. done.
  - eexists. split; [done|]. simpl. rewrite Nat.add_0_r.
    unfold _calculate_ratio. rewrite decide_False by lia.
    rewrite Nat2Z.inj_add, inject_Z_plus.
    assert (¬ (inject_Z (Z.of_nat (length x)) == 0)%Q) as Hpos.
    { unfold Qeq. simpl. lia. }
    field. intros Hsum. apply Hpos.
    unfold Qeq in *. simpl in *. lia.
Qed.

End matcher.

End DifflibFacts.

(** ** The wave scheduler *)

Module DocGeneratorFacts.
Import DocGenerator.

Implicit Types (t : DocumentTemplate) (g : gset string).
Implicit Types (r cw templates : list DocumentTemplate).
Implicit Types (waves acc : list (list DocumentTemplate)).

Lemma place_wave_spec cw : ∀ r g,
  cw ⊆+ r →
  ∃ r', place_wave cw r g = Some (r', list_to_set (doc_type <$> cw) ∪ g)
        ∧ r ≡ₚ cw ++ r'.
Proof.
  induction cw as [|t cw IH]; intros r g Hsub; simpl.
  - exists r. split; [|done]. f_equal. f_equal. set_solver.
  - apply submseteq_cons_l in Hsub as (k & Hk & Hsub).
    assert (t ∈ r) as Hin by (rewrite Hk; left).
    destruct (list_remove_elem t r Hin) as [r1 Hr1]. rewrite Hr1.
    pose proof (list_remove_Some_perm _ _ _ Hr1) as Hp.
    assert (k ≡ₚ r1) as Hkr.
    { apply (Permutation_cons_inv (a:=t)). by rewrite <- Hk, <- Hp. }
    destruct (IH r1 ({[doc_type t]} ∪ g)) as (r' & -> & Hr'); [by rewrite <- Hkr|].
    exists r'. split.
    + f_equal. f_equal. set_solver.
    + rewrite Hp. by constructor.
Qed.

Lemma select_wave_submseteq r g : select_wave r g ⊆+ r.
Proof.
  unfold select_wave.
  pose proof (sublist_submseteq _ _ (sublist_filter (deps_satisfied g) r)).
  by destruct (filter _ r).
Qed.

Lemma select_wave_nonempty r g : r ≠ [] → select_wave r g ≠ [].
Proof. unfold select_wave. by destruct (filter _ r). Qed.

Lemma select_wave_stalled r g :
  filter (deps_satisfied g) r = [] → select_wave r g = r.
Proof. unfold select_wave. by intros ->. Qed.

Lemma select_wave_selectable r g :
  filter (deps_satisfied g) r ≠ [] →
  select_wave r g = filter (deps_satisfied g) r.
Proof. unfold select_wave. by destruct (filter _ r). Qed.

(** One iteration of the [while] loop on a non-empty [remaining]. *)
Lemma build_loop_step fuel acc r g :
  r ≠ [] →
  ∃ r', r ≡ₚ select_wave r g ++ r' ∧
    build_loop (S fuel) acc r g =
    build_loop fuel (acc ++ [select_wave r g]) r'
      (list_to_set (doc_type <$> select_wave r g) ∪ g).
Proof.
  intros Hne.
  destruct (place_wave_spec (select_wave r g) r g (select_wave_submseteq r g))
    as (r' & Hpw & Hperm).
  exists r'. split; [done|].
  destruct r; [done|]. cbn [build_loop]. by rewrite Hpw.
Qed.

Lemma build_loop_total fuel : ∀ acc r g,
  length r ≤ fuel →
  ∃ new, build_loop fuel acc r g = Ok (acc ++ new)
         ∧ length new ≤ length r
         ∧ concat new ≡ₚ r
         ∧ Forall (λ w, w ≠ []) new.
Proof.
  induction fuel as [|fuel IH]; intros acc r g Hlen.
  { destruct r; [|simpl in Hlen; lia].
    exists []. simpl. rewrite app_nil_r. by repeat split. }
  destruct (decide (r = [])) as [->|Hne].
  { exists []. simpl. rewrite app_nil_r. by repeat split. }
  destruct (build_loop_step fuel acc r g Hne) as (r' & Hperm & ->).
  pose proof (select_wave_nonempty r g Hne) as Hcw.
  assert (length r = length (select_wave r g) + length r') as Hl.
  { rewrite <- length_app. by apply Permutation_length. }
  assert (length (select_wave r g) ≠ 0)%nat as Hcwl.
  { by destruct (select_wave r g). }
  destruct (IH (acc ++ [select_wave r g]) r'
              (list_to_set (doc_type <$> select_wave r g) ∪ g))
    as (new & -> & Hn & Hc & Hf); [lia|].
  exists (select_wave r g :: new). repeat split.
  - by rewrite <- app_assoc.
  - simpl. lia.
  - simpl. by rewrite Hc.
  - by constructor.
Qed.

Lemma build_loop_fuel_mono fuel : ∀ fuel' acc r g waves,
  build_loop fuel acc r g = Ok waves → fuel ≤ fuel' →
  build_loop fuel' acc r g = Ok waves.
Proof.
  induction fuel as [|fuel IH]; intros fuel' acc r g waves Hrun Hle.
  - destruct r; [|done]. by destruct fuel'.
  - destruct r as [|t r]; [by destruct fuel'|].
    destruct fuel' as [|fuel']; [lia|].
    cbn [build_loop] in *.
    destruct (place_wave _ _ _) as [[r' g']|]; [|done].
    apply IH; [done | lia].
Qed.

Lemma elem_of_concat_lookup {A} (x : A) (ls : list (list A)) :
  x ∈ concat ls → ∃ j l, ls !! j = Some l ∧ x ∈ l.
Proof.
  rewrite list_elem_of_In, in_concat. intros (l & Hl & Hx).
  apply list_elem_of_In, list_elem_of_lookup in Hl as [j Hj].
  exists j, l. by rewrite list_elem_of_In.
Qed.

(** With no cycle and no dependency outside the set, an iteration on a
    non-empty [remaining] always finds a selectable template. *)
Lemma acyclic_selectable templates placed r g :
  acyclic templates → deps_closed templates →
  templates ≡ₚ placed ++ r →
  g = list_to_set (doc_type <$> placed) →
  r ≠ [] →
  filter (deps_satisfied g) r ≠ [].
Proof.
  intros Hacyc Hclosed Hsplit -> Hne Hnil.
  destruct (successors_cycle (length r) (dep_edge templates) (doc_type <$> r))
    as [d Hd].
  - by rewrite length_fmap.
  - by destruct r.
  - intros d (t & -> & Ht)%list_elem_of_fmap.
    assert (¬ deps_satisfied (list_to_set (doc_type <$> placed)) t) as Hns.
    { intros Hs. by eapply filter_nil_not_elem_of. }
    unfold deps_satisfied in Hns.
    apply not_Forall_Exists in Hns; [|apply _].
    apply Exists_exists in Hns as (dep & Hdep & Hnotgen).
    assert (t ∈ templates) as Htt.
    { rewrite Hsplit, elem_of_app. by right. }
    destruct (Hclosed t dep Htt Hdep) as (t' & Ht' & Hty).
    exists dep. split.
    + rewrite Hsplit, elem_of_app in Ht'. destruct Ht' as [Hp|Hr].
      * exfalso. apply Hnotgen. rewrite elem_of_list_to_set, <- Hty.
        by apply list_elem_of_fmap_2.
      * rewrite <- Hty. by apply list_elem_of_fmap_2.
    + by exists t.
  - by apply (Hacyc d).
Qed.

Lemma waves_respect_deps_snoc acc cw :
  waves_respect_deps acc →
  (∀ t d, t ∈ cw → d ∈ dependencies t → d ∈ doc_type <$> concat acc) →
  waves_respect_deps (acc ++ [cw]).
Proof.
  intros Hacc Hcw i w t d Hi Ht Hd.
  destruct (decide (i < length acc)) as [Hlt|Hge].
  - rewrite lookup_app_l in Hi by done.
    destruct (Hacc i w t d Hi Ht Hd) as (j & w' & t' & Hj & Hw' & Ht' & Hty).
    exists j, w', t'. repeat split; try done.
    rewrite lookup_app_l; [done|lia].
  - rewrite lookup_app_r in Hi by lia.
    destruct (i - length acc) as [|k] eqn:Hk; [|by destruct k].
    simpl in Hi. injection Hi as <-.
    pose proof (Hcw t d Ht Hd) as Hdin.
    apply list_elem_of_fmap in Hdin as (t' & Hty & Ht').
    destruct (elem_of_concat_lookup _ _ Ht') as (j & w' & Hj & Hin).
    exists j, w', t'. repeat split; try done.
    + apply lookup_lt_Some in Hj. lia.
    + apply lookup_app_l_Some. done.
Qed.

Lemma build_loop_respects templates fuel : ∀ acc r g waves,
  acyclic templates → deps_closed templates →
  loop_inv templates acc r g →
  build_loop fuel acc r g = Ok waves →
  waves_respect_deps waves.
Proof.
  induction fuel as [|fuel IH]; intros acc r g waves Hacyc Hclosed Hinv Hrun.
  { destruct r; [|done]. injection Hrun as <-. apply Hinv. }
  destruct (decide (r = [])) as [->|Hne].
  { injection Hrun as <-. apply Hinv. }
  destruct (build_loop_step fuel acc r g Hne) as (r' & Hperm & Hstep).
  rewrite Hstep in Hrun. clear Hstep.
  destruct Hinv as [Hsplit Hgen Hresp].
  pose proof (acyclic_selectable templates (concat acc) r g
                Hacyc Hclosed Hsplit Hgen Hne) as Hsel.
  rewrite (select_wave_selectable r g Hsel) in *.
  eapply IH; [done|done| |exact Hrun].
  split.
  - rewrite concat_app. simpl. rewrite app_nil_r, <- app_assoc.
    by rewrite <- Hperm.
  - rewrite concat_app, fmap_app. simpl. rewrite app_nil_r.
    rewrite list_to_set_app_L, Hgen. set_solver.
  - apply waves_respect_deps_snoc; [done|].
    intros t d [Hsat _]%list_elem_of_filter Hd.
    unfold deps_satisfied in Hsat. rewrite Forall_forall in Hsat.
    specialize (Hsat d Hd). by rewrite Hgen, elem_of_list_to_set in Hsat.
Qed.

Lemma ranked_acyclic rank templates : ranked rank templates → acyclic templates.
Proof.
  intros Hrank.
  assert (∀ d d', tc (dep_edge templates) d d' → rank d' < rank d) as Hlt.
  { induction 1 as [d d' He|d d' d'' He _ IH].
    - destruct He as (t & Ht & <- & Hd).
      unfold ranked in Hrank. rewrite Forall_forall in Hrank.
      specialize (Hrank t Ht). rewrite Forall_forall in Hrank. by apply Hrank.
    - destruct He as (t & Ht & <- & Hd).
      unfold ranked in Hrank. rewrite Forall_forall in Hrank.
      specialize (Hrank t Ht). rewrite Forall_forall in Hrank.
      specialize (Hrank d' Hd). lia. }
  intros d Hd. specialize (Hlt d d Hd). lia.
Qed.

Ltac solve_ranked :=
  unfold ranked;
  repeat first [apply Forall_nil | apply Forall_cons; split];
  vm_compute; lia.

Lemma deps_closed_sample : deps_closed [APIDoc; PRD; TechnicalSpec].
Proof.
  intros t d Ht Hd. rewrite !elem_of_cons, elem_of_nil in Ht.
  destruct Ht as [->|[->|[->|[]]]]; simpl in Hd;
    rewrite ?elem_of_cons, ?elem_of_nil in Hd.
  - destruct Hd as [->|[]]. exists TechnicalSpec. split; [|done].
    rewrite !elem_of_cons. tauto.
  - destruct Hd.
  - destruct Hd as [->|[]]. exists PRD. split; [|done].
    rewrite !elem_of_cons. tauto.
Qed.

(** C3, as amended: for a template set with no dependency cycle in which
    every dependency names the [doc_type] of a template of the set, the
    scheduler returns waves that hold every input template exactly once,
    and every dependency of a template of wave [i] is the [doc_type] of a
    template of one of the waves [0..i-1]. *)
Theorem build_dependency_graph_respects_deps templates :
  acyclic templates → deps_closed templates →
  ∃ waves,
    _build_dependency_graph (length templates) templates = Ok waves
    ∧ concat waves ≡ₚ templates
    ∧ waves_respect_deps waves.
Proof.
  intros Hacyc Hclosed.
  destruct (build_loop_total (length templates) [] templates ∅ (le_n _))
    as (waves & Hrun & _ & Hperm & _).
  exists waves. split; [done|]. split; [done|].
  eapply (build_loop_respects templates); [done|done| |exact Hrun].
  split; simpl; [done|set_solver|].
  intros i w t d Hi. done.
Qed.

Lemma build_dependency_graph_respects_deps_witness :
  acyclic [APIDoc; PRD; TechnicalSpec]
  ∧ deps_closed [APIDoc; PRD; TechnicalSpec]
  ∧ ∃ waves,
      _build_dependency_graph 3 [APIDoc; PRD; TechnicalSpec] = Ok waves
      ∧ concat waves ≡ₚ [APIDoc; PRD; TechnicalSpec]
      ∧ waves_respect_deps waves.
Proof.
  assert (acyclic [APIDoc; PRD; TechnicalSpec]) as Hacyc.
  { apply (ranked_acyclic sample_rank). solve_ranked. }
  split; [exact Hacyc|]. split; [exact deps_closed_sample|].
  exact (build_dependency_graph_respects_deps
           [APIDoc; PRD; TechnicalSpec] Hacyc deps_closed_sample).
Defined.

(** C3 as stated fails: requesting [PRD] and [APIDoc] without
    [TechnicalSpec] gives a set with no cycle whose second wave holds
    [APIDoc], although no template of the first wave has the type
    [TechnicalSpec] it depends on. *)
Lemma build_dependency_graph_missing_dependency :
  acyclic [PRD; APIDoc]
  ∧ _build_dependency_graph 2 [PRD; APIDoc] = Ok [[PRD]; [APIDoc]]
  ∧ ¬ later_waves_respect_deps [[PRD]; [APIDoc]].
Proof.
  split; [|split].
  - apply (ranked_acyclic
             (λ d, if decide (d = "TechnicalSpec") then 0 else 1)).
    solve_ranked.
  - by vm_compute.
  - intros H.
    destruct (H 1 [APIDoc] APIDoc "TechnicalSpec")
      as (j & w' & t' & Hj & Hw' & Ht' & Hty); [lia|done|left|left|].
    destruct j as [|j]; [|lia]. injection Hw' as <-.
    apply list_elem_of_singleton in Ht' as ->. done.
Qed.

(** C4: on every input the loop ends within [length templates]
    iterations, one wave per iteration, and the waves hold every input
    template exactly once; an iteration that finds no selectable template
    emits all of [remaining] as the last wave; no template gives no wave. *)
Theorem build_dependency_graph_terminates :
  (∀ templates, ∃ waves,
      _build_dependency_graph (length templates) templates = Ok waves
      ∧ length waves ≤ length templates
      ∧ concat waves ≡ₚ templates)
  ∧ (∀ fuel acc r g,
      r ≠ [] → filter (deps_satisfied g) r = [] →
      build_loop (S fuel) acc r g = Ok (acc ++ [r]))
  ∧ (∀ fuel, _build_dependency_graph fuel [] = Ok []).
Proof.
  split; [|split].
  - intros templates.
    destruct (build_loop_total (length templates) [] templates ∅ (le_n _))
      as (waves & Hrun & Hlen & Hperm & _).
    by exists waves.
  - intros fuel acc r g Hne Hstall.
    destruct (build_loop_step fuel acc r g Hne) as (r' & Hperm & ->).
    rewrite (select_wave_stalled r g Hstall) in *.
    assert (r' = []) as ->.
    { apply Permutation_length in Hperm. rewrite length_app in Hperm.
      destruct r'; [done|simpl in Hperm; lia]. }
    by destruct fuel.
  - by intros [|fuel].
Qed.

(** A set with a cycle: the first iteration stalls and emits both. *)
Lemma build_dependency_graph_terminates_witness :
  (∃ waves,
     _build_dependency_graph 2
       [mkTemplate "A" "" "" ["B"] 1; mkTemplate "B" "" "" ["A"] 1] = Ok waves
     ∧ length waves ≤ 2
     ∧ concat waves
       ≡ₚ [mkTemplate "A" "" "" ["B"] 1; mkTemplate "B" "" "" ["A"] 1])
  ∧ build_loop 1 []
      [mkTemplate "A" "" "" ["B"] 1; mkTemplate "B" "" "" ["A"] 1] ∅
    = Ok [[mkTemplate "A" "" "" ["B"] 1; mkTemplate "B" "" "" ["A"] 1]].
Proof.
  destruct build_dependency_graph_terminates as (Htotal & Hstall & _).
  split.
  - apply (Htotal [mkTemplate "A" "" "" ["B"] 1; mkTemplate "B" "" "" ["A"] 1]).
  - apply (Hstall 0 []); [done|by vm_compute].
Defined.

Example waves_of_a_chain :
  _build_dependency_graph 3 [PRD; TechnicalSpec; APIDoc]
  = Ok [[PRD]; [TechnicalSpec]; [APIDoc]].
Proof. by vm_compute. Qed.

Example waves_of_independent_templates :
  _build_dependency_graph 2
    [mkTemplate "A" "" "" [] 1; mkTemplate "B" "" "" [] 1]
  = Ok [[mkTemplate "A" "" "" [] 1; mkTemplate "B" "" "" [] 1]].
Proof. by vm_compute. Qed.

(** *** Progress of a generation *)

(** The progress of a chunk message is the plain quotient. *)
Lemma content_chunk_message_progress document_id chunk full_content template :
  estimated_tokens template ≠ 0%Z →
  ∃ message,
    content_chunk_message document_id chunk full_content template = Ok message
    ∧ progress_of message
      = Some (inject_Z (Z.of_nat (String.length full_content))
              / inject_Z (estimated_tokens template))%Q.
Proof.
  intros Hne. unfold content_chunk_message.
  rewrite decide_False by done. eauto.
Qed.

(** C5 fails on the code: the architecture template estimates 2000
    characters and its placeholder text has 2159, so that the last chunks
    reach the listener of the document with a progress above 1, 2159/2000
    for the last one, where the minimum with 1.0 would give 1. *)
Theorem chunk_progress_exceeds_one :
  let w' := (_generate_single_document sample_world (mkUUID 9) Architecture
               sample_context architecture_chunks
               (mkUUID 101, mkUUID 2)).1 in
  last (chunk_progress 1%positive (net w')) = Some (2159 # 2000)
  ∧ (1 < 2159 # 2000)%Q
  ∧ ¬ (2159 # 2000 == py_min (2159 # 2000) 1)%Q.
Proof.
  split; [by vm_compute|]. split; [by vm_compute|].
  by vm_compute.
Qed.

End DocGeneratorFacts.
(** ** The connection manager and the event stream *)

Module StreamingFacts.
Import Streaming.

Implicit Types (net : Net) (bucket : gset positive).
Implicit Types (m : gmap string (gset positive)) (message : dict).

Lemma send_json_closed net c message :
  closed (send_json net c message).1 = closed net.
Proof. unfold send_json. by case_decide. Qed.

(** Whatever the other tasks do, the walk sends to the members it has
    reached, which come first among [connections], and when it returns
    it has reached them all. *)
Lemma send_all_sent connections used live message :
  ∀ others mgr net disconnected,
  ∃ tried,
    tried `prefix_of` connections
    ∧ closed (send_all connections used live message others mgr net
                disconnected).1.2 = closed net
    ∧ delivered (send_all connections used live message others mgr net
                   disconnected).1.2
      = delivered net
        ++ ((λ c, (c, message)) <$> filter (λ c, c ∉ closed net) tried)
    ∧ ∀ gone,
        (send_all connections used live message others mgr net
           disconnected).2 = Ok gone →
        tried = connections
        ∧ gone = list_to_set (filter (λ c, c ∈ closed net) connections)
                 ∪ disconnected.
Proof.
  induction connections as [|c l IH]; intros others mgr net disconnected.
  - exists []. simpl. split; [done|]. split; [done|].
    split; [by rewrite app_nil_r|]. intros gone [= <-]. split; [done|].
    set_solver.
  - cbn [send_all]. unfold send_json.
    destruct (decide (c ∈ closed net)) as [Hc|Hc].
    + destruct (decide (live_size (live (during others mgr)) = used)).
      * destruct (IH (tail others) (during others mgr) net
                    ({[c]} ∪ disconnected))
          as (tried & Hpre & Hcl & Hdel & Hok).
        exists (c :: tried). split; [by apply prefix_cons|].
        split; [done|]. split.
        { rewrite Hdel. by rewrite filter_cons_False by tauto. }
        intros gone Hgone. destruct (Hok gone Hgone) as [-> ->].
        split; [done|]. rewrite filter_cons_True by done. set_solver.
      * exists [c]. simpl. split; [apply prefix_cons, prefix_nil|].
        split; [done|]. split; [|done].
        rewrite filter_cons_False by tauto. by rewrite app_nil_r.
    + destruct (decide (live_size (live (during others mgr)) = used)).
      * destruct (IH (tail others) (during others mgr)
                    (mkNet (closed net) (delivered net ++ [(c, message)]))
                    disconnected)
          as (tried & Hpre & Hcl & Hdel & Hok).
        exists (c :: tried). split; [by apply prefix_cons|].
        split; [done|]. split.
        { rewrite Hdel. simpl. rewrite filter_cons_True by done.
          simpl. by rewrite <- app_assoc. }
        intros gone Hgone. destruct (Hok gone Hgone) as [-> ->].
        split; [done|]. simpl. by rewrite filter_cons_False by tauto.
      * exists [c]. simpl. split; [apply prefix_cons, prefix_nil|].
        split; [done|]. split; [|done].
        by rewrite filter_cons_True by done.
Qed.

(** The walk of a broadcast that runs alone. *)
Lemma send_all_alone connections used live message mgr :
  (connections ≠ [] → live_size (live mgr) = used) →
  ∀ net disconnected,
  send_all connections used live message alone mgr net disconnected =
  (mgr,
   mkNet (closed net)
         (delivered net ++
          ((λ c, (c, message)) <$> filter (λ c, c ∉ closed net) connections)),
   Ok (list_to_set (filter (λ c, c ∈ closed net) connections)
       ∪ disconnected)).
Proof.
  intros Hsize.
  induction connections as [|c l IH]; intros net disconnected.
  - simpl. destruct net. rewrite app_nil_r. do 2 f_equal. set_solver.
  - assert (live_size (live mgr) = used) as Hc0 by (by apply Hsize).
    assert (l ≠ [] → live_size (live mgr) = used) as Hl by done.
    cbn [send_all]. unfold send_json, alone. cbn [during tail].
    fold alone. destruct (decide (c ∈ closed net)) as [Hc|Hc].
    + rewrite decide_True by done.
      rewrite (IH Hl). rewrite filter_cons_False by tauto.
      rewrite filter_cons_True by done. do 2 f_equal. set_solver.
    + rewrite decide_True by done.
      rewrite (IH Hl). simpl. rewrite filter_cons_True by done.
      rewrite filter_cons_False by done. simpl. by rewrite <- app_assoc.
Qed.

Lemma discard_all_spec (disconnected : list WebSocket) : ∀ bucket,
  discard_all bucket disconnected = bucket ∖ list_to_set disconnected.
Proof.
  unfold discard_all.
  induction disconnected as [|c l IH]; intros bucket; simpl.
  - set_solver.
  - rewrite IH. set_solver.
Qed.

Section broadcast_to.
Variable get : ConnectionManager → gmap string (gset positive).
Variable put : gmap string (gset positive) → ConnectionManager
               → ConnectionManager.
Hypothesis put_get : ∀ mgr, put (get mgr) mgr = mgr.

Lemma broadcast_to_absent mgr key message net others :
  get mgr !! key = None →
  broadcast_to get put mgr key message net others = (mgr, net, Ok ()).
Proof. unfold broadcast_to. by intros ->. Qed.

Lemma broadcast_to_alone mgr key message net bucket :
  get mgr !! key = Some bucket →
  broadcast_to get put mgr key message net alone =
  (put (<[key := bucket ∖ closed net]> (get mgr)) mgr,
   mkNet (closed net)
         (delivered net ++
          ((λ c, (c, message)) <$>
             filter (λ c, c ∉ closed net) (elements bucket))),
   Ok ()).
Proof.
  intros Hk. unfold broadcast_to. rewrite Hk.
  rewrite send_all_alone by (by rewrite Hk).
  set (gone := list_to_set _ ∪ ∅).
  assert (bucket ∖ gone = bucket ∖ closed net) as Hgone.
  { unfold gone. apply set_eq. intros c.
    rewrite !elem_of_difference, elem_of_union, elem_of_list_to_set,
      list_elem_of_filter, elem_of_elements.
    set_solver. }
  rewrite Hk. destruct (elements gone) as [|c l] eqn:Hel.
  - apply elements_empty_inv in Hel. apply leibniz_equiv in Hel.
    rewrite Hel in Hgone. rewrite <- Hgone.
    assert (bucket ∖ ∅ = bucket) as -> by set_solver.
    rewrite insert_id by done. by rewrite put_get.
  - rewrite discard_all_spec.
    assert (list_to_set (c :: l) = gone) as ->.
    { rewrite <- Hel. apply set_eq. intros c'.
      by rewrite elem_of_list_to_set, elem_of_elements. }
    by rewrite Hgone.
Qed.

(** Whatever the other tasks do, a broadcast sends to members of the set
    it found under the key, once each at most, and to nobody else. *)
Lemma broadcast_to_sent mgr key message net others :
  ∃ tried,
    NoDup tried
    ∧ (∀ c, c ∈ tried → c ∈ default ∅ (get mgr !! key))
    ∧ closed (broadcast_to get put mgr key message net others).1.2
      = closed net
    ∧ delivered (broadcast_to get put mgr key message net others).1.2
      = delivered net
        ++ ((λ c, (c, message)) <$> filter (λ c, c ∉ closed net) tried)
    ∧ ((broadcast_to get put mgr key message net others).2 = Ok () →
       ∀ c, c ∈ default ∅ (get mgr !! key) → c ∈ tried).
Proof using Type.
  clear put_get. unfold broadcast_to. destruct (get mgr !! key) as [bucket|] eqn:Hk.
  - destruct (send_all_sent (elements bucket) (size bucket)
                (λ mgr, get mgr !! key) message others mgr net ∅)
      as (tried & Hpre & Hcl & Hdel & Hok).
    assert (NoDup tried ∧ ∀ c, c ∈ tried → c ∈ bucket) as [Hnd Hin].
    { destruct Hpre as [k Hk']. split.
      - assert (NoDup (tried ++ k)) as Hnd
          by (rewrite <- Hk'; apply NoDup_elements).
        by apply NoDup_app in Hnd as [? _].
      - intros c Hc. assert (c ∈ tried ++ k) as Hc'
          by (apply elem_of_app; by left).
        rewrite <- Hk' in Hc'. by apply elem_of_elements in Hc'. }
    destruct (send_all _ _ _ _ _ _ _ _) as [[mgr' net'] [gone|e|]];
      simpl in *.
    + destruct (Hok gone eq_refl) as [-> _].
      exists (elements bucket). split; [apply NoDup_elements|].
      split; [intros c; by rewrite elem_of_elements|].
      destruct (elements gone), (get mgr' !! key); simpl;
        (split; [done|]); (split; [done|]);
        intros _ c; by rewrite elem_of_elements.
    + exists tried. by repeat split.
    + exists tried. by repeat split.
  - exists []. simpl. split; [constructor|]. split; [set_solver|].
    split; [done|]. split; [by rewrite app_nil_r|]. set_solver.
Qed.

End broadcast_to.

Lemma put_project_get mgr :
  put_project_connections (project_connections mgr) mgr = mgr.
Proof. by destruct mgr. Qed.

Lemma put_document_get mgr :
  put_document_connections (document_connections mgr) mgr = mgr.
Proof. by destruct mgr. Qed.

(** A broadcast that runs alone leaves the manager and the peers as they
    were when nobody listens under the key; otherwise it removes from the
    set under the key exactly the subscribers whose send fails, leaves
    every other set alone, and delivers the message once to every other
    member of the set. *)
Lemma broadcast_alone_isolates_failures mgr key message net :
  (default ∅ (project_connections mgr !! key) = ∅ →
     broadcast_to_project mgr key message net alone = (mgr, net, Ok ()))
  ∧ (default ∅ (document_connections mgr !! key) = ∅ →
     broadcast_to_document mgr key message net alone = (mgr, net, Ok ()))
  ∧ (∀ bucket, project_connections mgr !! key = Some bucket →
     let '(mgr', net', result) :=
       broadcast_to_project mgr key message net alone in
     result = Ok ()
     ∧ dropped_only_failed (project_connections mgr) (project_connections mgr')
                           key bucket net
     ∧ document_connections mgr' = document_connections mgr
     ∧ global_connections mgr' = global_connections mgr
     ∧ delivered_to_open bucket message net net')
  ∧ (∀ bucket, document_connections mgr !! key = Some bucket →
     let '(mgr', net', result) :=
       broadcast_to_document mgr key message net alone in
     result = Ok ()
     ∧ dropped_only_failed (document_connections mgr)
                           (document_connections mgr') key bucket net
     ∧ project_connections mgr' = project_connections mgr
     ∧ global_connections mgr' = global_connections mgr
     ∧ delivered_to_open bucket message net net').
Proof.
  assert (∀ bucket,
            delivered_to_open bucket message net
              (mkNet (closed net)
                 (delivered net ++
                  ((λ c, (c, message)) <$>
                     filter (λ c, c ∉ closed net) (elements bucket)))))
    as Hopen.
  { intros bucket. split; [done|]. eexists. split; [done|]. split.
    - apply NoDup_fmap_2; [by intros ?? [=]|].
      apply NoDup_filter, NoDup_elements.
    - intros c msg. rewrite list_elem_of_fmap. split.
      + intros (c' & [= -> ->] & Hin).
        apply list_elem_of_filter in Hin as [Ho Hin].
        by apply elem_of_elements in Hin.
      + intros (Hin & Ho & ->). exists c. split; [done|].
        apply list_elem_of_filter. split; [done|]. by apply elem_of_elements. }
  assert (∀ get put, (∀ mgr, put (get mgr) mgr = mgr) →
            default ∅ (get mgr !! key) = ∅ →
            broadcast_to get put mgr key message net alone
            = (mgr, net, Ok ())) as Hempty.
  { intros get put Hpg He.
    destruct (get mgr !! key) as [bucket|] eqn:Hk; simpl in He.
    - rewrite (broadcast_to_alone get put Hpg _ _ _ _ _ Hk). subst bucket.
      rewrite elements_empty, filter_nil. simpl. rewrite app_nil_r.
      assert ((∅ : gset positive) ∖ closed net = ∅) as -> by set_solver.
      rewrite insert_id by done. rewrite Hpg. by destruct net.
    - by apply broadcast_to_absent. }
  split; [apply Hempty, put_project_get|].
  split; [apply Hempty, put_document_get|]. split.
  - intros bucket Hk. unfold broadcast_to_project.
    rewrite (broadcast_to_alone _ _ put_project_get _ _ _ _ _ Hk). simpl.
    split; [done|]. split; [|by auto]. split.
    + by rewrite lookup_insert_eq.
    + intros k Hne. by rewrite lookup_insert_ne.
  - intros bucket Hk. unfold broadcast_to_document.
    rewrite (broadcast_to_alone _ _ put_document_get _ _ _ _ _ Hk). simpl.
    split; [done|]. split; [|by auto]. split.
    + by rewrite lookup_insert_eq.
    + intros k Hne. by rewrite lookup_insert_ne.
Qed.

(** C8 fails on the code: the loop walks the set of subscribers itself
    and awaits each send, so that a call on the manager by another task
    during a send ends the broadcast. Here three websockets listen on a
    project, the send to the third fails, and a fourth connects to the
    project while the first send of the broadcast is awaited: the
    broadcast raises [RuntimeError], one of the two websockets that are
    open gets no message, and the one whose send fails stays in the set. *)
Theorem broadcast_aborted_by_concurrent_connect :
  let mgr :=
    connect (connect (connect manager_init 1%positive "project" (Some "p"))
                     2%positive "project" (Some "p"))
            3%positive "project" (Some "p") in
  let net := mkNet {[3%positive]} [] in
  let message := [("event", JStr "node_created")] in
  let others := [Some (Connect 4%positive "project" (Some "p"))] in
  let '(mgr', net', result) :=
    broadcast_to_project mgr "p" message net others in
  project_connections mgr !! "p"
  = Some {[1%positive; 2%positive; 3%positive]}
  ∧ result = Raise (RuntimeError "Set changed size during iteration")
  ∧ (∃ c, c ∈ ({[1%positive; 2%positive]} : gset positive)
          ∧ ∀ msg, (c, msg) ∉ delivered net')
  ∧ ∃ bucket', project_connections mgr' !! "p" = Some bucket'
               ∧ 3%positive ∈ bucket'.
Proof.
  cbv zeta.
  destruct (broadcast_to_project _ "p" _ _ _) as [[mgr' net'] result] eqn:Hrun.
  vm_compute in Hrun. injection Hrun as <- <- <-.
  split; [by vm_compute|]. split; [done|]. split.
  - exists 2%positive. split; [set_solver|]. intros msg Hin.
    by apply elem_of_nil in Hin.
  - eexists. split; [by vm_compute|]. set_solver.
Qed.

(** *** Events *)

Lemma stream_chunks_shape document_id clock g : ∀ k total_chars,
  ∃ chunks terminal,
    stream_chunks document_id clock k total_chars g = chunks ++ [terminal]
    ∧ length chunks = length (chunks_of g)
    ∧ Forall (λ f, sse_event f = "content_chunk") chunks
    ∧ match failure_of g with
      | None =>
          sse_event terminal = "complete"
          ∧ dict_get "progress" (sse_data terminal) = Some (JNum 1)
      | Some msg =>
          sse_event terminal = "error"
          ∧ dict_get "metadata" (sse_data terminal)
            = Some (JDict [("error", JStr msg)])
      end.
Proof.
  induction g as [chunk rest IH| |msg]; intros k total_chars.
  - destruct (IH (S k) (total_chars + Z.of_nat (String.length chunk))%Z)
      as (chunks & terminal & Heq & Hlen & Hall & Hterm).
    eexists (_ :: chunks), terminal. cbn [stream_chunks].
    rewrite Heq. repeat split; try done.
    + simpl. by rewrite Hlen.
    + constructor; [done|done].
  - eexists [], _. repeat split; reflexivity || constructor.
  - eexists [], _. repeat split; reflexivity || constructor.
Qed.

(** C7: the stream of one generation is a [start] event with progress 0,
    then one [content_chunk] event per chunk the generator yields, then
    one last event and nothing after it: [complete] with progress 1 when
    the generator is exhausted, [error] with the failure message under
    [metadata.error] when it raises. *)
Theorem document_stream_shape document_id clock g :
  ∃ start chunks terminal,
    document_stream_generator document_id clock g
      = start :: chunks ++ [terminal]
    ∧ sse_event start = "start"
    ∧ dict_get "progress" (sse_data start) = Some (JNum 0)
    ∧ length chunks = length (chunks_of g)
    ∧ Forall (λ f, sse_event f = "content_chunk") chunks
    ∧ match failure_of g with
      | None =>
          sse_event terminal = "complete"
          ∧ dict_get "progress" (sse_data terminal) = Some (JNum 1)
      | Some msg =>
          sse_event terminal = "error"
          ∧ dict_get "metadata" (sse_data terminal)
            = Some (JDict [("error", JStr msg)])
      end.
Proof.
  destruct (stream_chunks_shape document_id clock g 1 0)
    as (chunks & terminal & Heq & Hrest).
  eexists _, chunks, terminal. unfold document_stream_generator.
  rewrite Heq. split; [reflexivity|]. split; [reflexivity|].
  split; [reflexivity|]. exact Hrest.
Qed.

Lemma dict_get_set_eq k v (d : dict) : dict_get k (dict_set k v d) = Some v.
Proof.
  induction d as [|[k' v'] d IH]; simpl.
  - by rewrite decide_True.
  - destruct (decide (k = k')) as [->|Hne]; simpl.
    + by rewrite decide_True.
    + by rewrite decide_False.
Qed.

Lemma dict_get_set_ne k k' v (d : dict) :
  k ≠ k' → dict_get k (dict_set k' v d) = dict_get k d.
Proof.
  intros Hne. induction d as [|[k'' v''] d IH]; simpl.
  - by rewrite decide_False.
  - destruct (decide (k' = k'')) as [->|Hne']; simpl.
    + by rewrite !decide_False.
    + by rewrite IH.
Qed.

(** C10: the data of a document stream event, [content_chunk] events
    included, always has [document_id] and [progress]; it has the key
    [content_chunk] exactly when the chunk is a non-empty string, so an
    empty chunk leaves no such key. *)
Theorem content_chunk_key_iff_nonempty
    document_id event_type content_chunk progress metadata now :
  let e := DocumentStreamEvent document_id event_type content_chunk
             progress metadata now in
  dict_get "document_id" (data e) = Some (JStr (uuid_str document_id))
  ∧ dict_get "progress" (data e) = Some (JNum progress)
  ∧ (content_chunk = Some "" → dict_get "content_chunk" (data e) = None)
  ∧ (is_Some (dict_get "content_chunk" (data e))
     ↔ ∃ c, content_chunk = Some c ∧ c ≠ "")
  ∧ (∀ c, content_chunk = Some c → c ≠ "" →
       dict_get "content_chunk" (data e) = Some (JStr c)).
Proof.
  unfold DocumentStreamEvent. cbn [data].
  set (d0 := [("document_id", JStr (uuid_str document_id));
              ("progress", JNum progress)]).
  assert (∀ d1 k, k ≠ "metadata" →
            dict_get k (match truthy_dict metadata with
                        | Some m => dict_set "metadata" (JDict m) d1
                        | None => d1
                        end) = dict_get k d1) as Hmeta.
  { intros d1 k Hk. destruct (truthy_dict metadata); [|done].
    by apply dict_get_set_ne. }
  rewrite !Hmeta by done.
  destruct content_chunk as [c|]; simpl.
  - destruct (decide (c = "")) as [->|Hc].
    + split; [done|]. split; [done|]. split; [done|]. split.
      * split; [intros [? [=]] | by intros (c & [= <-] & Hne)].
      * by intros c [= <-] Hne.
    + cbn. split; [done|]. split; [done|]. split; [by intros [= ->]|]. split.
      * split; [intros _; by exists c | eauto].
      * by intros c' [= <-] _.
  - split; [done|]. split; [done|]. split; [done|]. split.
    + split; [intros [? [=]] | intros (c & [=] & _)].
    + intros c [=].
Qed.

Lemma content_chunk_key_iff_nonempty_witness :
  dict_get "content_chunk"
    (data (DocumentStreamEvent (mkUUID 7) "content_chunk" (Some "")
             (1 # 2) None "2024-01-01T00:00:00"))
  = None
  ∧ dict_get "content_chunk"
      (data (DocumentStreamEvent (mkUUID 7) "content_chunk" (Some "# PRD")
               (1 # 2) None "2024-01-01T00:00:00"))
    = Some (JStr "# PRD").
Proof.
  split.
  - by apply (content_chunk_key_iff_nonempty (mkUUID 7) "content_chunk"
                (Some "") (1 # 2) None "2024-01-01T00:00:00").
  - by apply (content_chunk_key_iff_nonempty (mkUUID 7) "content_chunk"
                (Some "# PRD") (1 # 2) None "2024-01-01T00:00:00").
Defined.

End StreamingFacts.

(** ** The version lineage *)

Module VersionManagerFacts.
Import VersionManager.

Implicit Types (s : Session) (d c : DocumentNode.t) (l : list DocumentNode.t).

Lemma get_root_id_set_is_latest fuel s b d :
  _get_root_id fuel s (DocumentNode.set_is_latest b d) = _get_root_id fuel s d.
Proof. by destruct fuel. Qed.

Lemma lookup_put_document s c k :
  documents (put_document c s) !! k =
  if decide (DocumentNode.id c = k) then Some c else documents s !! k.
Proof. unfold put_document. simpl. apply lookup_insert. Qed.

(** Flipping the flag of a document does not change where the walks end. *)
Lemma get_root_id_terminates s k c b :
  session_wf s → documents s !! k = Some c →
  ∀ d n, reaches_root s d n → ∀ fuel, n ≤ fuel →
    is_Some (_get_root_id fuel (put_document (DocumentNode.set_is_latest b c) s) d).
Proof.
  intros Hwf Hc d n Hreach.
  pose proof (wf_keys s Hwf k c Hc) as Hid.
  induction Hreach as [d Hp|d p Hp Hnone|d p parent n Hp Hsome _ IH];
    intros fuel Hle.
  - destruct fuel; cbn [_get_root_id]; rewrite Hp; eauto.
  - assert (documents (put_document (DocumentNode.set_is_latest b c) s) !! p
            = None) as Hp1.
    { rewrite lookup_put_document. simpl. case_decide; [congruence|done]. }
    destruct fuel; cbn [_get_root_id]; rewrite Hp, Hp1; eauto.
  - destruct fuel as [|fuel]; [lia|]. cbn [_get_root_id]. rewrite Hp.
    rewrite lookup_put_document. simpl. case_decide as Hpk.
    + rewrite get_root_id_set_is_latest.
      assert (parent = c) as <- by congruence. apply IH. lia.
    + rewrite Hsome. apply IH. lia.
Qed.

Lemma create_new_version_not_found fuel s document_id new_content metadata
    uuid4 :
  documents s !! document_id = None →
  create_new_version fuel s document_id new_content metadata uuid4
  = (s, Raise (ValueError
                 ("Document " +:+ uuid_str document_id +:+ " not found"))).
Proof.
  destruct uuid4 as [[g n] e]. intros Hnone.
  unfold create_new_version. by rewrite Hnone.
Qed.

Lemma create_new_version_ok fuel s document_id new_content metadata uuid4
    current_doc n :
  session_wf s →
  documents s !! document_id = Some current_doc →
  is_Some (graph_nodes s !! DocumentNode.graph_node_id current_doc) →
  reaches_root s current_doc n → n ≤ fuel →
  fresh uuid4 s →
  ∃ new_doc s',
    create_new_version fuel s document_id new_content metadata uuid4
      = (s', Ok new_doc)
    ∧ DocumentNode.version new_doc
      = (DocumentNode.version current_doc + 1)%Z
    ∧ DocumentNode.parent_version_id new_doc = Some document_id
    ∧ DocumentNode.is_latest new_doc = true
    ∧ DocumentNode.content new_doc = new_content
    ∧ DocumentNode.id new_doc = uuid4.1.2
    ∧ documents s' !! uuid4.1.2 = Some new_doc
    ∧ documents s' !! document_id
      = Some (DocumentNode.set_is_latest false current_doc)
    ∧ ∀ k, k ≠ document_id → k ≠ uuid4.1.2 →
        documents s' !! k = documents s !! k.
Proof.
  destruct uuid4 as [[g nd] e].
  intros Hwf Hc [gn Hgn] Hreach Hle (Hfg & Hfd & Hfe).
  rename current_doc into c. simpl in Hfg, Hfd, Hfe.
  pose proof (wf_keys s Hwf _ _ Hc) as Hid.
  unfold create_new_version. rewrite Hc.
  destruct (get_root_id_terminates s document_id c false Hwf Hc c n Hreach
              fuel Hle) as [root Hroot].
  rewrite get_root_id_set_is_latest, Hroot. simpl.
  rewrite Hgn, Hfg.
  rewrite decide_False by (by intros [? [=]]).
  assert (nd ≠ document_id) as Hnd by congruence.
  rewrite lookup_insert_ne by congruence. rewrite Hfd.
  rewrite decide_False by (by intros [? [=]]).
  rewrite Hfe. rewrite decide_False by (by intros [? [=]]).
  eexists _, _. split; [reflexivity|]. simpl.
  split; [done|]. split; [by rewrite Hid|]. split; [done|].
  split; [done|]. split; [done|].
  split; [by rewrite lookup_insert_eq|].
  split.
  + rewrite lookup_insert_ne by done. by rewrite Hid, lookup_insert_eq.
  + intros k Hk1 Hk2. rewrite !lookup_insert_ne by congruence. done.
Qed.

Lemma sample_session_wf : session_wf sample_session.
Proof.
  split.
  - intros k d Hk. unfold sample_session in Hk. simpl in Hk.
    apply lookup_singleton_Some in Hk as [<- <-]. done.
  - intros k d p Hk Hp. unfold sample_session in Hk. simpl in Hk.
    apply lookup_singleton_Some in Hk as [<- <-]. done.
Qed.

(** C1 fails on the code: the call works on the document it is given and
    never looks for the latest member of the chain. In a chain whose
    latest member is version 2, a call that names version 1 returns a
    second version 2 whose parent is version 1, flagged [is_latest], and
    leaves the former version 2 as it was, flagged [is_latest] too; the
    claim has the new node at version 3 with the former version 2 as its
    parent, and the flag of the former version 2 cleared. *)
Theorem create_new_version_ignores_latest :
  ∃ latest s' new_doc,
    documents sample_session_2 !! mkUUID 2 = Some latest
    ∧ chain_member sample_session_2 (mkUUID 1) latest
    ∧ DocumentNode.is_latest latest = true
    ∧ DocumentNode.version latest = 2%Z
    ∧ create_new_version 0 sample_session_2 (mkUUID 1)
        "# PRD, another draft" None (mkUUID 103, mkUUID 3, mkUUID 203)
      = (s', Ok new_doc)
    ∧ DocumentNode.version new_doc ≠ (DocumentNode.version latest + 1)%Z
    ∧ DocumentNode.parent_version_id new_doc
      ≠ Some (DocumentNode.id latest)
    ∧ documents s' !! mkUUID 2 = Some latest
    ∧ DocumentNode.version new_doc = 2%Z
    ∧ DocumentNode.parent_version_id new_doc = Some (mkUUID 1)
    ∧ DocumentNode.is_latest new_doc = true
    ∧ documents s' !! mkUUID 3 = Some new_doc.
Proof.
  eexists _, _, _. split; [by vm_compute|]. split.
  { eapply (chain_child _ _ (mkUUID 2) _ (mkUUID 1)).
    - by vm_compute.
    - done.
    - by vm_compute.
    - apply chain_root. by vm_compute. }
  split; [done|]. split; [done|]. split; [by vm_compute|]. simpl.
  split; [done|]. split; [done|]. split; [by vm_compute|].
  split; [done|]. split; [done|]. split; [done|]. by vm_compute.
Qed.

(** *** The chain invariant *)

(** What a call with fresh identifiers does to the session: nothing, or
    the named document is unflagged and its next version is stored. *)
Lemma create_new_version_inv fuel s document_id new_content metadata uuid4
    s' result :
  fresh uuid4 s → session_wf s →
  create_new_version fuel s document_id new_content metadata uuid4
    = (s', result) →
  s' = s
  ∨ ∃ c new_doc,
      documents s !! document_id = Some c
      ∧ result = Ok new_doc
      ∧ documents s'
        = <[uuid4.1.2 := new_doc]>
            (<[document_id := DocumentNode.set_is_latest false c]> (documents s))
      ∧ (∀ k, is_Some (graph_nodes s !! k) → is_Some (graph_nodes s' !! k))
      ∧ DocumentNode.id new_doc = uuid4.1.2
      ∧ DocumentNode.version new_doc = (DocumentNode.version c + 1)%Z
      ∧ DocumentNode.parent_version_id new_doc = Some document_id
      ∧ DocumentNode.is_latest new_doc = true
      ∧ is_Some (graph_nodes s' !! DocumentNode.graph_node_id new_doc).
Proof.
  destruct uuid4 as [[g nd] e]. intros (Hfg & Hfd & Hfe) Hwf.
  simpl in Hfg, Hfd, Hfe. unfold create_new_version.
  destruct (documents s !! document_id) as [c|] eqn:Hc;
    [|intros [= <- <-]; by left].
  pose proof (wf_keys s Hwf _ _ Hc) as Hid.
  destruct (_get_root_id _ _ _); [|intros [= <- <-]; by left].
  cbn [graph_nodes put_document DocumentNode.graph_node_id
       DocumentNode.set_is_latest].
  destruct (graph_nodes s !! DocumentNode.graph_node_id c) as [gn|] eqn:Hgn;
    [|intros [= <- <-]; by left].
  rewrite Hfg. rewrite decide_False by (by intros [? [=]]).
  cbn [documents put_graph_node put_document DocumentNode.id
       DocumentNode.set_is_latest].
  assert (nd ≠ document_id) as Hnd by congruence.
  rewrite lookup_insert_ne by congruence. rewrite Hfd.
  rewrite decide_False by (by intros [? [=]]).
  cbn [graph_edges put_graph_node put_document].
  rewrite Hfe. rewrite decide_False by (by intros [? [=]]).
  intros [= <- <-]. right. eexists c, _. split; [done|]. split; [done|].
  cbn. rewrite Hid. split; [done|]. split.
  { intros k Hk. rewrite lookup_insert. by case_decide. }
  split; [done|]. split; [done|]. split; [done|]. split; [done|].
  by rewrite lookup_insert_eq.
Qed.

Lemma session_wf_step s c new_doc document_id new_id :
  session_wf s →
  documents s !! document_id = Some c →
  DocumentNode.id new_doc = new_id →
  DocumentNode.parent_version_id new_doc = Some document_id →
  ∀ s', documents s'
        = <[new_id := new_doc]>
            (<[document_id := DocumentNode.set_is_latest false c]> (documents s)) →
  session_wf s'.
Proof.
  intros Hwf Hc Hid Hpar s' Hs'.
  pose proof (wf_keys s Hwf _ _ Hc) as Hcid.
  assert (∀ k, is_Some (documents s !! k) → is_Some (documents s' !! k)) as Hmono.
  { intros k Hk. rewrite Hs', !lookup_insert. by repeat case_decide. }
  split.
  - intros k d. rewrite Hs', !lookup_insert. repeat case_decide.
    + intros [= <-]. congruence.
    + intros [= <-]. simpl. congruence.
    + apply Hwf.
  - intros k d p. rewrite Hs' at 1. rewrite !lookup_insert. repeat case_decide.
    + intros [= <-]. rewrite Hpar. intros [= <-]. apply Hmono. eauto.
    + intros [= <-]. simpl. intros Hp. apply Hmono.
      by apply (wf_parents s Hwf _ _ _ Hc).
    + intros Hd Hp. apply Hmono. by apply (wf_parents s Hwf _ _ _ Hd).
Qed.

Lemma chain_inv_member s r l d c k :
  chain_inv s r l → d ∈ l → documents s !! k = Some c →
  DocumentNode.id d = k → d = c.
Proof.
  intros Hinv [i Hi]%list_elem_of_lookup Hk <-.
  destruct (ci_nodes s r l Hinv i d Hi) as (Hd & _). congruence.
Qed.

Lemma chain_inv_latest_last s r l i d :
  chain_inv s r l → l !! i = Some d →
  DocumentNode.is_latest d = true → S i = length l.
Proof.
  intros Hinv Hi Hlat.
  destruct (ci_nodes s r l Hinv i d Hi) as (_ & _ & Hl & _).
  rewrite Hlat in Hl. symmetry in Hl. by apply bool_decide_eq_true in Hl.
Qed.

(** A call on a document outside the chain leaves the chain as it is. *)
Lemma chain_inv_step_outside s r l s' c new_doc document_id new_id :
  chain_inv s r l →
  documents s !! document_id = Some c →
  document_id ∉ DocumentNode.id <$> l →
  documents s !! new_id = None →
  DocumentNode.id new_doc = new_id →
  DocumentNode.parent_version_id new_doc = Some document_id →
  documents s'
    = <[new_id := new_doc]>
        (<[document_id := DocumentNode.set_is_latest false c]> (documents s)) →
  (∀ k, is_Some (graph_nodes s !! k) → is_Some (graph_nodes s' !! k)) →
  chain_inv s' r l.
Proof.
  intros Hinv Hc Hout Hfresh Hid Hpar Hs' Hgn.
  pose proof (ci_wf s r l Hinv) as Hwf.
  pose proof (wf_keys s Hwf _ _ Hc) as Hcid.
  assert (∀ d, d ∈ l → DocumentNode.id d ≠ document_id) as Hne.
  { intros d Hd Heq. apply Hout. rewrite <- Heq. by apply list_elem_of_fmap_2. }
  split.
  - by apply (session_wf_step s c new_doc document_id new_id).
  - apply Hinv.
  - intros i d Hi.
    destruct (ci_nodes s r l Hinv i d Hi) as (Hd & Hv & Hl & Hp & Hg).
    split; [|split; [done|]; split; [done|]; split; [done|]; by apply Hgn].
    rewrite Hs', !lookup_insert_ne; [done| |].
    + intros Heq. symmetry in Heq. revert Heq. apply Hne.
      by eapply list_elem_of_lookup_2.
    + congruence.
  - intros k d p. rewrite Hs', !lookup_insert. repeat case_decide.
    + intros [= <-] Hp. rewrite Hpar. intros [= Heq].
      exfalso. by apply (Hne p Hp).
    + intros [= <-] Hp. simpl. intros Hpc.
      exfalso. apply (Hne c); [|done].
      by eapply (ci_closed s r l Hinv document_id c p).
    + apply Hinv.
Qed.

(** A call on the last document of the chain appends the new version. *)
Lemma chain_inv_step_last s r l s' c new_doc i new_id :
  chain_inv s r l →
  l !! i = Some c → S i = length l →
  documents s !! new_id = None →
  DocumentNode.id new_doc = new_id →
  DocumentNode.version new_doc = (DocumentNode.version c + 1)%Z →
  DocumentNode.parent_version_id new_doc = Some (DocumentNode.id c) →
  DocumentNode.is_latest new_doc = true →
  is_Some (graph_nodes s' !! DocumentNode.graph_node_id new_doc) →
  documents s'
    = <[new_id := new_doc]>
        (<[DocumentNode.id c := DocumentNode.set_is_latest false c]>
           (documents s)) →
  (∀ k, is_Some (graph_nodes s !! k) → is_Some (graph_nodes s' !! k)) →
  chain_inv s' r (<[i := DocumentNode.set_is_latest false c]> l ++ [new_doc]).
Proof.
  intros Hinv Hi Hlast Hfresh Hid Hver Hpar Hlat Hgnd Hs' Hgn.
  pose proof (ci_wf s r l Hinv) as Hwf.
  destruct (ci_nodes s r l Hinv i c Hi) as (Hc & Hcv & _ & Hcp & Hcg).
  assert (new_id ≠ DocumentNode.id c) as Hnc by congruence.
  set (c' := DocumentNode.set_is_latest false c).
  set (l' := <[i := c']> l ++ [new_doc]).
  assert (length l' = S (length l)) as Hlen'.
  { unfold l'. rewrite length_app, length_insert. simpl. lia. }
  assert (∀ j, j < length l →
            l' !! j = if decide (j = i) then Some c' else l !! j) as Hlook.
  { intros j Hj. unfold l'. rewrite lookup_app_l by (rewrite length_insert; lia).
    case_decide as Hji.
    - subst j. apply list_lookup_insert_eq. lia.
    - by apply list_lookup_insert_ne. }
  assert (l' !! length l = Some new_doc) as Hnew.
  { unfold l'. rewrite lookup_app_r by (rewrite length_insert; lia).
    by rewrite length_insert, Nat.sub_diag. }
  assert (∀ j, j < length l →
            DocumentNode.id <$> l' !! j = DocumentNode.id <$> l !! j) as Hids.
  { intros j Hj. rewrite Hlook by done. case_decide; [subst j|done].
    by rewrite Hi. }
  assert (∀ j d, l !! j = Some d → j ≠ i →
            DocumentNode.id d ≠ DocumentNode.id c) as Hdistinct.
  { intros j d Hj Hji Heq.
    destruct (ci_nodes s r l Hinv j d Hj) as (Hd & Hdv & _).
    rewrite Heq, Hc in Hd. injection Hd as Hdc. rewrite <- Hdc in Hdv. lia. }
  split.
  - apply (session_wf_step s c new_doc (DocumentNode.id c) new_id); try done.
  - rewrite Hids by lia. apply Hinv.
  - intros j d Hj.
    assert (j < length l ∨ j = length l) as [Hlt| ->].
    { apply lookup_lt_Some in Hj. lia. }
    + rewrite Hlook in Hj by done. case_decide as Hji.
      * injection Hj as <-. subst j.
        split; [|split; [done|]; split; [|split]].
        -- rewrite Hs', lookup_insert_ne by exact Hnc.
           apply lookup_insert_eq.
        -- simpl. symmetry. apply bool_decide_eq_false. lia.
        -- simpl. rewrite Hcp. destruct i; [done|]. symmetry. apply Hids. lia.
        -- by apply Hgn.
      * destruct (ci_nodes s r l Hinv j d Hj) as (Hd & Hdv & Hdl & Hdp & Hdg).
        split; [|split; [done|]; split; [|split]].
        -- rewrite Hs', !lookup_insert_ne; [done| |congruence].
           intros Heq. symmetry in Heq. revert Heq. by apply (Hdistinct j).
        -- rewrite Hdl. rewrite !bool_decide_eq_false_2 by lia. done.
        -- rewrite Hdp. destruct j; [done|]. symmetry. apply Hids. lia.
        -- by apply Hgn.
    + rewrite Hnew in Hj. injection Hj as <-.
      split; [|split; [|split; [|split]]].
      * by rewrite Hs', Hid, lookup_insert_eq.
      * rewrite Hver, Hcv. lia.
      * rewrite Hlat. symmetry. apply bool_decide_eq_true. lia.
      * rewrite Hpar. rewrite <- Hlast. rewrite Hids by lia. by rewrite Hi.
      * done.
  - assert (∀ d, d ∈ l → d ∈ l' ∨ d = c) as Hkeep.
    { intros d [j Hj]%list_elem_of_lookup.
      destruct (decide (j = i)) as [->|Hji].
      - right. congruence.
      - left. apply list_elem_of_lookup. exists j.
        rewrite Hlook by (by eapply lookup_lt_Some). by rewrite decide_False. }
    assert (∀ p, p ∈ l' → (∃ q, q ∈ l ∧ DocumentNode.id q = DocumentNode.id p)
                          ∨ p = new_doc) as Hback.
    { intros p [j Hj]%list_elem_of_lookup.
      assert (j < length l ∨ j = length l) as [Hlt| ->].
      { apply lookup_lt_Some in Hj. lia. }
      - left. rewrite Hlook in Hj by done. case_decide.
        + injection Hj as <-. exists c. split; [|done].
          by eapply list_elem_of_lookup_2.
        + exists p. split; [|done]. by eapply list_elem_of_lookup_2.
      - right. congruence. }
    assert (c' ∈ l') as Hc'in.
    { apply list_elem_of_lookup. exists i. rewrite Hlook by lia.
      by rewrite decide_True. }
    assert (new_doc ∈ l') as Hnin by (by eapply list_elem_of_lookup_2).
    intros k d p. rewrite Hs', !lookup_insert. repeat case_decide.
    + by intros [= <-].
    + by intros [= <-].
    + intros Hd Hp Hdp. destruct (Hback p Hp) as [(q & Hq & Hqid)| ->].
      * destruct (Hkeep d) as [Hdl| ->]; [|done|].
        -- apply (ci_closed s r l Hinv k d q); [done|done|by rewrite Hqid].
        -- pose proof (wf_keys s Hwf _ _ Hd). congruence.
      * rewrite Hid in Hdp.
        destruct (wf_parents s Hwf _ _ _ Hd Hdp) as [? ?]. congruence.
Qed.

Lemma chain_inv_step s r l s' :
  chain_inv s r l → call_on_latest s s' → ∃ l', chain_inv s' r l'.
Proof.
  intros Hinv (fuel & document_id & new_content & metadata & uuid4 & result
               & Hfresh & Hlatest & Hrun).
  pose proof (ci_wf s r l Hinv) as Hwf.
  destruct (create_new_version_inv _ _ _ _ _ _ _ _ Hfresh Hwf Hrun)
    as [->|(c & new_doc & Hc & _ & Hdocs & Hgn & Hid & Hver & Hpar & Hlat & Hgnd)];
    [by exists l|].
  pose proof (wf_keys s Hwf _ _ Hc) as Hcid.
  destruct Hfresh as (_ & Hfd & _).
  destruct (decide (document_id ∈ DocumentNode.id <$> l)) as [Hin|Hout].
  - apply list_elem_of_fmap in Hin as (d & Hdid & Hd).
    assert (d = c) as -> by (by eapply chain_inv_member).
    apply list_elem_of_lookup in Hd as [i Hi].
    pose proof (chain_inv_latest_last s r l i c Hinv Hi (Hlatest c Hc)) as Hlast.
    eexists. subst document_id.
    by apply (chain_inv_step_last s r l s' c new_doc i (uuid4.1.2)).
  - exists l.
    by apply (chain_inv_step_outside s r l s' c new_doc document_id (uuid4.1.2)).
Qed.

Lemma chain_inv_init s r : single_root s r → ∃ root, chain_inv s r [root].
Proof.
  intros [Hwf (root & Hroot & Hv & Hl & Hp & Hg) Halone].
  pose proof (wf_keys s Hwf _ _ Hroot) as Hid.
  exists root. split.
  - done.
  - simpl. by rewrite Hid.
  - intros [|i] d; [|done]. intros [= <-]. by rewrite Hid.
  - intros k d p Hd ->%list_elem_of_singleton Hdp. rewrite Hid in Hdp.
    by destruct (Halone k d Hd).
Qed.

Lemma chain_inv_reaches s r l : chain_inv s r l →
  ∀ i d, l !! i = Some d → reaches_root s d i.
Proof.
  intros Hinv. induction i as [|i IH]; intros d Hi.
  - destruct (ci_nodes s r l Hinv 0 d Hi) as (_ & _ & _ & Hp & _).
    by apply reaches_here.
  - destruct (ci_nodes s r l Hinv (S i) d Hi) as (_ & _ & _ & Hp & _).
    destruct (l !! i) as [p|] eqn:Hpi.
    + destruct (ci_nodes s r l Hinv i p Hpi) as (Hpd & _).
      eapply reaches_up; [exact Hp|exact Hpd|by apply IH].
    + apply lookup_ge_None in Hpi. apply lookup_lt_Some in Hi. lia.
Qed.

Lemma filter_none {A} (P : A → Prop) `{!∀ x, Decision (P x)} (l : list A) :
  Forall (λ x, ¬ P x) l → filter P l = [].
Proof.
  induction 1 as [|x l Hx _ IH]; [done|]. by rewrite filter_cons_False.
Qed.

Lemma chain_inv_chain_is s r l : chain_inv s r l → chain_is s r l.
Proof.
  intros Hinv. pose proof (ci_wf s r l Hinv) as Hwf.
  assert (DocumentNode.version <$> l = seqZ 1 (Z.of_nat (length l))) as Hvers.
  { apply list_eq. intros i. rewrite list_lookup_fmap.
    destruct (l !! i) as [d|] eqn:Hi; simpl.
    - destruct (ci_nodes s r l Hinv i d Hi) as (_ & Hv & _).
      apply lookup_lt_Some in Hi. rewrite lookup_seqZ_lt by lia.
      f_equal. lia.
    - apply lookup_ge_None in Hi. rewrite lookup_seqZ_ge; [done|lia]. }
  split; [|split; [|split]].
  - intros d. split.
    + induction 1 as [d Hd|k d p parent Hd Hp Hparent _ IH].
      * pose proof (ci_head s r l Hinv) as Hhead.
        destruct (l !! 0) as [h|] eqn:Hh; [|done]. injection Hhead as Hr.
        destruct (ci_nodes s r l Hinv 0 h Hh) as (Hhd & _).
        rewrite Hr, Hd in Hhd. injection Hhd as ->.
        by eapply list_elem_of_lookup_2.
      * apply (ci_closed s r l Hinv k d parent); [done|done|].
        by rewrite (wf_keys s Hwf _ _ Hparent).
    + intros [i Hi]%list_elem_of_lookup. revert d Hi.
      induction i as [|i IH]; intros d Hi.
      * apply chain_root. pose proof (ci_head s r l Hinv) as Hhead.
        rewrite Hi in Hhead. injection Hhead as Hr.
        destruct (ci_nodes s r l Hinv 0 d Hi) as (Hd & _). by rewrite <- Hr.
      * destruct (ci_nodes s r l Hinv (S i) d Hi) as (Hd & _ & _ & Hp & _).
        destruct (l !! i) as [p|] eqn:Hpi.
        -- destruct (ci_nodes s r l Hinv i p Hpi) as (Hpd & _).
           eapply chain_child; [exact Hd|exact Hp|exact Hpd|by apply IH].
        -- apply lookup_ge_None in Hpi. apply lookup_lt_Some in Hi. lia.
  - apply (NoDup_fmap_1 DocumentNode.version). rewrite Hvers. apply NoDup_seqZ.
  - done.
  - pose proof (ci_head s r l Hinv) as Hhead.
    destruct l as [|h l0 _] using rev_ind; [done|].
    exists h. rewrite filter_app.
    assert (length (l0 ++ [h]) = S (length l0)) as Hlen.
    { rewrite length_app. simpl. lia. }
    rewrite filter_none.
    + simpl. rewrite filter_cons_True, filter_nil; [done|].
      destruct (ci_nodes s r _ Hinv (length l0) h) as (_ & _ & Hl & _).
      { by rewrite lookup_app_r, Nat.sub_diag. }
      rewrite Hl. apply bool_decide_eq_true. lia.
    + apply Forall_lookup. intros i d Hi.
      destruct (ci_nodes s r _ Hinv i d) as (_ & _ & Hl & _).
      { by rewrite lookup_app_l by (by eapply lookup_lt_Some). }
      rewrite Hl. apply lookup_lt_Some in Hi.
      rewrite bool_decide_eq_false_2; [done|lia].
Qed.

Lemma chain_inv_reachable s0 r s :
  single_root s0 r → rtc call_on_latest s0 s → ∃ l, chain_inv s r l.
Proof.
  intros Hroot. revert s. apply rtc_ind_r.
  - destruct (chain_inv_init s0 r Hroot) as [root Hinv]. eauto.
  - intros s1 s2 _ Hcall [l Hinv]. by eapply chain_inv_step.
Qed.

(** Start from a chain that is a single root, version 1 and latest, and
    let every call of [create_new_version] name a document that is flagged
    [is_latest] at the time of the call. Then at every point the chain has
    exactly one member flagged [is_latest], the versions of its members
    are 1, 2, ..., n without gap or repeat, and a further call on the
    flagged member, with fresh identifiers, returns the next version. *)
Lemma chain_versions_contiguous_one_latest s0 r s :
  single_root s0 r → rtc call_on_latest s0 s →
  ∃ l, chain_is s r l
    ∧ ∀ d new_content metadata uuid4,
        d ∈ l → DocumentNode.is_latest d = true → fresh uuid4 s →
        ∃ s' new_doc,
          create_new_version (length l) s (DocumentNode.id d) new_content
            metadata uuid4 = (s', Ok new_doc)
          ∧ DocumentNode.version new_doc = (Z.of_nat (length l) + 1)%Z.
Proof.
  intros Hroot Hcalls.
  destruct (chain_inv_reachable s0 r s Hroot Hcalls) as [l Hinv].
  exists l. split; [by apply chain_inv_chain_is|].
  intros d new_content metadata uuid4 [i Hi]%list_elem_of_lookup Hlat Hfresh.
  destruct (ci_nodes s r l Hinv i d Hi) as (Hd & Hv & _ & _ & Hg).
  pose proof (chain_inv_latest_last s r l i d Hinv Hi Hlat) as Hlast.
  destruct (create_new_version_ok (length l) s (DocumentNode.id d)
              new_content metadata uuid4
              d i (ci_wf s r l Hinv) Hd Hg
              (chain_inv_reaches s r l Hinv i d Hi) ltac:(lia) Hfresh)
    as (new_doc & s' & Hrun & Hnv & _).
  exists s', new_doc. split; [done|]. rewrite Hnv, Hv. lia.
Qed.

Lemma sample_single_root : single_root sample_session (mkUUID 1).
Proof.
  split.
  - exact sample_session_wf.
  - exists sample_root. repeat split; done.
  - intros k d Hd. unfold sample_session in Hd. simpl in Hd.
    apply lookup_singleton_Some in Hd as [_ <-]. done.
Qed.

Lemma chain_versions_contiguous_one_latest_witness :
  single_root sample_session (mkUUID 1)
  ∧ rtc call_on_latest sample_session sample_session_2
  ∧ ∃ l, chain_is sample_session_2 (mkUUID 1) l
      ∧ ∀ d new_content metadata uuid4,
          d ∈ l → DocumentNode.is_latest d = true →
          fresh uuid4 sample_session_2 →
          ∃ s' new_doc,
            create_new_version (length l) sample_session_2
              (DocumentNode.id d) new_content metadata uuid4
              = (s', Ok new_doc)
            ∧ DocumentNode.version new_doc = (Z.of_nat (length l) + 1)%Z.
Proof.
  assert (rtc call_on_latest sample_session sample_session_2) as Hcalls.
  { apply rtc_once.
    exists 0, (mkUUID 1), "# PRD, second draft", None,
      (mkUUID 102, mkUUID 2, mkUUID 202).
    eexists. split; [by vm_compute|]. split.
    - intros d Hd. unfold sample_session in Hd. simpl in Hd.
      apply lookup_singleton_Some in Hd as [_ <-]. done.
    - unfold sample_session_2. apply surjective_pairing. }
  split; [exact sample_single_root|]. split; [exact Hcalls|].
  exact (chain_versions_contiguous_one_latest sample_session (mkUUID 1)
           sample_session_2 sample_single_root Hcalls).
Defined.

(** C2 fails on the code: a call of [create_new_version] may name any
    document, and the call works on the one it is given. Two calls that
    both name the root, the second when the root is no longer the latest,
    give a chain with two members of version 2, both flagged [is_latest]:
    the versions repeat and two members carry the flag. *)
Theorem fork_breaks_chain :
  single_root sample_session (mkUUID 1)
  ∧ rtc call_on_any sample_session sample_session_fork
  ∧ (¬ ∃ l, chain_is sample_session_fork (mkUUID 1) l)
  ∧ ∃ second third,
      documents sample_session_fork !! mkUUID 2 = Some second
      ∧ documents sample_session_fork !! mkUUID 3 = Some third
      ∧ chain_member sample_session_fork (mkUUID 1) second
      ∧ chain_member sample_session_fork (mkUUID 1) third
      ∧ DocumentNode.version second = 2%Z
      ∧ DocumentNode.version third = 2%Z
      ∧ DocumentNode.is_latest second = true
      ∧ DocumentNode.is_latest third = true.
Proof.
  split; [exact sample_single_root|]. split; [|split].
  - apply (rtc_l _ _ sample_session_2); [|apply rtc_once].
    + exists 0, (mkUUID 1), "# PRD, second draft", None,
        (mkUUID 102, mkUUID 2, mkUUID 202).
      eexists. split; [by vm_compute|].
      unfold sample_session_2. apply surjective_pairing.
    + exists 0, (mkUUID 1), "# PRD, another draft", None,
        (mkUUID 103, mkUUID 3, mkUUID 203).
      eexists. split; [by vm_compute|].
      unfold sample_session_fork. apply surjective_pairing.
  - intros (l & Hmem & _ & _ & latest & Hone).
    assert (∃ root, documents sample_session_fork !! mkUUID 1 = Some root)
      as [root Hroot] by (eexists; by vm_compute).
    assert (∀ k, k = mkUUID 2 ∨ k = mkUUID 3 →
              ∃ d, documents sample_session_fork !! k = Some d
                ∧ DocumentNode.id d = k
                ∧ DocumentNode.parent_version_id d = Some (mkUUID 1)
                ∧ DocumentNode.is_latest d = true) as Hforks.
    { intros k [->| ->]; eexists; (split; [by vm_compute|done]). }
    assert (∀ k, k = mkUUID 2 ∨ k = mkUUID 3 →
              ∃ d, DocumentNode.id d = k ∧ d = latest) as Hboth.
    { intros k Hk. destruct (Hforks k Hk) as (d & Hd & Hid & Hp & Hl).
      exists d. split; [done|].
      assert (d ∈ filter (λ d, DocumentNode.is_latest d = true) l) as Hin.
      { apply list_elem_of_filter. split; [done|]. apply Hmem.
        eapply chain_child; [exact Hd|exact Hp|exact Hroot|].
        by apply chain_root. }
      rewrite Hone in Hin. by apply list_elem_of_singleton in Hin. }
    destruct (Hboth (mkUUID 2)) as (d2 & Hid2 & ->); [by left|].
    destruct (Hboth (mkUUID 3)) as (d3 & Hid3 & ->); [by right|].
    congruence.
  - assert (∃ root, documents sample_session_fork !! mkUUID 1 = Some root)
      as [root Hroot] by (eexists; by vm_compute).
    eexists _, _. split; [by vm_compute|]. split; [by vm_compute|].
    split; [|split].
    + eapply (chain_child _ _ (mkUUID 2) _ (mkUUID 1));
        [by vm_compute|done|exact Hroot|by apply chain_root].
    + eapply (chain_child _ _ (mkUUID 3) _ (mkUUID 1));
        [by vm_compute|done|exact Hroot|by apply chain_root].
    + done.
Qed.

End VersionManagerFacts.

(** ** Diff and similarity of two contents *)

Module VersionDiffServiceFacts.
Import Difflib DifflibFacts VersionDiffService.

(** Whatever the contents, the two counts are taken on a generator that
    [list] has emptied. *)
Lemma compute_diff_counts content_a content_b r :
  compute_diff content_a content_b = Ok r →
  added_lines r = 0 ∧ removed_lines r = 0.
Proof.
  unfold compute_diff. destruct (unified_diff _ _ _); [|done|done].
  by intros [= <-].
Qed.

Lemma get_opcodes_self n :
  n ≠ 0 → get_opcodes [(0, 0, n); (n, n, 0)] = [(equal, 0, n, 0, n)].
Proof.
  intros Hn. unfold get_opcodes. cbn [foldl]. unfold opcode_step at 2.
  rewrite !(decide_False (P:=0 < 0)) by lia.
  rewrite (decide_False (P:=0 < 0 ∧ 0 < 0)) by lia.
  rewrite (decide_False (P:=n = 0)) by done.
  cbn [app Nat.add]. unfold opcode_step.
  rewrite !(decide_False (P:=n < n)) by lia.
  rewrite (decide_False (P:=n < n ∧ n < n)) by lia.
  by rewrite decide_True.
Qed.

Lemma get_grouped_opcodes_equal n :
  get_grouped_opcodes 3 [(equal, 0, n, 0, n)] = [].
Proof.
  unfold get_grouped_opcodes, fix_leading, fix_trailing. simpl.
  rewrite decide_False by lia. done.
Qed.

Lemma unified_diff_self (l : list string) : unified_diff l l 3 = Ok [].
Proof.
  unfold unified_diff. rewrite get_matching_blocks_self.
  destruct (decide (length l = 0)) as [Hz|Hnz]; [done|].
  by rewrite get_opcodes_self, get_grouped_opcodes_equal.
Qed.

(** C9: a content compared with itself has similarity 1, an empty diff
    and counts of zero. *)
Theorem compare_identical (x : string) :
  (∃ q, compute_similarity x x = Ok q ∧ (q == 1)%Q)
  ∧ ∃ r, compute_diff x x = Ok r
      ∧ added_lines r = 0 ∧ removed_lines r = 0
      ∧ diff_lines r = [].
Proof.
  split.
  - apply ratio_self.
  - unfold compute_diff. rewrite unified_diff_self. by eexists.
Qed.

(** C6 fails on the code: the diff of ["a"] and ["b"] has one line that
    adds and one that removes, and both counts come out as zero. *)
Theorem compute_diff_counts_missed :
  ∃ r, compute_diff "a" "b" = Ok r
    ∧ diff_lines r = ["--- "; "+++ "; "@@ -1 +1 @@"; "-a"; "+b"]
    ∧ added_in (diff_lines r) = 1 ∧ removed_in (diff_lines r) = 1
    ∧ added_lines r = 0 ∧ removed_lines r = 0.
Proof. eexists. split; [by vm_compute|]. by vm_compute. Qed.

End VersionDiffServiceFacts.

(** ** More on the wave scheduler *)

Module SchedulerFacts.
Import DocGenerator DocGeneratorFacts Scheduler.

Implicit Types (t : DocumentTemplate) (g : gset string).
Implicit Types (r cw templates : list DocumentTemplate).
Implicit Types (waves acc : list (list DocumentTemplate)).

Lemma list_remove_sublist `{EqDecision A} (x : A) (l l' : list A) :
  list_remove x l = Some l' → l' `sublist_of` l.
Proof.
  revert l'. induction l as [|y l IH]; intros l'; simpl; [done|].
  destruct (decide (x = y)) as [->|Hne].
  - intros [= ->]. by apply sublist_cons.
  - destruct (list_remove x l) as [k|]; simpl; [|done].
    intros [= <-]. apply sublist_skip. by apply IH.
Qed.

Lemma place_wave_sublist cw : ∀ r g r' g',
  place_wave cw r g = Some (r', g') → r' `sublist_of` r.
Proof.
  induction cw as [|t cw IH]; intros r g r' g'; simpl.
  - by intros [= <- _].
  - destruct (list_remove t r) as [r1|] eqn:Hr1; [|done].
    intros Hrest. etrans; [by eapply IH|]. by eapply list_remove_sublist.
Qed.

Lemma select_wave_sublist r g : select_wave r g `sublist_of` r.
Proof.
  unfold select_wave. pose proof (sublist_filter (deps_satisfied g) r).
  by destruct (filter _ r).
Qed.

(** What one iteration leaves in [remaining] when some template was
    selectable: templates that were not. *)
Lemma place_wave_leaves_unsatisfied r g r' :
  filter (deps_satisfied g) r ≠ [] →
  r ≡ₚ select_wave r g ++ r' →
  ∀ t, t ∈ r' → ¬ deps_satisfied g t.
Proof.
  intros Hsel Hperm t Ht Hsat.
  rewrite (select_wave_selectable r g Hsel) in Hperm.
  assert (length (filter (deps_satisfied g) r')
          = 0) as Hlen.
  { assert (filter (deps_satisfied g) r
            ≡ₚ filter (deps_satisfied g) (filter (deps_satisfied g) r ++ r'))
      as Hf by (by rewrite <- Hperm).
    apply Permutation_length in Hf.
    rewrite filter_app, length_app in Hf.
    rewrite (list_filter_filter _ _ r) in Hf.
    rewrite (list_filter_iff (λ x, deps_satisfied g x ∧ deps_satisfied g x)
               (deps_satisfied g)) in Hf by tauto.
    lia. }
  apply length_zero_iff_nil in Hlen.
  by eapply filter_nil_not_elem_of.
Qed.

Lemma waves_respect_deps_take n waves :
  waves_respect_deps waves → waves_respect_deps (take n waves).
Proof.
  intros Hresp i w t d Hi Ht Hd.
  apply lookup_take_Some in Hi as [Hi Hin].
  destruct (Hresp i w t d Hi Ht Hd) as (j & w' & t' & Hj & Hw' & Ht' & Hty).
  exists j, w', t'. split; [done|]. split; [|done].
  apply lookup_take_Some. split; [done|lia].
Qed.

Lemma build_loop_step_sublist fuel acc r g :
  r ≠ [] →
  ∃ r', r ≡ₚ select_wave r g ++ r' ∧ r' `sublist_of` r ∧
    build_loop (S fuel) acc r g =
    build_loop fuel (acc ++ [select_wave r g]) r'
      (list_to_set (doc_type <$> select_wave r g) ∪ g).
Proof.
  intros Hne.
  destruct (place_wave_spec (select_wave r g) r g (select_wave_submseteq r g))
    as (r' & Hpw & Hperm).
  exists r'. split; [done|]. split; [by eapply place_wave_sublist|].
  destruct r; [done|]. cbn [build_loop]. by rewrite Hpw.
Qed.

(** The waves of a run, seen from a state of the loop: they are not
    empty, each keeps the order of [remaining], and all but the last
    respect the dependencies. *)
Lemma build_loop_shape fuel : ∀ acc r g waves,
  g = list_to_set (doc_type <$> concat acc) →
  waves_respect_deps acc →
  build_loop fuel acc r g = Ok waves →
  ∃ new, waves = acc ++ new
    ∧ Forall (λ w, w ≠ [] ∧ w `sublist_of` r) new
    ∧ waves_respect_deps (take (pred (length waves)) waves).
Proof.
  induction fuel as [|fuel IH]; intros acc r g waves Hg Hresp Hrun.
  { destruct r; [|done]. injection Hrun as <-. exists [].
    rewrite app_nil_r. split; [done|]. split; [done|].
    by apply waves_respect_deps_take. }
  destruct (decide (r = [])) as [->|Hne].
  { injection Hrun as <-. exists [].
    rewrite app_nil_r. split; [done|]. split; [done|].
    by apply waves_respect_deps_take. }
  destruct (build_loop_step_sublist fuel acc r g Hne)
    as (r' & Hperm & Hsub & Hstep).
  rewrite Hstep in Hrun. clear Hstep.
  destruct (decide (filter (deps_satisfied g) r = [])) as [Hstall|Hsel].
  - rewrite (select_wave_stalled r g Hstall) in *.
    assert (r' = []) as ->.
    { apply Permutation_length in Hperm. rewrite length_app in Hperm.
      destruct r'; [done|simpl in Hperm; lia]. }
    assert (waves = acc ++ [r]) as -> by (destruct fuel; by injection Hrun).
    exists [r]. split; [done|]. split.
    + constructor; [|done]. split; [done|reflexivity].
    + rewrite length_app. simpl. rewrite Nat.add_1_r. simpl.
      by rewrite take_app_length.
  - destruct (IH (acc ++ [select_wave r g]) r'
                (list_to_set (doc_type <$> select_wave r g) ∪ g) waves)
      as (new & -> & Hnew & Hgood).
    + rewrite concat_app, fmap_app. simpl. rewrite app_nil_r.
      rewrite list_to_set_app_L, Hg. set_solver.
    + apply waves_respect_deps_snoc; [done|].
      intros t d Ht Hd. rewrite (select_wave_selectable r g Hsel) in Ht.
      apply list_elem_of_filter in Ht as [Hsat _].
      unfold deps_satisfied in Hsat. rewrite Forall_forall in Hsat.
      specialize (Hsat d Hd). by rewrite Hg, elem_of_list_to_set in Hsat.
    + done.
    + exists (select_wave r g :: new). split; [by rewrite <- app_assoc|].
      split; [|done]. constructor.
      * split; [by apply select_wave_nonempty|apply select_wave_sublist].
      * eapply Forall_impl; [exact Hnew|]. intros w [? ?]. split; [done|].
        by etrans.
Qed.

Lemma build_loop_levelled fuel : ∀ acc r g waves,
  g = list_to_set (doc_type <$> concat acc) →
  waves_levelled acc → held_back r acc →
  build_loop fuel acc r g = Ok waves →
  waves_levelled waves.
Proof.
  induction fuel as [|fuel IH]; intros acc r g waves Hg Hlev Hheld Hrun.
  { destruct r; [|done]. by injection Hrun as <-. }
  destruct (decide (r = [])) as [->|Hne].
  { by injection Hrun as <-. }
  destruct (build_loop_step_sublist fuel acc r g Hne)
    as (r' & Hperm & Hsub & Hstep).
  rewrite Hstep in Hrun. clear Hstep.
  eapply IH; [| | |exact Hrun].
  - rewrite concat_app, fmap_app. simpl. rewrite app_nil_r.
    rewrite list_to_set_app_L, Hg. set_solver.
  - intros i w t Hi Ht.
    destruct (decide (S i < length acc)) as [Hlt|Hge].
    + rewrite lookup_app_l in Hi by done.
      destruct (Hlev i w t Hi Ht) as (d & Hd & Hnot).
      exists d. split; [done|]. by rewrite take_app_le by lia.
    + rewrite lookup_app_r in Hi by lia.
      destruct (S i - length acc) as [|k] eqn:Hk; [|by destruct k].
      injection Hi as <-.
      destruct Hheld as [->|Hheld]; [simpl in Hk; lia|].
      destruct (Hheld t) as (d & Hd & Hnot).
      { eapply elem_of_sublist; [exact Ht|]. apply select_wave_sublist. }
      exists d. split; [done|].
      rewrite take_app_le by lia.
      replace i with (pred (length acc)) by lia. done.
  - right. intros t Ht.
    rewrite length_app. simpl. rewrite Nat.add_1_r. simpl.
    rewrite take_app_length.
    destruct (decide (filter (deps_satisfied g) r = [])) as [Hstall|Hsel].
    + rewrite (select_wave_stalled r g Hstall) in Hperm.
      assert (r' = []) as ->.
      { apply Permutation_length in Hperm. rewrite length_app in Hperm.
        destruct r'; [done|simpl in Hperm; lia]. }
      by apply elem_of_nil in Ht.
    + pose proof (place_wave_leaves_unsatisfied r g r' Hsel Hperm t Ht) as Hns.
      unfold deps_satisfied in Hns.
      apply not_Forall_Exists in Hns; [|apply _].
      apply Exists_exists in Hns as (d & Hd & Hnot).
      exists d. split; [done|]. unfold compose in Hnot.
      by rewrite Hg, elem_of_list_to_set in Hnot.
Qed.

(** The plan for [templates], with the facts about it gathered. *)
Lemma plan_shape templates :
  ∃ waves,
    _build_dependency_graph (length templates) templates = Ok waves
    ∧ concat waves ≡ₚ templates
    ∧ Forall (λ w, w ≠ [] ∧ w `sublist_of` templates) waves
    ∧ waves_respect_deps (take (pred (length waves)) waves)
    ∧ waves_levelled waves.
Proof.
  destruct (build_loop_total (length templates) [] templates ∅ (le_n _))
    as (waves & Hrun & _ & Hperm & _).
  simpl in Hrun. exists waves. split; [done|]. split; [done|].
  destruct (build_loop_shape (length templates) [] templates ∅ waves)
    as (new & Hnew & Hall & Hgood); [set_solver|by intros i w t d Hi|done|].
  simpl in Hnew. subst new. split; [done|]. split; [done|].
  eapply (build_loop_levelled (length templates) [] templates ∅);
    [set_solver|by intros i w t Hi|by left|done].
Qed.

(** X1: every wave of a plan is a non-empty selection of the input, in the
    order of the input. *)
Theorem waves_nonempty_in_input_order templates :
  ∃ waves,
    _build_dependency_graph (length templates) templates = Ok waves
    ∧ Forall (λ w, w ≠ [] ∧ w `sublist_of` templates) waves.
Proof.
  destruct (plan_shape templates) as (waves & Hrun & _ & Hall & _).
  by exists waves.
Qed.

(** X2: no template waits longer than it must: a template of wave [i + 1]
    has a dependency that the waves before wave [i] do not provide. *)
Theorem waves_as_early_as_possible templates :
  ∃ waves,
    _build_dependency_graph (length templates) templates = Ok waves
    ∧ ∀ i w t, waves !! S i = Some w → t ∈ w →
        ∃ d, d ∈ dependencies t ∧ d ∉ doc_type <$> concat (take i waves).
Proof.
  destruct (plan_shape templates) as (waves & Hrun & _ & _ & _ & Hlev).
  by exists waves.
Qed.

Lemma waves_as_early_as_possible_witness :
  ∃ waves,
    _build_dependency_graph 3 [APIDoc; TechnicalSpec; PRD] = Ok waves
    ∧ ∀ i w t, waves !! S i = Some w → t ∈ w →
        ∃ d, d ∈ dependencies t ∧ d ∉ doc_type <$> concat (take i waves).
Proof. exact (waves_as_early_as_possible [APIDoc; TechnicalSpec; PRD]). Defined.

(** X3: only the last wave of a plan can hold a template scheduled before its
    dependencies: the plan without its last wave respects them. *)
Theorem only_last_wave_degraded templates :
  ∃ waves,
    _build_dependency_graph (length templates) templates = Ok waves
    ∧ waves_respect_deps (take (pred (length waves)) waves).
Proof.
  destruct (plan_shape templates) as (waves & Hrun & _ & _ & Hgood & _).
  by exists waves.
Qed.

(** X4: for a template set with no dependency cycle, the plan respects the
    dependencies exactly when no dependency is missing from the set. *)
Theorem acyclic_plan_respects_iff_closed templates :
  acyclic templates →
  ∃ waves,
    _build_dependency_graph (length templates) templates = Ok waves
    ∧ (waves_respect_deps waves ↔ deps_closed templates).
Proof.
  intros Hacyc.
  destruct (plan_shape templates) as (waves & Hrun & Hperm & _).
  exists waves. split; [done|]. split.
  - intros Hresp t d Ht Hd.
    rewrite <- Hperm in Ht.
    destruct (elem_of_concat_lookup _ _ Ht) as (i & w & Hi & Htw).
    destruct (Hresp i w t d Hi Htw Hd) as (j & w' & t' & _ & Hj & Ht' & Hty).
    exists t'. split; [|done]. rewrite <- Hperm.
    apply list_elem_of_In, in_concat. exists w'.
    split; apply list_elem_of_In; [by eapply list_elem_of_lookup_2|done].
  - intros Hclosed.
    eapply (build_loop_respects templates); [done|done| |exact Hrun].
    split; simpl; [done|set_solver|]. by intros i w t d Hi.
Qed.

Lemma acyclic_plan_respects_iff_closed_witness :
  acyclic [PRD; APIDoc]
  ∧ ∃ waves,
      _build_dependency_graph 2 [PRD; APIDoc] = Ok waves
      ∧ (waves_respect_deps waves ↔ deps_closed [PRD; APIDoc]).
Proof.
  assert (acyclic [PRD; APIDoc]) as Hacyc.
  { apply (ranked_acyclic
             (λ d, if decide (d = "TechnicalSpec") then 0 else 1)).
    solve_ranked. }
  split; [exact Hacyc|].
  exact (acyclic_plan_respects_iff_closed [PRD; APIDoc] Hacyc).
Defined.

End SchedulerFacts.
(** ** The content stream and the generation of one document *)

Module ContentStreamFacts.
Import ContentStream.

Lemma substring_nil n m : String.substring n m "" = "".
Proof. by destruct n, m. Qed.

Lemma substring_zero_len n (s : string) : String.substring n 0 s = "".
Proof.
  revert n. induction s as [|c s IH]; intros [|n]; simpl; try done.
Qed.

Lemma substring_full (s : string) : String.substring 0 (String.length s) s = s.
Proof. induction s as [|c s IH]; simpl; [done|]. by rewrite IH. Qed.

Lemma substring_length n m (s : string) :
  String.length (String.substring n m s) = m `min` (String.length s - n).
Proof.
  revert n m. induction s as [|c s IH]; intros n m.
  - rewrite substring_nil. simpl. lia.
  - destruct n as [|n]; simpl.
    + destruct m as [|m]; simpl; [done|]. rewrite IH. lia.
    + rewrite IH. done.
Qed.

(** A slice cut in two. *)
Lemma substring_app n a b (s : string) :
  String.substring n (a + b) s
  = String.substring n a s +:+ String.substring (n + a) b s.
Proof.
  revert n a. induction s as [|c s IH]; intros n a.
  - by rewrite !substring_nil.
  - destruct n as [|n]; simpl.
    + destruct a as [|a]; [done|].
      change (String c (String.substring 0 (a + b) s)
              = String c (String.substring 0 a s
                          +:+ String.substring (0 + a) b s)).
      by rewrite (IH 0 a).
    + apply IH.
Qed.

(** A slice that reaches beyond the end stops at the end. *)
Lemma substring_clip n m (s : string) :
  String.length s - n ≤ m →
  String.substring n m s = String.substring n (String.length s - n) s.
Proof.
  revert n m. induction s as [|c s IH]; intros n m Hm.
  - by rewrite !substring_nil.
  - destruct n as [|n]; simpl in *.
    + destruct m as [|m]; [lia|]. f_equal. rewrite (IH 0 m) by lia.
      by rewrite Nat.sub_0_r.
    + by apply IH.
Qed.

Lemma append_cons x (a b : string) : String x a +:+ b = String x (a +:+ b).
Proof. reflexivity. Qed.

Lemma append_assoc (a b c : string) : (a +:+ b) +:+ c = a +:+ (b +:+ c).
Proof.
  induction a as [|x a IH]; [done|]. by rewrite !append_cons, IH.
Qed.

Lemma append_nil_r (a : string) : a +:+ "" = a.
Proof. induction a as [|x a IH]; [done|]. by rewrite append_cons, IH. Qed.

Lemma append_length (a b : string) :
  String.length (a +:+ b) = String.length a + String.length b.
Proof.
  induction a as [|x a IH]; [done|]. rewrite append_cons. simpl. by rewrite IH.
Qed.

Lemma range_from_joined (s : string) step fuel : ∀ i,
  0 < step → String.length s - i ≤ fuel →
  joined ((λ j, str_slice s j (j + step))
            <$> range_from fuel i (String.length s) step)
  = String.substring i (String.length s - i) s.
Proof.
  intros i Hstep. revert i.
  induction fuel as [|fuel IH]; intros i Hfuel; simpl.
  - replace (String.length s - i) with 0 by lia. by rewrite substring_zero_len.
  - case_decide as Hi; simpl.
    + rewrite IH by lia. unfold str_slice.
      replace (i + step - i) with step by lia.
      destruct (decide (step ≤ String.length s - i)) as [Hle|Hgt].
      * rewrite <- substring_app. f_equal. lia.
      * replace (String.length s - (i + step)) with 0 by lia.
        rewrite substring_zero_len, append_nil_r.
        apply substring_clip. lia.
    + replace (String.length s - i) with 0 by lia.
      by rewrite substring_zero_len.
Qed.

Lemma range_from_chunks (s : string) step fuel : ∀ i,
  0 < step → String.length s - i ≤ fuel →
  Forall (λ c, 0 < String.length c ≤ step)
    ((λ j, str_slice s j (j + step))
       <$> range_from fuel i (String.length s) step).
Proof.
  intros i Hstep. revert i.
  induction fuel as [|fuel IH]; intros i Hfuel; simpl; [done|].
  case_decide as Hi; simpl; [|done].
  constructor; [|apply IH; lia].
  unfold str_slice. rewrite substring_length. lia.
Qed.

Lemma chunked_joined_aux content chunk_size :
  0 < chunk_size → joined (chunked content chunk_size) = content.
Proof.
  intros Hsize. unfold chunked, py_range.
  rewrite range_from_joined by lia.
  by rewrite Nat.sub_0_r, substring_full.
Qed.

(** X5: the chunks of a content put end to end give the content back, and no
    chunk is empty or longer than the chunk size. *)
Theorem chunked_joined content chunk_size :
  0 < chunk_size →
  joined (chunked content chunk_size) = content
  ∧ Forall (λ c, 0 < String.length c ≤ chunk_size) (chunked content chunk_size).
Proof.
  intros Hsize. split.
  - by apply chunked_joined_aux.
  - unfold chunked, py_range. apply range_from_chunks; lia.
Qed.

Lemma chunked_joined_witness :
  0 < 50
  ∧ joined (chunked DocGenerator.fifty 50) = DocGenerator.fifty
  ∧ Forall (λ c, 0 < String.length c ≤ 50) (chunked DocGenerator.fifty 50).
Proof. split; [lia|]. apply (chunked_joined DocGenerator.fifty 50). lia. Defined.

Lemma range_from_lookup stop step fuel : ∀ i k,
  0 < step → stop - i ≤ fuel →
  range_from fuel i stop step !! k
  = if decide (i + k * step < stop) then Some (i + k * step) else None.
Proof.
  induction fuel as [|fuel IH]; intros i k Hstep Hfuel; simpl.
  - rewrite decide_False by lia. done.
  - case_decide as Hi.
    + destruct k as [|k]; simpl.
      * rewrite decide_True by lia. f_equal. lia.
      * rewrite IH by lia.
        destruct (decide (i + step + k * step < stop)).
        -- rewrite decide_True by lia. f_equal. lia.
        -- rewrite decide_False by lia. done.
    + rewrite decide_False by nia. done.
Qed.

(** X6: the chunk of index [k] is the slice of [chunk_size] characters that
    starts at [k * chunk_size], and there is one as long as this start
    is inside the content: every chunk but the last is full, and there
    are as many chunks as the length divided by the size, rounded up. *)
Theorem chunked_lookup content chunk_size k :
  0 < chunk_size →
  chunked content chunk_size !! k
  = if decide (k * chunk_size < String.length content)
    then Some (String.substring (k * chunk_size) chunk_size content)
    else None.
Proof.
  intros Hsize. unfold chunked, py_range.
  rewrite list_lookup_fmap, range_from_lookup by lia. simpl.
  case_decide; [|done]. simpl. unfold str_slice. do 2 f_equal. lia.
Qed.

Lemma chunked_lookup_witness :
  0 < 50
  ∧ chunked (DocGenerator.fifty +:+ "tail") 50 !! 1 = Some "tail"
  ∧ chunked (DocGenerator.fifty +:+ "tail") 50 !! 2 = None.
Proof.
  assert (0 < 50) as Hsize by lia.
  split; [exact Hsize|]. split.
  - exact (chunked_lookup (DocGenerator.fifty +:+ "tail") 50 1 Hsize).
  - exact (chunked_lookup (DocGenerator.fifty +:+ "tail") 50 2 Hsize).
Defined.

End ContentStreamFacts.
(** ** Subscriptions, broadcasts and the connection handler *)

Module ConnectionsFacts.
Import Streaming StreamingFacts Connections.

Implicit Types (m : gmap string (gset positive)) (mgr : ConnectionManager).
Implicit Types (net : Net) (message : dict) (ws : WebSocket).

Lemma bucket_discard_absent sid ws m :
  m !! sid = None → bucket_discard sid ws m = m.
Proof. unfold bucket_discard. by intros ->. Qed.

Lemma bucket_discard_present sid ws m b :
  m !! sid = Some b →
  bucket_discard sid ws m
  = if decide (b ∖ {[ws]} = ∅) then delete sid m
    else <[sid := b ∖ {[ws]}]> m.
Proof. unfold bucket_discard. by intros ->. Qed.

Lemma bucket_discard_add sid ws m :
  ws ∉ default ∅ (m !! sid) → (∀ b, m !! sid = Some b → b ≠ ∅) →
  bucket_discard sid ws (bucket_add sid ws m) = m.
Proof.
  intros Hnot Hne. unfold bucket_add.
  erewrite bucket_discard_present by apply lookup_insert_eq.
  destruct (m !! sid) as [b|] eqn:Hm; simpl in *.
  - assert (({[ws]} ∪ b) ∖ {[ws]} = b) as -> by set_solver.
    rewrite decide_False by (by apply Hne).
    rewrite insert_insert_eq. by apply insert_id.
  - assert (({[ws]} ∪ ∅) ∖ {[ws]} = (∅ : gset positive)) as -> by set_solver.
    rewrite decide_True by done. by apply delete_insert_id.
Qed.

Lemma bucket_add_idemp sid ws m :
  bucket_add sid ws (bucket_add sid ws m) = bucket_add sid ws m.
Proof.
  unfold bucket_add. rewrite lookup_insert_eq. simpl.
  rewrite insert_insert_eq. f_equal. set_solver.
Qed.

Lemma bucket_discard_idemp sid ws m :
  bucket_discard sid ws (bucket_discard sid ws m) = bucket_discard sid ws m.
Proof.
  destruct (m !! sid) as [b|] eqn:Hm.
  - rewrite (bucket_discard_present _ _ _ _ Hm). case_decide as He.
    + apply bucket_discard_absent, lookup_delete_eq.
    + erewrite bucket_discard_present by apply lookup_insert_eq.
      assert ((b ∖ {[ws]}) ∖ {[ws]} = b ∖ {[ws]}) as -> by set_solver.
      rewrite decide_False by done. by rewrite insert_insert_eq.
  - rewrite (bucket_discard_absent _ _ _ Hm).
    by apply bucket_discard_absent.
Qed.

Lemma bucket_add_nonempty sid ws m :
  (∀ k b, m !! k = Some b → b ≠ ∅) →
  ∀ k b, bucket_add sid ws m !! k = Some b → b ≠ ∅.
Proof.
  intros Hm k b. unfold bucket_add.
  destruct (decide (k = sid)) as [->|Hne].
  - rewrite lookup_insert_eq. intros [= <-]. set_solver.
  - rewrite lookup_insert_ne by done. apply Hm.
Qed.

Lemma bucket_discard_nonempty sid ws m :
  (∀ k b, m !! k = Some b → b ≠ ∅) →
  ∀ k b, bucket_discard sid ws m !! k = Some b → b ≠ ∅.
Proof.
  intros Hm k b.
  destruct (m !! sid) as [b0|] eqn:Hsid.
  - rewrite (bucket_discard_present _ _ _ _ Hsid). case_decide as He.
    + destruct (decide (k = sid)) as [->|Hne].
      * by rewrite lookup_delete_eq.
      * rewrite lookup_delete_ne by done. apply Hm.
    + destruct (decide (k = sid)) as [->|Hne].
      * rewrite lookup_insert_eq. by intros [= <-].
      * rewrite lookup_insert_ne by done. apply Hm.
  - rewrite (bucket_discard_absent _ _ _ Hsid). apply Hm.
Qed.

Lemma bucket_discard_not_elem sid ws m :
  ws ∉ default ∅ (bucket_discard sid ws m !! sid).
Proof.
  destruct (m !! sid) as [b0|] eqn:Hsid.
  - rewrite (bucket_discard_present _ _ _ _ Hsid). case_decide as He.
    + rewrite lookup_delete_eq. set_solver.
    + rewrite lookup_insert_eq. set_solver.
  - rewrite (bucket_discard_absent _ _ _ Hsid), Hsid. set_solver.
Qed.

(** X7: [connect] and [disconnect] never leave an empty set under a key. *)
Theorem connect_disconnect_keep_buckets_nonempty mgr ws scope scope_id :
  no_empty_bucket mgr →
  no_empty_bucket (connect mgr ws scope scope_id)
  ∧ no_empty_bucket (disconnect mgr ws scope scope_id).
Proof.
  intros [Hp Hd]. unfold connect, disconnect.
  destruct (decide (scope = "global")); [done|].
  destruct (truthy_id scope_id) as [sid|]; [|done].
  destruct (decide (scope = "project")).
  { split; (split; [|done]); simpl.
    - by apply bucket_add_nonempty.
    - by apply bucket_discard_nonempty. }
  destruct (decide (scope = "document")); [|done].
  split; (split; [done|]); simpl.
  - by apply bucket_add_nonempty.
  - by apply bucket_discard_nonempty.
Qed.

Lemma no_empty_bucket_init : no_empty_bucket manager_init.
Proof. split; intros k b; simpl; by rewrite lookup_empty. Qed.

Lemma connect_disconnect_keep_buckets_nonempty_witness :
  no_empty_bucket manager_init
  ∧ no_empty_bucket (connect manager_init 1%positive "project" (Some "p"))
  ∧ no_empty_bucket (disconnect manager_init 1%positive "project" (Some "p")).
Proof.
  split; [exact no_empty_bucket_init|].
  exact (connect_disconnect_keep_buckets_nonempty manager_init 1%positive
           "project" (Some "p") no_empty_bucket_init).
Defined.

(** X8: a connection that was not registered in a scope and is connected to
    it and disconnected from it again leaves the manager as it was. *)
Theorem disconnect_after_connect mgr ws scope scope_id :
  no_empty_bucket mgr →
  ws ∉ bucket_of mgr scope scope_id →
  disconnect (connect mgr ws scope scope_id) ws scope scope_id = mgr.
Proof.
  intros [Hp Hd]. unfold connect, disconnect, bucket_of.
  destruct (decide (scope = "global")).
  { intros Hnot. destruct mgr as [p d g]. simpl in *. f_equal. set_solver. }
  destruct (truthy_id scope_id) as [sid|]; [|done].
  destruct (decide (scope = "project")).
  { intros Hnot. destruct mgr as [p d g]. simpl in *. f_equal.
    apply bucket_discard_add; [done|]. apply Hp. }
  destruct (decide (scope = "document")); [|done].
  intros Hnot. destruct mgr as [p d g]. simpl in *. f_equal.
  apply bucket_discard_add; [done|]. apply Hd.
Qed.

Lemma disconnect_after_connect_witness :
  no_empty_bucket manager_init
  ∧ ¬ (1%positive ∈ bucket_of manager_init "document" (Some "d"))
  ∧ disconnect (connect manager_init 1%positive "document" (Some "d"))
               1%positive "document" (Some "d") = manager_init.
Proof.
  assert (1%positive ∉ bucket_of manager_init "document" (Some "d")) as Hnot
    by (vm_compute; set_solver).
  split; [exact no_empty_bucket_init|]. split; [exact Hnot|].
  exact (disconnect_after_connect manager_init 1%positive "document"
           (Some "d") no_empty_bucket_init Hnot).
Defined.

(** X9: connecting twice is connecting once, and so for disconnecting. *)
Theorem connect_disconnect_idempotent mgr ws scope scope_id :
  connect (connect mgr ws scope scope_id) ws scope scope_id
  = connect mgr ws scope scope_id
  ∧ disconnect (disconnect mgr ws scope scope_id) ws scope scope_id
    = disconnect mgr ws scope scope_id.
Proof.
  unfold connect, disconnect.
  destruct (decide (scope = "global")).
  { split; simpl; f_equal; set_solver. }
  destruct (truthy_id scope_id) as [sid|]; [|done].
  destruct (decide (scope = "project")).
  { split; simpl; f_equal.
    - apply bucket_add_idemp.
    - apply bucket_discard_idemp. }
  destruct (decide (scope = "document")); [|done].
  split; simpl; f_equal.
  - apply bucket_add_idemp.
  - apply bucket_discard_idemp.
Qed.

(** *** What a connection receives *)

Lemma received_new ws message (l : list WebSocket) :
  NoDup l →
  omap (λ cm : WebSocket * dict,
          if decide (cm.1 = ws) then Some cm.2 else None)
       ((λ c, (c, message)) <$> l)
  = if decide (ws ∈ l) then [message] else [].
Proof.
  induction 1 as [|c l Hc Hl IH]; csimpl; [done|].
  - rewrite IH. destruct (decide (c = ws)) as [->|Hne].
    + rewrite decide_False by done.
      rewrite decide_True; [done|]. by left.
    + destruct (decide (ws ∈ l)) as [Hin|Hout].
      * rewrite decide_True; [done|]. by right.
      * rewrite decide_False; [done|].
        intros [->|Hin]%elem_of_cons; done.
Qed.

Lemma received_sent ws message net net' (tried : list WebSocket) :
  NoDup tried →
  delivered net'
  = delivered net
    ++ ((λ c, (c, message)) <$> filter (λ c, c ∉ closed net) tried) →
  received ws net'
  = received ws net
    ++ (if decide (ws ∈ tried ∧ ws ∉ closed net) then [message] else []).
Proof.
  intros Hl Hdel. unfold received. rewrite Hdel, omap_app. f_equal.
  rewrite received_new by by apply NoDup_filter.
  destruct (decide (ws ∈ tried ∧ ws ∉ closed net)) as [[Hin Hopen]|Hno].
  - rewrite decide_True; [done|]. by apply list_elem_of_filter.
  - rewrite decide_False; [done|].
    intros [Hopen Hin]%list_elem_of_filter. by apply Hno.
Qed.

(** Whatever the other tasks do, a broadcast sends a connection the
    message once at most, only if it is in the set found under the key
    and open, and in any case if the broadcast returns. *)
Lemma broadcast_to_received get put ws mgr key message net others :
  (ws ∉ default ∅ (get mgr !! key) ∨ ws ∈ closed net →
   received ws (broadcast_to get put mgr key message net others).1.2
   = received ws net)
  ∧ ((broadcast_to get put mgr key message net others).2 = Ok () →
     ws ∈ default ∅ (get mgr !! key) → ws ∉ closed net →
     received ws (broadcast_to get put mgr key message net others).1.2
     = received ws net ++ [message]).
Proof.
  destruct (broadcast_to_sent get put mgr key message net others)
    as (tried & Hnd & Hin & _ & Hdel & Hall).
  rewrite (received_sent ws message net _ tried Hnd Hdel). split.
  - intros Hno. rewrite decide_False; [by rewrite app_nil_r|].
    intros [Hws Hopen]. destruct Hno as [Hno|Hno]; [|done].
    by apply Hno, Hin.
  - intros Hok Hws Hopen. rewrite decide_True; [done|].
    split; [|done]. by apply Hall.
Qed.

(** A broadcast to a project that runs alone. *)
Lemma broadcast_to_project_alone mgr key message net :
  ∃ mgr' net',
    broadcast_to_project mgr key message net alone = (mgr', net', Ok ())
    ∧ closed net' = closed net
    ∧ document_connections mgr' = document_connections mgr
    ∧ global_connections mgr' = global_connections mgr
    ∧ (∀ k, default ∅ (project_connections mgr' !! k)
            = if decide (k = key)
              then default ∅ (project_connections mgr !! k) ∖ closed net
              else default ∅ (project_connections mgr !! k))
    ∧ ∀ ws, received ws net'
            = received ws net
              ++ (if decide (ws ∈ default ∅ (project_connections mgr !! key)
                             ∧ ws ∉ closed net)
                  then [message] else []).
Proof.
  unfold broadcast_to_project.
  destruct (project_connections mgr !! key) as [bucket|] eqn:Hk.
  - rewrite (broadcast_to_alone _ _ put_project_get _ _ _ _ _ Hk).
    eexists _, _. split; [done|]. simpl. do 3 (split; [done|]). split.
    + intros k. destruct (decide (k = key)) as [->|Hne].
      * by rewrite lookup_insert_eq, Hk.
      * by rewrite lookup_insert_ne.
    + intros ws.
      rewrite (received_sent ws message net (mkNet (closed net) _)
                 (elements bucket) (NoDup_elements bucket) eq_refl).
      f_equal. apply decide_ext. by rewrite elem_of_elements.
  - rewrite broadcast_to_absent by done.
    eexists _, _. split; [done|]. do 3 (split; [done|]). split.
    + intros k. destruct (decide (k = key)) as [->|Hne]; [|done].
      rewrite Hk. set_solver.
    + intros ws. rewrite decide_False by set_solver. by rewrite app_nil_r.
Qed.

(** A broadcast to a document that runs alone. *)
Lemma broadcast_to_document_alone mgr key message net :
  ∃ mgr' net',
    broadcast_to_document mgr key message net alone = (mgr', net', Ok ())
    ∧ closed net' = closed net
    ∧ project_connections mgr' = project_connections mgr
    ∧ global_connections mgr' = global_connections mgr
    ∧ (∀ k, default ∅ (document_connections mgr' !! k)
            = if decide (k = key)
              then default ∅ (document_connections mgr !! k) ∖ closed net
              else default ∅ (document_connections mgr !! k))
    ∧ ∀ ws, received ws net'
            = received ws net
              ++ (if decide (ws ∈ default ∅ (document_connections mgr !! key)
                             ∧ ws ∉ closed net)
                  then [message] else []).
Proof.
  unfold broadcast_to_document.
  destruct (document_connections mgr !! key) as [bucket|] eqn:Hk.
  - rewrite (broadcast_to_alone _ _ put_document_get _ _ _ _ _ Hk).
    eexists _, _. split; [done|]. simpl. do 3 (split; [done|]). split.
    + intros k. destruct (decide (k = key)) as [->|Hne].
      * by rewrite lookup_insert_eq, Hk.
      * by rewrite lookup_insert_ne.
    + intros ws.
      rewrite (received_sent ws message net (mkNet (closed net) _)
                 (elements bucket) (NoDup_elements bucket) eq_refl).
      f_equal. apply decide_ext. by rewrite elem_of_elements.
  - rewrite broadcast_to_absent by done.
    eexists _, _. split; [done|]. do 3 (split; [done|]). split.
    + intros k. destruct (decide (k = key)) as [->|Hne]; [|done].
      rewrite Hk. set_solver.
    + intros ws. rewrite decide_False by set_solver. by rewrite app_nil_r.
Qed.

Lemma connect_project_elem mgr ws sid :
  sid ≠ "" →
  ws ∈ default ∅ (project_connections
                    (connect mgr ws "project" (Some sid)) !! sid).
Proof.
  intros Hsid. unfold connect. simpl. rewrite decide_False by done. simpl.
  unfold bucket_add. rewrite lookup_insert_eq. set_solver.
Qed.

Lemma connect_document_elem mgr ws sid :
  sid ≠ "" →
  ws ∈ default ∅ (document_connections
                    (connect mgr ws "document" (Some sid)) !! sid).
Proof.
  intros Hsid. unfold connect. simpl. rewrite decide_False by done. simpl.
  unfold bucket_add. rewrite lookup_insert_eq. set_solver.
Qed.

(** X10: a connection that is open and was just connected to a project, or
    to a document, receives the next broadcast to it, once, when no other
    task calls the manager during the broadcast, which then returns; and
    whatever the other tasks do, it has received the message, once,
    whenever the broadcast returns. *)
Theorem broadcast_reaches_new_subscriber mgr ws sid message net :
  sid ≠ "" → ws ∉ closed net →
  ((broadcast_to_project (connect mgr ws "project" (Some sid))
      sid message net alone).2 = Ok ()
   ∧ ∀ others,
       (broadcast_to_project (connect mgr ws "project" (Some sid))
          sid message net others).2 = Ok () →
       received ws (broadcast_to_project
                      (connect mgr ws "project" (Some sid))
                      sid message net others).1.2
       = received ws net ++ [message])
  ∧ ((broadcast_to_document (connect mgr ws "document" (Some sid))
        sid message net alone).2 = Ok ()
     ∧ ∀ others,
         (broadcast_to_document (connect mgr ws "document" (Some sid))
            sid message net others).2 = Ok () →
         received ws (broadcast_to_document
                        (connect mgr ws "document" (Some sid))
                        sid message net others).1.2
         = received ws net ++ [message]).
Proof.
  intros Hsid Hopen. split; split.
  - destruct (broadcast_to_project_alone
                (connect mgr ws "project" (Some sid)) sid message net)
      as (mgr' & net' & -> & _). done.
  - intros others Hok. unfold broadcast_to_project in *.
    apply broadcast_to_received; [done| |done].
    by apply connect_project_elem.
  - destruct (broadcast_to_document_alone
                (connect mgr ws "document" (Some sid)) sid message net)
      as (mgr' & net' & -> & _). done.
  - intros others Hok. unfold broadcast_to_document in *.
    apply broadcast_to_received; [done| |done].
    by apply connect_document_elem.
Qed.

Lemma broadcast_reaches_new_subscriber_witness :
  let net := mkNet ∅ [] in
  let message := [("event", JStr "node_created")] in
  "p" ≠ "" ∧ ¬ (1%positive ∈ closed net)
  ∧ (broadcast_to_project
       (connect manager_init 1%positive "project" (Some "p"))
       "p" message net alone).2 = Ok ()
  ∧ received 1%positive
      (broadcast_to_project
         (connect manager_init 1%positive "project" (Some "p"))
         "p" message net alone).1.2
    = [message].
Proof.
  intros net message.
  assert ("p" ≠ "") as Hp by done.
  assert (1%positive ∉ closed net) as Hopen by set_solver.
  split; [exact Hp|]. split; [exact Hopen|].
  destruct (broadcast_reaches_new_subscriber manager_init 1%positive
              "p" message net Hp Hopen) as [[Hok Hrec] _].
  split; [exact Hok|]. exact (Hrec alone Hok).
Defined.

(** X11: a connection that was disconnected from a project, or from a
    document, receives no broadcast to it, whatever the other tasks do
    during the broadcast. *)
Theorem broadcast_skips_disconnected mgr ws sid message net others :
  sid ≠ "" →
  received ws (broadcast_to_project
                 (disconnect mgr ws "project" (Some sid))
                 sid message net others).1.2
  = received ws net
  ∧ received ws (broadcast_to_document
                   (disconnect mgr ws "document" (Some sid))
                   sid message net others).1.2
    = received ws net.
Proof.
  intros Hsid. split.
  - unfold broadcast_to_project. apply broadcast_to_received. left.
    unfold disconnect. simpl. rewrite decide_False by done. simpl.
    apply bucket_discard_not_elem.
  - unfold broadcast_to_document. apply broadcast_to_received. left.
    unfold disconnect. simpl. rewrite decide_False by done. simpl.
    apply bucket_discard_not_elem.
Qed.

Lemma broadcast_skips_disconnected_witness :
  let mgr :=
    connect (connect manager_init 1%positive "project" (Some "p"))
            2%positive "project" (Some "p") in
  let net := mkNet ∅ [] in
  let message := [("event", JStr "node_created")] in
  let others := [Some (Connect 1%positive "project" (Some "p"))] in
  "p" ≠ ""
  ∧ received 1%positive
      (broadcast_to_project (disconnect mgr 1%positive "project" (Some "p"))
         "p" message net others).1.2
    = [].
Proof.
  intros mgr net message others.
  assert ("p" ≠ "") as Hp by done.
  split; [exact Hp|].
  exact (proj1 (broadcast_skips_disconnected mgr 1%positive "p" message net
                  others Hp)).
Defined.

(** X12: a broadcast in which every send fails, and during which no other
    task calls the manager, leaves the key in the dictionary with an
    empty set, where [disconnect] would have deleted it. *)
Theorem broadcast_leaves_empty_bucket mgr key bucket message net :
  bucket ⊆ closed net →
  (project_connections mgr !! key = Some bucket →
   project_connections
     (broadcast_to_project mgr key message net alone).1.1 !! key
   = Some ∅)
  ∧ (document_connections mgr !! key = Some bucket →
     document_connections
       (broadcast_to_document mgr key message net alone).1.1 !! key
     = Some ∅).
Proof.
  intros Hsub. split; intros Hk.
  - unfold broadcast_to_project.
    rewrite (broadcast_to_alone _ _ put_project_get _ _ _ _ _ Hk). simpl.
    rewrite lookup_insert_eq. f_equal. set_solver.
  - unfold broadcast_to_document.
    rewrite (broadcast_to_alone _ _ put_document_get _ _ _ _ _ Hk). simpl.
    rewrite lookup_insert_eq. f_equal. set_solver.
Qed.

Lemma broadcast_leaves_empty_bucket_witness :
  let mgr := connect manager_init 1%positive "project" (Some "p") in
  let net := mkNet {[1%positive]} [] in
  ({[1%positive]} : gset positive) ⊆ closed net
  ∧ project_connections
      (broadcast_to_project mgr "p" [("event", JStr "node_created")] net
         alone).1.1
    !! "p" = Some ∅.
Proof.
  intros mgr net.
  assert (({[1%positive]} : gset positive) ⊆ closed net) as Hsub by set_solver.
  split; [exact Hsub|].
  apply (proj1 (broadcast_leaves_empty_bucket mgr "p" {[1%positive]}
                  [("event", JStr "node_created")] net Hsub)).
  by vm_compute.
Defined.

(** X13: a [broadcast_global] during which no other task calls the manager
    returns, sends the message once to every global connection whose send
    does not fail, removes exactly the others from the global set, and
    leaves the project and document dictionaries alone. *)
Theorem broadcast_global_isolates_failures mgr message net :
  let '(mgr', net', result) := broadcast_global mgr message net alone in
  result = Ok ()
  ∧ global_connections mgr' = global_connections mgr ∖ closed net
  ∧ project_connections mgr' = project_connections mgr
  ∧ document_connections mgr' = document_connections mgr
  ∧ delivered_to_open (global_connections mgr) message net net'.
Proof.
  unfold broadcast_global. rewrite send_all_alone by done. simpl.
  split; [done|]. split; [|split; [done|split; [done|]]].
  - rewrite discard_all_spec. apply set_eq. intros c.
    rewrite !elem_of_difference, elem_of_list_to_set, elem_of_elements.
    rewrite elem_of_union, elem_of_list_to_set, list_elem_of_filter,
      elem_of_elements.
    set_solver.
  - split; [done|]. eexists. split; [done|]. split.
    + apply NoDup_fmap_2; [by intros ?? [=]|].
      apply NoDup_filter, NoDup_elements.
    + intros c msg. rewrite list_elem_of_fmap. split.
      * intros (c' & [= -> ->] & Hin).
        apply list_elem_of_filter in Hin as [Hopen Hin].
        by apply elem_of_elements in Hin.
      * intros (Hin & Hopen & ->). exists c. split; [done|].
        apply list_elem_of_filter. split; [done|]. by apply elem_of_elements.
Qed.

(** *** The connection handler *)

Lemma serve_spec ws clock messages : ∀ k net,
  serve ws clock k messages net
  = mkNet (closed net)
      (delivered net
       ++ if decide (ws ∈ closed net) then []
          else (λ i, (ws, [("type", JStr "pong");
                           ("timestamp", JStr (clock i))]))
                 <$> pings k messages).
Proof.
  assert (∀ net, net = mkNet (closed net)
            (delivered net ++ if decide (ws ∈ closed net) then []
                              else (λ i, (ws, [("type", JStr "pong");
                                 ("timestamp", JStr (clock i))])) <$> []))
    as Hstop.
  { intros [c d]. simpl. destruct (decide _); by rewrite app_nil_r. }
  induction messages as [data rest IH| |msg]; intros k net;
    [|apply Hstop..].
  destruct data as [| | | | |l|d]; try apply Hstop.
  cbn [serve pings].
  destruct (dict_get "type" d) as [[| | | |t| |]|];
    try (rewrite IH; reflexivity).
  destruct (decide (t = "ping")) as [->|Hne]; [|by rewrite IH].
  rewrite IH. unfold send_personal_message, send_json.
  destruct (decide (ws ∈ closed net)) as [Hc|Hc]; simpl.
  - by rewrite decide_True.
  - rewrite decide_False by done. by rewrite <- app_assoc.
Qed.

(** X14: a handler that runs alone ends with its connection out of the scope
    it served, whatever ended the loop; it answered each ping, and only
    the pings, an object received before the end of the loop, with a
    pong to its own connection, in order, when this one is open, and sent
    nothing else. *)
Theorem handler_answers_pings_and_disconnects
    mgr ws scope scope_id clock messages net :
  let '(mgr', net') :=
    handle_websocket_connection mgr ws scope scope_id clock messages net in
  ¬ (ws ∈ bucket_of mgr' scope scope_id)
  ∧ closed net' = closed net
  ∧ delivered net'
    = delivered net
      ++ if decide (ws ∈ closed net) then []
         else (λ i, (ws, [("type", JStr "pong");
                          ("timestamp", JStr (clock i))]))
                <$> pings 0 messages.
Proof.
  unfold handle_websocket_connection. rewrite serve_spec. simpl.
  split; [|done].
  unfold disconnect, bucket_of.
  destruct (decide (scope = "global")); simpl.
  { set_solver. }
  destruct (truthy_id scope_id) as [sid|]; [|set_solver].
  destruct (decide (scope = "project")); simpl.
  { apply bucket_discard_not_elem. }
  destruct (decide (scope = "document")); simpl; [|set_solver].
  apply bucket_discard_not_elem.
Qed.

End ConnectionsFacts.
(** ** Event streams and the generation of one document *)

Module EventStreamFacts.
Import Streaming StreamingFacts Connections ContentStream ContentStreamFacts.
Import DocumentsAPI.

Lemma omap_cons_eq {A B} (f : A → option B) x (l : list A) :
  omap f (x :: l)
  = match f x with Some y => y :: omap f l | None => omap f l end.
Proof. reflexivity. Qed.

Lemma frame_progress_event document_id event_type content_chunk progress
    metadata now :
  frame_progress (to_sse (DocumentStreamEvent document_id event_type
                            content_chunk progress metadata now))
  = Some progress.
Proof.
  unfold frame_progress, to_sse, DocumentStreamEvent. cbn [sse_data data].
  destruct (truthy_dict metadata); [rewrite dict_get_set_ne by done|];
    (destruct (truthy_str content_chunk);
       [rewrite dict_get_set_ne by done|]); reflexivity.
Qed.

Lemma frame_chunk_event document_id event_type content_chunk progress
    metadata now :
  frame_chunk (to_sse (DocumentStreamEvent document_id event_type
                         content_chunk progress metadata now))
  = truthy_str content_chunk.
Proof.
  unfold frame_chunk, to_sse, DocumentStreamEvent. cbn [sse_data data].
  destruct (truthy_dict metadata); [rewrite dict_get_set_ne by done|];
    (destruct (truthy_str content_chunk);
       [rewrite dict_get_set_eq|]); reflexivity.
Qed.

Lemma py_min_le_1 a : (py_min a 1 <= 1)%Q.
Proof.
  unfold py_min. destruct (Qlt_le_dec 1 a); [apply Qle_refl|done].
Qed.

Lemma py_min_mono a b : (a <= b)%Q → (py_min a 1 <= py_min b 1)%Q.
Proof.
  intros Hab. unfold py_min.
  destruct (Qlt_le_dec 1 a) as [Ha|Ha], (Qlt_le_dec 1 b) as [Hb|Hb].
  - apply Qle_refl.
  - exfalso. apply (Qlt_irrefl 1).
    eapply Qlt_le_trans; [exact Ha|]. by eapply Qle_trans.
  - done.
  - done.
Qed.

Lemma ratio_mono (t t' : Z) :
  (t ≤ t')%Z →
  (inject_Z t / inject_Z 10000 <= inject_Z t' / inject_Z 10000)%Q.
Proof.
  intros Hle. unfold Qdiv. apply Qmult_le_compat_r; [|done].
  by rewrite <- Zle_Qle.
Qed.

Lemma progress_nonneg (t : Z) :
  (0 ≤ t)%Z → (0 <= py_min (inject_Z t / inject_Z 10000) 1)%Q.
Proof.
  intros Ht.
  apply (Qle_trans _ (py_min (inject_Z 0 / inject_Z 10000) 1)); [done|].
  by apply py_min_mono, ratio_mono.
Qed.

Lemma stream_chunks_progress document_id clock g : ∀ k total_chars,
  ∃ body last,
    omap frame_progress (stream_chunks document_id clock k total_chars g)
      = body ++ [last]
    ∧ length body = length (chunks_of g)
    ∧ Forall (λ p, (py_min (inject_Z total_chars / inject_Z 10000) 1 <= p)%Q
                   ∧ (p <= 1)%Q) body
    ∧ Sorted Qle body
    ∧ last = match failure_of g with None => 1%Q | Some _ => 0%Q end.
Proof.
  induction g as [chunk rest IH| |msg]; intros k total_chars.
  - destruct (IH (S k) (total_chars + Z.of_nat (String.length chunk))%Z)
      as (body & last & Heq & Hlen & Hall & Hsorted & Hlast).
    eexists (_ :: body), last. cbn [stream_chunks].
    rewrite omap_cons_eq, frame_progress_event, Heq.
    split; [reflexivity|]. split; [simpl; by rewrite Hlen|].
    split; [|split; [|exact Hlast]].
    + constructor.
      * split; [|apply py_min_le_1]. apply py_min_mono, ratio_mono. lia.
      * eapply Forall_impl; [exact Hall|]. intros p [Hlo Hhi].
        split; [|done]. eapply Qle_trans; [|exact Hlo].
        apply py_min_mono, ratio_mono. lia.
    + constructor; [done|]. destruct Hall as [|q body' [Hq _] _].
      * constructor.
      * constructor. exact Hq.
  - exists [], 1%Q. cbn [stream_chunks].
    rewrite omap_cons_eq, frame_progress_event. repeat split; constructor.
  - exists [], 0%Q. cbn [stream_chunks].
    rewrite omap_cons_eq, frame_progress_event. repeat split; constructor.
Qed.

(** X15: every frame of a document stream carries a progress. The progress
    starts at 0, never decreases from one chunk to the next and never
    exceeds 1; the last frame carries 1 when the generator was exhausted,
    and falls back to 0 when it raised. *)
Theorem stream_progress_monotone document_id clock g :
  ∃ body last,
    omap frame_progress (document_stream_generator document_id clock g)
      = 0%Q :: body ++ [last]
    ∧ length body = length (chunks_of g)
    ∧ Sorted Qle (0%Q :: body)
    ∧ Forall (λ p, (p <= 1)%Q) body
    ∧ last = match failure_of g with None => 1%Q | Some _ => 0%Q end.
Proof.
  destruct (stream_chunks_progress document_id clock g 1 0)
    as (body & last & Heq & Hlen & Hall & Hsorted & Hlast).
  exists body, last. unfold document_stream_generator.
  rewrite omap_cons_eq, frame_progress_event, Heq.
  split; [reflexivity|]. split; [exact Hlen|].
  split; [|split; [|exact Hlast]].
  - constructor; [done|]. destruct Hall as [|q body' [Hq _] _].
    + constructor.
    + constructor. eapply Qle_trans; [|exact Hq]. by apply progress_nonneg.
  - eapply Forall_impl; [exact Hall|]. by intros p [_ Hhi].
Qed.

Lemma stream_chunks_joined document_id clock g : ∀ k total_chars,
  joined (omap frame_chunk (stream_chunks document_id clock k total_chars g))
  = joined (chunks_of g).
Proof.
  induction g as [chunk rest IH| |msg]; intros k total_chars;
    cbn [stream_chunks chunks_of]; rewrite omap_cons_eq, frame_chunk_event.
  - simpl. destruct (decide (chunk = "")) as [->|Hne]; simpl.
    + apply IH.
    + by rewrite IH.
  - done.
  - done.
Qed.

Lemma stream_frames_joined document_id clock g :
  joined (omap frame_chunk (document_stream_generator document_id clock g))
  = joined (chunks_of g).
Proof.
  unfold document_stream_generator. rewrite omap_cons_eq, frame_chunk_event.
  simpl. apply stream_chunks_joined.
Qed.

(** X16: the [content_chunk] fields of the frames of a document stream, put
    end to end, are the chunks the generator yielded put end to end:
    the frames of empty chunks, which have no such field, lose nothing. *)
Theorem stream_frames_reassemble document_id clock g :
  joined (omap frame_chunk (document_stream_generator document_id clock g))
  = joined (chunks_of g).
Proof. apply stream_frames_joined. Qed.

Lemma chunks_of_generator chunks :
  chunks_of (content_generator_of chunks) = chunks.
Proof. induction chunks as [|c l IH]; simpl; [done|]. by rewrite IH. Qed.

Lemma stream_chunks_events document_id clock chunks : ∀ k total_chars,
  sse_event <$> stream_chunks document_id clock k total_chars
                  (content_generator_of chunks)
  = replicate (length chunks) "content_chunk" ++ ["complete"].
Proof.
  induction chunks as [|c l IH]; intros k total_chars; [done|].
  cbn [content_generator_of foldr stream_chunks]. csimpl. f_equal. apply IH.
Qed.

(** X17: the SSE endpoint, for a document that is being generated, answers
    with a [start] frame, one [content_chunk] frame per 100 characters of
    the content stored so far, and a [complete] frame; the chunks of the
    frames put end to end are that content. *)
Theorem stream_document_generation_replays_content s document_id clock doc :
  documents s !! document_id = Some doc →
  DocumentNode.is_generating doc = true →
  ∃ frames,
    stream_document_generation s document_id clock = Returns frames
    ∧ joined (omap frame_chunk frames) = DocumentNode.content doc
    ∧ sse_event <$> frames
      = "start"
        :: replicate (length (chunked (DocumentNode.content doc) 100))
             "content_chunk"
        ++ ["complete"].
Proof.
  intros Hdoc Hgen. unfold stream_document_generation.
  rewrite Hdoc, Hgen. eexists. split; [reflexivity|]. split.
  - rewrite stream_frames_joined, chunks_of_generator.
    apply chunked_joined_aux. lia.
  - unfold document_stream_generator. csimpl. f_equal.
    apply stream_chunks_events.
Qed.

Lemma stream_document_generation_replays_content_witness :
  let doc := DocumentNode.mk (mkUUID 2) (mkUUID 102) "Title" "PRD" "# PRD"
               "markdown" 1 None true true 0 None [] [] (mkUUID 9) in
  let s := mkSession {[mkUUID 2 := doc]} ∅ ∅ in
  documents s !! mkUUID 2 = Some doc
  ∧ DocumentNode.is_generating doc = true
  ∧ ∃ frames,
      stream_document_generation s (mkUUID 2) (λ _, "t") = Returns frames
      ∧ joined (omap frame_chunk frames) = "# PRD"
      ∧ sse_event <$> frames = ["start"; "content_chunk"; "complete"].
Proof.
  intros doc s.
  assert (documents s !! mkUUID 2 = Some doc) as Hdoc by done.
  assert (DocumentNode.is_generating doc = true) as Hgen by done.
  split; [exact Hdoc|]. split; [exact Hgen|].
  exact (stream_document_generation_replays_content s (mkUUID 2) (λ _, "t")
           doc Hdoc Hgen).
Defined.

End EventStreamFacts.
(** ** The generation of one document *)

Module GenerationFacts.
Import Streaming StreamingFacts Connections ConnectionsFacts.
Import ContentStream ContentStreamFacts DocGenerator.

Lemma dict_get_In k v (d : dict) : dict_get k d = Some v → In (k, v) d.
Proof.
  induction d as [|[k' v'] d IH]; simpl; [done|].
  destruct (decide (k = k')) as [->|Hne].
  - intros [= ->]. by left.
  - intros Hk. right. by apply IH.
Qed.

(** The context of the endpoint always holds [project_name], which the
    call to [format] passes by name as well. *)
Lemma format_kwargs_endpoint request_context project_name description :
  ∃ key,
    format_kwargs (endpoint_context request_context project_name description)
    = Raise (multiple_values key)
    ∧ (key = "project_name" ∨ key = "context").
Proof.
  unfold format_kwargs.
  set (context := endpoint_context request_context project_name description).
  destruct (List.find _ context) as [[key v]|] eqn:Hfind.
  - apply List.find_some in Hfind as [_ Hkey].
    apply bool_decide_eq_true in Hkey. by exists key.
  - exfalso.
    assert (dict_get "project_name" context = Some (JStr project_name))
      as Hname.
    { unfold context, endpoint_context. rewrite dict_get_set_ne by done.
      apply dict_get_set_eq. }
    apply dict_get_In in Hname.
    pose proof (List.find_none _ _ Hfind _ Hname) as Hno.
    apply bool_decide_eq_false in Hno. apply Hno. by left.
Qed.

(** The loop over the chunks, for a template with a size estimate. *)
Lemma stream_content_ok document_id template :
  estimated_tokens template ≠ 0%Z →
  ∀ chunks full_content mgr net0,
  ∃ mgr' net',
    stream_content document_id template chunks full_content mgr net0
      = (mgr', net', Ok (full_content +:+ joined chunks))
    ∧ closed net' = closed net0.
Proof.
  intros Hest. induction chunks as [|chunk rest IH];
    intros full_content mgr net0.
  - exists mgr, net0. simpl. by rewrite append_nil_r.
  - cbn [stream_content].
    destruct (content_chunk_message document_id chunk
                (full_content +:+ chunk) template) as [message| |] eqn:Hmsg;
      [|unfold content_chunk_message in Hmsg;
        rewrite decide_False in Hmsg by done; done..].
    destruct (broadcast_to_document_alone mgr (uuid_str document_id)
                message net0) as (mgr1 & net1 & -> & Hclosed & _).
    destruct (IH (full_content +:+ chunk) mgr1 net1)
      as (mgr' & net' & Hrun & Hclosed').
    exists mgr', net'. rewrite Hrun. split; [|congruence].
    simpl. by rewrite append_assoc.
Qed.

Lemma generate_single_document_run w project_id template context chunks
    graph_node_id doc_node_id :
  estimated_tokens template ≠ 0%Z →
  render_prompt template context = Ok () →
  graph_nodes (session w) !! graph_node_id = None →
  documents (session w) !! doc_node_id = None →
  ∃ w',
    _generate_single_document w project_id template context chunks
      (graph_node_id, doc_node_id)
      = (w', Ok (doc_node_id, joined chunks))
    ∧ documents (session w')
      = <[doc_node_id :=
            DocumentNode.mk doc_node_id graph_node_id (title template)
              (doc_type template) (joined chunks) "markdown" 1 None true
              false 1 (Some "swarm_coordinator") [] [] project_id]>
          (documents (session w))
    ∧ (∃ n, graph_nodes (session w') !! graph_node_id = Some n
            ∧ GraphNode.node_type n = DOCUMENT).
Proof.
  intros Hest Hrender Hg Hd. unfold _generate_single_document.
  rewrite decide_False by (rewrite Hg; by intros [? [=]]).
  set (created := [("event", JStr "node_created"); _]).
  destruct (broadcast_to_project_alone (manager w) (uuid_str project_id)
              created (net w)) as (mgr1 & net1 & -> & _).
  rewrite decide_False by (simpl; rewrite Hd; by intros [? [=]]).
  rewrite Hrender.
  destruct (stream_content_ok doc_node_id template Hest chunks "" mgr1 net1)
    as (mgr2 & net2 & -> & _).
  set (complete := [("event", JStr "generation_complete"); _]).
  destruct (broadcast_to_document_alone mgr2 (uuid_str doc_node_id)
              complete net2) as (mgr3 & net3 & -> & _).
  eexists. split; [reflexivity|]. simpl. split.
  - unfold DocumentNode.set_generated. simpl. by rewrite insert_insert_eq.
  - eexists. split; [apply lookup_insert_eq|done].
Qed.

(** What a generation leaves behind when the prompt does not render: the
    graph node and the empty row of the document, flagged as being
    generated, and the announcement of the node as the only message. *)
Lemma generate_single_document_prompt_fails w project_id template context
    chunks graph_node_id doc_node_id e :
  render_prompt template context = Raise e →
  graph_nodes (session w) !! graph_node_id = None →
  documents (session w) !! doc_node_id = None →
  ∃ w' doc,
    _generate_single_document w project_id template context chunks
      (graph_node_id, doc_node_id)
      = (w', Raise e)
    ∧ documents (session w') !! doc_node_id = Some doc
    ∧ DocumentNode.is_generating doc = true
    ∧ DocumentNode.content doc = ""
    ∧ DocumentNode.generation_progress doc = 0%Q
    ∧ (∃ n, graph_nodes (session w') !! graph_node_id = Some n
            ∧ GraphNode.node_type n = DOCUMENT)
    ∧ net w'
      = (broadcast_to_project (manager w) (uuid_str project_id)
           [("event", JStr "node_created");
            ("data", JDict [("node_id", JStr (uuid_str graph_node_id));
                            ("node_type", JStr "document");
                            ("label", JStr (title template))])]
           (net w) alone).1.2.
Proof.
  intros Hrender Hg Hd. unfold _generate_single_document.
  rewrite decide_False by (rewrite Hg; by intros [? [=]]).
  set (created := [("event", JStr "node_created"); _]).
  destruct (broadcast_to_project_alone (manager w) (uuid_str project_id)
              created (net w)) as (mgr1 & net1 & -> & _).
  rewrite decide_False by (simpl; rewrite Hd; by intros [? [=]]).
  rewrite Hrender.
  eexists _, _. split; [reflexivity|]. simpl.
  split; [apply lookup_insert_eq|]. do 3 (split; [done|]).
  split; [|done]. eexists. split; [apply lookup_insert_eq|done].
Qed.

(** X18: for a generation that runs alone, with fresh identifiers, a context
    with which the prompt of the template renders and a template whose
    size estimate is not 0: [_generate_single_document] returns the
    document identifier with the chunks of the content stream put end to
    end, stores exactly that as the content of a first, latest version
    that is no longer generating and has progress 1, changes no other
    document, and creates the graph node of type [document] the row
    points to. *)
Theorem generate_single_document_stores_stream w project_id template context
    chunks graph_node_id doc_node_id :
  estimated_tokens template ≠ 0%Z →
  render_prompt template context = Ok () →
  graph_nodes (session w) !! graph_node_id = None →
  documents (session w) !! doc_node_id = None →
  ∃ w' doc,
    _generate_single_document w project_id template context chunks
      (graph_node_id, doc_node_id)
      = (w', Ok (doc_node_id, joined chunks))
    ∧ documents (session w') !! doc_node_id = Some doc
    ∧ DocumentNode.content doc = joined chunks
    ∧ DocumentNode.is_generating doc = false
    ∧ DocumentNode.generation_progress doc = 1%Q
    ∧ DocumentNode.version doc = 1%Z
    ∧ DocumentNode.is_latest doc = true
    ∧ DocumentNode.parent_version_id doc = None
    ∧ (∃ n, graph_nodes (session w') !! DocumentNode.graph_node_id doc
              = Some n
            ∧ GraphNode.node_type n = DOCUMENT)
    ∧ ∀ k, k ≠ doc_node_id →
        documents (session w') !! k = documents (session w) !! k.
Proof.
  intros Hest Hrender Hg Hd.
  destruct (generate_single_document_run w project_id template context
              chunks graph_node_id doc_node_id Hest Hrender Hg Hd)
    as (w' & Hrun & Hdocs & Hnode).
  eexists w', _. split; [exact Hrun|].
  split; [rewrite Hdocs; apply lookup_insert_eq|].
  repeat (split; [done|]).
  intros k Hk. rewrite Hdocs. by apply lookup_insert_ne.
Qed.

Lemma generate_single_document_stores_stream_witness :
  let w := mkWorld (mkSession ∅ ∅ ∅) manager_init (mkNet ∅ []) in
  let context := [("description", JStr "A planning tool")] in
  ∃ w' doc,
    _generate_single_document w (mkUUID 9) PRD context ["# P"; "RD"]
      (mkUUID 101, mkUUID 1)
      = (w', Ok (mkUUID 1, "# PRD"))
    ∧ documents (session w') !! mkUUID 1 = Some doc
    ∧ DocumentNode.content doc = "# PRD".
Proof.
  intros w context.
  assert (estimated_tokens PRD ≠ 0%Z) as Hest by done.
  assert (render_prompt PRD context = Ok ()) as Hrender by (by vm_compute).
  assert (graph_nodes (session w) !! mkUUID 101 = None) as Hg by done.
  assert (documents (session w) !! mkUUID 1 = None) as Hd by done.
  destruct (generate_single_document_stores_stream w (mkUUID 9) PRD context
              ["# P"; "RD"] (mkUUID 101) (mkUUID 1) Hest Hrender Hg Hd)
    as (w' & doc & Hrun & Hdoc & Hcontent & _).
  exists w', doc. split; [exact Hrun|]. split; [exact Hdoc|exact Hcontent].
Defined.

(** X19: for a generation that runs alone with a context with which the
    prompt renders, and the placeholder stream of
    [generate_content_stream]: the content stored for the document is the
    placeholder text of its type, or the default text when the type has
    none: nothing is lost or added by the cutting into chunks of 50
    characters and the gluing back. *)
Theorem generated_document_holds_placeholder w project_id template context
    content_map default_content graph_node_id doc_node_id :
  estimated_tokens template ≠ 0%Z →
  render_prompt template context = Ok () →
  graph_nodes (session w) !! graph_node_id = None →
  documents (session w) !! doc_node_id = None →
  let text := default default_content (content_map (doc_type template)) in
  ∃ w' doc,
    _generate_single_document w project_id template context
      (generate_content_stream content_map default_content
         (doc_type template))
      (graph_node_id, doc_node_id)
    = (w', Ok (doc_node_id, text))
    ∧ documents (session w') !! doc_node_id = Some doc
    ∧ DocumentNode.content doc = text
    ∧ DocumentNode.is_generating doc = false.
Proof.
  intros Hest Hrender Hg Hd text.
  destruct (generate_single_document_run w project_id template context
              (generate_content_stream content_map default_content
                 (doc_type template))
              graph_node_id doc_node_id Hest Hrender Hg Hd)
    as (w' & Hrun & Hdocs & _).
  assert (joined (generate_content_stream content_map default_content
                    (doc_type template)) = text) as Hjoin.
  { unfold generate_content_stream. apply chunked_joined_aux. lia. }
  rewrite Hjoin in Hrun, Hdocs.
  eexists w', _. split; [exact Hrun|].
  split; [rewrite Hdocs; apply lookup_insert_eq|]. done.
Qed.

Lemma generated_document_holds_placeholder_witness :
  let w := mkWorld (mkSession ∅ ∅ ∅) manager_init (mkNet ∅ []) in
  let context := [("description", JStr "A planning tool")] in
  let content_map := λ doc_type : string,
    if decide (doc_type = "PRD") then Some "# Product Requirements Document"
    else None in
  ∃ w' doc,
    _generate_single_document w (mkUUID 9) PRD context
      (generate_content_stream content_map "# Document" "PRD")
      (mkUUID 101, mkUUID 1)
    = (w', Ok (mkUUID 1, "# Product Requirements Document"))
    ∧ documents (session w') !! mkUUID 1 = Some doc
    ∧ DocumentNode.content doc = "# Product Requirements Document"
    ∧ DocumentNode.is_generating doc = false.
Proof.
  intros w context content_map.
  assert (estimated_tokens PRD ≠ 0%Z) as Hest by done.
  assert (render_prompt PRD context = Ok ()) as Hrender by (by vm_compute).
  assert (graph_nodes (session w) !! mkUUID 101 = None) as Hg by done.
  assert (documents (session w) !! mkUUID 1 = None) as Hd by done.
  exact (generated_document_holds_placeholder w (mkUUID 9) PRD context
           content_map "# Document" (mkUUID 101) (mkUUID 1)
           Hest Hrender Hg Hd).
Defined.

(** X20: with the context the endpoint [generate_documents] builds, which
    always carries [project_name], a generation that runs alone with
    fresh identifiers raises the [TypeError] of a keyword given twice
    when it formats the prompt, whatever the template: no chunk is
    streamed, the only message sent is the announcement of the graph
    node, and the graph node and the row of the document stay behind,
    the row empty and flagged as being generated. *)
Theorem generation_with_endpoint_context_raises w project_id template
    request_context project_name description chunks graph_node_id
    doc_node_id :
  graph_nodes (session w) !! graph_node_id = None →
  documents (session w) !! doc_node_id = None →
  ∃ w' key doc,
    _generate_single_document w project_id template
      (endpoint_context request_context project_name description) chunks
      (graph_node_id, doc_node_id)
      = (w', Raise (multiple_values key))
    ∧ (key = "project_name" ∨ key = "context")
    ∧ documents (session w') !! doc_node_id = Some doc
    ∧ DocumentNode.is_generating doc = true
    ∧ DocumentNode.content doc = ""
    ∧ DocumentNode.generation_progress doc = 0%Q
    ∧ (∃ n, graph_nodes (session w') !! graph_node_id = Some n
            ∧ GraphNode.node_type n = DOCUMENT)
    ∧ net w'
      = (broadcast_to_project (manager w) (uuid_str project_id)
           [("event", JStr "node_created");
            ("data", JDict [("node_id", JStr (uuid_str graph_node_id));
                            ("node_type", JStr "document");
                            ("label", JStr (title template))])]
           (net w) alone).1.2.
Proof.
  intros Hg Hd.
  destruct (format_kwargs_endpoint request_context project_name description)
    as (key & Hkwargs & Hkey).
  assert (render_prompt template
            (endpoint_context request_context project_name description)
          = Raise (multiple_values key)) as Hrender.
  { unfold render_prompt. by rewrite Hkwargs. }
  destruct (generate_single_document_prompt_fails w project_id template _
              chunks graph_node_id doc_node_id _ Hrender Hg Hd)
    as (w' & doc & Hrun & Hrest).
  by exists w', key, doc.
Qed.

Lemma generation_with_endpoint_context_raises_witness :
  let w := mkWorld (mkSession ∅ ∅ ∅) manager_init (mkNet ∅ []) in
  let context := endpoint_context None "Planner" "A planning tool" in
  ∃ w' key doc,
    _generate_single_document w (mkUUID 9) PRD context ["# P"; "RD"]
      (mkUUID 101, mkUUID 1)
      = (w', Raise (multiple_values key))
    ∧ (key = "project_name" ∨ key = "context")
    ∧ documents (session w') !! mkUUID 1 = Some doc
    ∧ DocumentNode.is_generating doc = true
    ∧ net w' = mkNet ∅ [].
Proof.
  intros w context.
  assert (graph_nodes (session w) !! mkUUID 101 = None) as Hg by done.
  assert (documents (session w) !! mkUUID 1 = None) as Hd by done.
  destruct (generation_with_endpoint_context_raises w (mkUUID 9) PRD None
              "Planner" "A planning tool" ["# P"; "RD"] (mkUUID 101)
              (mkUUID 1) Hg Hd)
    as (w' & key & doc & Hrun & Hkey & Hdoc & Hgen & _ & _ & _ & Hnet).
  exists w', key, doc.
  split; [exact Hrun|]. split; [exact Hkey|]. split; [exact Hdoc|].
  split; [exact Hgen|]. rewrite Hnet. reflexivity.
Defined.

(** X21: for a generation that runs alone with a context with which the
    prompt renders, and a template whose size estimate is 0: the first
    chunk raises [ZeroDivisionError], nothing is sent for the document,
    and the row committed before the loop stays as it was, empty and
    flagged as being generated. *)
Theorem zero_estimate_leaves_document_generating w project_id template
    context chunk rest graph_node_id doc_node_id :
  estimated_tokens template = 0%Z →
  render_prompt template context = Ok () →
  graph_nodes (session w) !! graph_node_id = None →
  documents (session w) !! doc_node_id = None →
  ∃ w' doc,
    _generate_single_document w project_id template context (chunk :: rest)
      (graph_node_id, doc_node_id)
      = (w', Raise ZeroDivisionError)
    ∧ documents (session w') !! doc_node_id = Some doc
    ∧ DocumentNode.is_generating doc = true
    ∧ DocumentNode.content doc = ""
    ∧ DocumentNode.generation_progress doc = 0%Q
    ∧ net w'
      = (broadcast_to_project (manager w) (uuid_str project_id)
           [("event", JStr "node_created");
            ("data", JDict [("node_id", JStr (uuid_str graph_node_id));
                            ("node_type", JStr "document");
                            ("label", JStr (title template))])]
           (net w) alone).1.2.
Proof.
  intros Hest Hrender Hg Hd. unfold _generate_single_document.
  rewrite decide_False by (rewrite Hg; by intros [? [=]]).
  set (created := [("event", JStr "node_created"); _]).
  destruct (broadcast_to_project_alone (manager w) (uuid_str project_id)
              created (net w)) as (mgr1 & net1 & -> & _).
  rewrite decide_False by (simpl; rewrite Hd; by intros [? [=]]).
  rewrite Hrender.
  cbn [stream_content]. unfold content_chunk_message.
  rewrite decide_True by done.
  eexists _, _. split; [reflexivity|]. simpl.
  split; [apply lookup_insert_eq|]. done.
Qed.

Lemma zero_estimate_leaves_document_generating_witness :
  let w := mkWorld (mkSession ∅ ∅ ∅) manager_init (mkNet ∅ []) in
  let template :=
    mkTemplate "Notes" "Notes" "Write notes for {project_name}." [] 0 in
  let context := [("description", JStr "A planning tool")] in
  ∃ w' doc,
    _generate_single_document w (mkUUID 9) template context ["# N"; "otes"]
      (mkUUID 101, mkUUID 1)
      = (w', Raise ZeroDivisionError)
    ∧ documents (session w') !! mkUUID 1 = Some doc
    ∧ DocumentNode.is_generating doc = true.
Proof.
  intros w template context.
  assert (estimated_tokens template = 0%Z) as Hest by done.
  assert (render_prompt template context = Ok ()) as Hrender
    by (by vm_compute).
  assert (graph_nodes (session w) !! mkUUID 101 = None) as Hg by done.
  assert (documents (session w) !! mkUUID 1 = None) as Hd by done.
  destruct (zero_estimate_leaves_document_generating w (mkUUID 9) template
              context "# N" ["otes"] (mkUUID 101) (mkUUID 1)
              Hest Hrender Hg Hd)
    as (w' & doc & Hrun & Hdoc & Hgen & _).
  exists w', doc. split; [exact Hrun|]. split; [exact Hdoc|exact Hgen].
Defined.

End GenerationFacts.
(** ** Version stacks, reverts and the stacking of graph nodes *)

Module VersionStackFacts.
Import VersionManager VersionManagerFacts VersionStacks StreamingFacts.

Implicit Types (s : Session) (d c : DocumentNode.t) (l : list DocumentNode.t).

Lemma chain_inv_root s r l :
  chain_inv s r l →
  ∃ root, l !! 0 = Some root ∧ DocumentNode.id root = r
          ∧ documents s !! r = Some root.
Proof.
  intros Hinv. pose proof (ci_head s r l Hinv) as Hhead.
  destruct (l !! 0) as [root|] eqn:H0; [|done].
  simpl in Hhead. injection Hhead as Hid.
  exists root. split; [done|]. split; [done|].
  destruct (ci_nodes s r l Hinv 0 root H0) as (Hd & _). by rewrite <- Hid.
Qed.

Lemma chain_inv_lookup_inj s r l i j d :
  chain_inv s r l → l !! i = Some d → l !! j = Some d → i = j.
Proof.
  intros Hinv Hi Hj.
  destruct (ci_nodes s r l Hinv i d Hi) as (_ & Hvi & _).
  destruct (ci_nodes s r l Hinv j d Hj) as (_ & Hvj & _).
  lia.
Qed.

Lemma get_root_id_chain s r l :
  chain_inv s r l →
  ∀ i d fuel, l !! i = Some d → i ≤ fuel → _get_root_id fuel s d = Some r.
Proof.
  intros Hinv. induction i as [|i IH]; intros d fuel Hi Hle.
  - destruct (ci_nodes s r l Hinv 0 d Hi) as (_ & _ & _ & Hp & _).
    destruct (chain_inv_root s r l Hinv) as (root & H0 & Hid & _).
    assert (d = root) as -> by congruence.
    destruct fuel; cbn [_get_root_id]; rewrite Hp; by rewrite Hid.
  - destruct (ci_nodes s r l Hinv (S i) d Hi) as (_ & _ & _ & Hp & _).
    assert (is_Some (l !! i)) as [p Hpi].
    { apply lookup_lt_is_Some. apply lookup_lt_Some in Hi. lia. }
    rewrite Hpi in Hp. simpl in Hp.
    destruct (ci_nodes s r l Hinv i p Hpi) as (Hpd & _).
    destruct fuel as [|fuel]; [lia|]. cbn [_get_root_id]. rewrite Hp, Hpd.
    apply (IH p fuel Hpi). lia.
Qed.

Lemma values_NoDup s :
  session_wf s → NoDup (map_to_list (documents s)).*2.
Proof.
  intros Hwf. apply NoDup_fmap_2_strong; [|apply NoDup_map_to_list].
  intros [k1 d1] [k2 d2] H1%elem_of_map_to_list H2%elem_of_map_to_list Heq.
  simpl in Heq. subst d2. f_equal.
  rewrite <- (wf_keys s Hwf _ _ H1). by rewrite <- (wf_keys s Hwf _ _ H2).
Qed.

Lemma elem_of_values s d :
  session_wf s →
  d ∈ (map_to_list (documents s)).*2
  ↔ documents s !! DocumentNode.id d = Some d.
Proof.
  intros Hwf. rewrite list_elem_of_fmap. split.
  - intros ([k d'] & -> & Hin%elem_of_map_to_list). simpl.
    by rewrite (wf_keys s Hwf _ _ Hin).
  - intros Hd. exists (DocumentNode.id d, d). split; [done|].
    by apply elem_of_map_to_list.
Qed.

(** The rows the query selects are the first two of the chain. *)
Lemma chain_first_two s r l d :
  chain_inv s r l →
  (documents s !! DocumentNode.id d = Some d
   ∧ (DocumentNode.id d = r ∨ DocumentNode.parent_version_id d = Some r))
  ↔ d ∈ take 2 l.
Proof.
  intros Hinv. destruct (chain_inv_root s r l Hinv) as (root & H0 & Hid & Hr).
  split.
  - intros [Hd [Hdr|Hp]].
    + assert (d = root) as -> by (rewrite Hdr in Hd; congruence).
      apply list_elem_of_lookup. exists 0. by rewrite lookup_take_lt by lia.
    + assert (d ∈ l) as Hin.
      { eapply (ci_closed s r l Hinv _ d root); [exact Hd| |by rewrite Hid].
        apply list_elem_of_lookup; eauto. }
      apply list_elem_of_lookup in Hin as [i Hi].
      destruct (ci_nodes s r l Hinv i d Hi) as (_ & _ & _ & Hpar & _).
      destruct i as [|j]; [congruence|].
      assert (is_Some (l !! j)) as [p Hj].
      { apply lookup_lt_is_Some. apply lookup_lt_Some in Hi. lia. }
      rewrite Hj in Hpar. simpl in Hpar.
      assert (p = root) as ->.
      { eapply chain_inv_member; [exact Hinv| |exact Hr|congruence].
        apply list_elem_of_lookup; eauto. }
      assert (j = 0) as -> by (eapply chain_inv_lookup_inj; eauto).
      apply list_elem_of_lookup. exists 1. by rewrite lookup_take_lt by lia.
  - intros [i Hi]%list_elem_of_lookup.
    apply lookup_take_Some in Hi as [Hi Hlt].
    destruct (ci_nodes s r l Hinv i d Hi) as (Hd & _ & _ & Hpar & _).
    split; [done|]. destruct i as [|[|i]]; [left|right|lia].
    + congruence.
    + rewrite Hpar, H0. simpl. by rewrite Hid.
Qed.

Lemma versions_query_chain s r l :
  chain_inv s r l → versions_query s r = take 2 l.
Proof.
  intros Hinv. unfold versions_query.
  set (L := filter _ _).
  assert (NoDup l) as Hnodup.
  { by destruct (chain_inv_chain_is s r l Hinv) as (_ & ? & _). }
  assert (L ≡ₚ take 2 l) as Hperm.
  { apply NoDup_Permutation.
    - apply NoDup_filter, values_NoDup, (ci_wf s r l Hinv).
    - eapply sublist_NoDup; [exact Hnodup|apply sublist_take].
    - intros d. unfold L.
      rewrite list_elem_of_filter, elem_of_values by apply Hinv.
      rewrite <- (chain_first_two s r l d Hinv). tauto. }
  apply (Sorted_unique_strong version_le).
  - intros x1 x2 Hx1 Hx2 H12 H21.
    rewrite merge_sort_Permutation, Hperm in Hx1.
    apply list_elem_of_lookup in Hx1 as [i1 [H1 _]%lookup_take_Some].
    apply list_elem_of_lookup in Hx2 as [i2 [H2 _]%lookup_take_Some].
    destruct (ci_nodes s r l Hinv i1 x1 H1) as (_ & Hv1 & _).
    destruct (ci_nodes s r l Hinv i2 x2 H2) as (_ & Hv2 & _).
    unfold version_le in *. assert (i1 = i2) as -> by lia. congruence.
  - apply Sorted_merge_sort, _.
  - destruct l as [|a [|b l']]; simpl; repeat constructor.
    destruct (ci_nodes s r _ Hinv 0 a eq_refl) as (_ & Hva & _).
    destruct (ci_nodes s r _ Hinv 1 b eq_refl) as (_ & Hvb & _).
    unfold version_le. lia.
  - by rewrite merge_sort_Permutation.
Qed.

Lemma foldl_add_version (L : list DocumentNode.t) : ∀ r root acc,
  foldl (λ stack version, VersionStack.add_version version stack)
        (VersionStack.mk r root acc) L
  = VersionStack.mk r root (acc ++ L).
Proof.
  induction L as [|v L IH]; intros r root acc; simpl.
  - by rewrite app_nil_r.
  - unfold VersionStack.add_version at 2. simpl. rewrite IH.
    by rewrite <- app_assoc.
Qed.

Lemma get_version_stack_chain s r l d fuel :
  chain_inv s r l → d ∈ l → length l ≤ fuel →
  ∃ root, l !! 0 = Some root
    ∧ get_version_stack fuel s (DocumentNode.id d)
      = Returns (VersionStack.mk r root (take 2 l)).
Proof.
  intros Hinv [i Hi]%list_elem_of_lookup Hfuel.
  destruct (chain_inv_root s r l Hinv) as (root & H0 & Hid & Hr).
  exists root. split; [done|]. unfold get_version_stack.
  destruct (ci_nodes s r l Hinv i d Hi) as (Hd & _).
  rewrite Hd. apply lookup_lt_Some in Hi as Hlt.
  rewrite (get_root_id_chain s r l Hinv i d fuel Hi) by lia.
  rewrite Hr. unfold VersionStack.init. rewrite foldl_add_version.
  by rewrite Hid, (versions_query_chain s r l Hinv).
Qed.

(** X22: in every session reached from a single root by edits of the latest
    version, the walk up the parent links from any member of the chain
    ends at the root, with as much fuel as the chain is long. *)
Theorem root_of_every_member s0 r s :
  single_root s0 r → rtc call_on_latest s0 s →
  ∃ l, chain_is s r l
    ∧ ∀ d fuel, d ∈ l → length l ≤ fuel → _get_root_id fuel s d = Some r.
Proof.
  intros Hroot Hcalls.
  destruct (chain_inv_reachable s0 r s Hroot Hcalls) as [l Hinv].
  exists l. split; [by apply chain_inv_chain_is|].
  intros d fuel [i Hi]%list_elem_of_lookup Hfuel.
  apply lookup_lt_Some in Hi as Hlt.
  apply (get_root_id_chain s r l Hinv i d fuel Hi). lia.
Qed.

Lemma sample_calls : rtc call_on_latest sample_session sample_session_2.
Proof.
  apply rtc_once.
  exists 0, (mkUUID 1), "# PRD, second draft", None,
    (mkUUID 102, mkUUID 2, mkUUID 202).
  eexists. split; [by vm_compute|]. split.
  - intros d Hd. unfold sample_session in Hd. simpl in Hd.
    apply lookup_singleton_Some in Hd as [_ <-]. done.
  - unfold sample_session_2. apply surjective_pairing.
Qed.

Lemma root_of_every_member_witness :
  single_root sample_session (mkUUID 1)
  ∧ rtc call_on_latest sample_session sample_session_2
  ∧ ∃ l, chain_is sample_session_2 (mkUUID 1) l
      ∧ ∀ d fuel, d ∈ l → length l ≤ fuel →
          _get_root_id fuel sample_session_2 d = Some (mkUUID 1).
Proof.
  split; [exact sample_single_root|]. split; [exact sample_calls|].
  exact (root_of_every_member sample_session (mkUUID 1) sample_session_2
           sample_single_root sample_calls).
Defined.

(** X23: in every session reached from a single root by edits of the
    latest version, the version stack of any member of the chain has the
    root and the second version, and nothing else: the query selects by
    the identifier of the root and by a parent link to it, which later
    versions do not have. [expand_stack] returns these two. *)
Theorem version_stack_holds_first_two s0 r s :
  single_root s0 r → rtc call_on_latest s0 s →
  ∃ l root, chain_is s r l ∧ l !! 0 = Some root
    ∧ ∀ d fuel, d ∈ l → length l ≤ fuel →
        get_version_stack fuel s (DocumentNode.id d)
        = Returns (VersionStack.mk r root (take 2 l))
        ∧ expand_stack fuel s (DocumentNode.id d) = Returns (take 2 l).
Proof.
  intros Hroot Hcalls.
  destruct (chain_inv_reachable s0 r s Hroot Hcalls) as [l Hinv].
  destruct (chain_inv_root s r l Hinv) as (root & H0 & _).
  exists l, root. split; [by apply chain_inv_chain_is|]. split; [done|].
  intros d fuel Hd Hfuel.
  destruct (get_version_stack_chain s r l d fuel Hinv Hd Hfuel)
    as (root' & H0' & Hstack).
  unfold expand_stack. rewrite Hstack.
  assert (root' = root) as -> by congruence. done.
Qed.

Lemma version_stack_holds_first_two_witness :
  single_root sample_session (mkUUID 1)
  ∧ rtc call_on_latest sample_session sample_session_2
  ∧ ∃ l root, chain_is sample_session_2 (mkUUID 1) l ∧ l !! 0 = Some root
      ∧ ∀ d fuel, d ∈ l → length l ≤ fuel →
          get_version_stack fuel sample_session_2 (DocumentNode.id d)
          = Returns (VersionStack.mk (mkUUID 1) root (take 2 l))
          ∧ expand_stack fuel sample_session_2 (DocumentNode.id d)
            = Returns (take 2 l).
Proof.
  split; [exact sample_single_root|]. split; [exact sample_calls|].
  exact (version_stack_holds_first_two sample_session (mkUUID 1)
           sample_session_2 sample_single_root sample_calls).
Defined.

(** *** Reverts *)

Lemma get_version_first_two s r l root i target :
  chain_inv s r l → l !! i = Some target → i < 2 →
  VersionStack.get_version (VersionStack.mk r root (take 2 l))
    (Z.of_nat (S i))
  = Some target.
Proof.
  intros Hinv Hi Hlt. unfold VersionStack.get_version. simpl.
  destruct l as [|a [|b l']]; [done| |].
  - destruct i as [|i]; [|done]. injection Hi as ->.
    destruct (ci_nodes s r _ Hinv 0 target eq_refl) as (_ & Hv & _).
    simpl. by rewrite bool_decide_eq_true_2.
  - destruct (ci_nodes s r _ Hinv 0 a eq_refl) as (_ & Hva & _).
    destruct (ci_nodes s r _ Hinv 1 b eq_refl) as (_ & Hvb & _).
    destruct i as [|[|i]]; [| |lia]; injection Hi as ->; simpl.
    + by rewrite bool_decide_eq_true_2.
    + rewrite bool_decide_eq_false_2 by lia.
      by rewrite bool_decide_eq_true_2.
Qed.

Lemma get_version_beyond s r l root n :
  chain_inv s r l →
  (n < 1 ∨ 2 < n ∨ Z.of_nat (length l) < n)%Z →
  VersionStack.get_version (VersionStack.mk r root (take 2 l)) n = None.
Proof.
  intros Hinv Hn. unfold VersionStack.get_version. simpl.
  destruct l as [|a [|b l']]; [done| |].
  - destruct (ci_nodes s r _ Hinv 0 a eq_refl) as (_ & Hva & _).
    simpl in *. rewrite bool_decide_eq_false_2 by lia. done.
  - destruct (ci_nodes s r _ Hinv 0 a eq_refl) as (_ & Hva & _).
    destruct (ci_nodes s r _ Hinv 1 b eq_refl) as (_ & Hvb & _).
    simpl in *. rewrite !bool_decide_eq_false_2 by lia. done.
Qed.

Lemma get_latest_first_two s r l root :
  chain_inv s r l →
  ∃ j base, l !! j = Some base ∧ j < 2
    ∧ last (take 2 l) = Some base
    ∧ VersionStack.get_latest (VersionStack.mk r root (take 2 l)) = Ok base.
Proof.
  intros Hinv. unfold VersionStack.get_latest. simpl.
  destruct l as [|a [|b l']].
  - by pose proof (ci_head s r _ Hinv).
  - exists 0, a. repeat split; done || lia.
  - destruct (ci_nodes s r _ Hinv 0 a eq_refl) as (_ & Hva & _).
    destruct (ci_nodes s r _ Hinv 1 b eq_refl) as (_ & Hvb & _).
    exists 1, b. split; [done|]. split; [lia|]. split; [done|].
    simpl. rewrite decide_True by lia. done.
Qed.

Lemma sample_fresh :
  fresh (mkUUID 103, mkUUID 3, mkUUID 203) sample_session_2.
Proof. by vm_compute. Qed.

(** X24: in every session reached from a single root by edits of the latest
    version, the stack of any member of the chain has two versions at
    most, and what [get_latest] takes from it is the second version of
    the chain as soon as there is one: with three versions or more it is
    not the version flagged as latest. *)
Theorem stack_latest_is_second_version s0 r s :
  single_root s0 r → rtc call_on_latest s0 s →
  ∃ l, chain_is s r l
    ∧ ∀ d fuel, d ∈ l → length l ≤ fuel →
        ∃ stack base,
          get_version_stack fuel s (DocumentNode.id d) = Returns stack
          ∧ VersionStack.get_stack_height stack = length l `min` 2
          ∧ VersionStack.get_latest stack = Ok base
          ∧ DocumentNode.version base = Z.of_nat (length l `min` 2)
          ∧ DocumentNode.is_latest base = bool_decide (length l ≤ 2).
Proof.
  intros Hroot Hcalls.
  destruct (chain_inv_reachable s0 r s Hroot Hcalls) as [l Hinv].
  exists l. split; [by apply chain_inv_chain_is|].
  intros d fuel Hd Hfuel.
  destruct (get_version_stack_chain s r l d fuel Hinv Hd Hfuel)
    as (root & H0 & Hstack).
  destruct (get_latest_first_two s r l root Hinv)
    as (j & base & Hj & Hjlt & Hlast & Hlatest).
  exists (VersionStack.mk r root (take 2 l)), base.
  split; [done|]. split.
  { unfold VersionStack.get_stack_height. simpl. rewrite length_take. lia. }
  split; [done|].
  destruct (ci_nodes s r l Hinv j base Hj) as (_ & Hv & Hl & _).
  apply lookup_lt_Some in Hj as Hjlen.
  assert (S j = length l `min` 2) as Hmin.
  { destruct l as [|x [|y l']]; simpl in *; [lia| |].
    - destruct j; [done|lia].
    - injection Hlast as <-. destruct j as [|[|j]]; [|lia|lia].
      injection Hj as ->.
      destruct (ci_nodes s r _ Hinv 1 y eq_refl) as (_ & Hvy & _). lia. }
  split; [by rewrite Hv, Hmin|].
  rewrite Hl. apply bool_decide_ext. lia.
Qed.

Lemma sample_calls_3 : rtc call_on_latest sample_session sample_session_3.
Proof.
  eapply rtc_r; [exact sample_calls|].
  exists 1, (mkUUID 2), "# PRD, third draft", None,
    (mkUUID 103, mkUUID 3, mkUUID 203).
  eexists. split; [exact sample_fresh|]. split.
  - intros d Hd. vm_compute in Hd. by injection Hd as <-.
  - unfold sample_session_3. apply surjective_pairing.
Qed.

Lemma sample_third :
  ∃ d, documents sample_session_3 !! mkUUID 3 = Some d
       ∧ DocumentNode.id d = mkUUID 3
       ∧ DocumentNode.version d = 3%Z
       ∧ DocumentNode.is_latest d = true
       ∧ chain_member sample_session_3 (mkUUID 1) d.
Proof.
  assert (∃ d1, documents sample_session_3 !! mkUUID 1 = Some d1)
    as [d1 H1] by (eexists; by vm_compute).
  assert (∃ d2, documents sample_session_3 !! mkUUID 2 = Some d2
                ∧ DocumentNode.parent_version_id d2 = Some (mkUUID 1))
    as (d2 & H2 & Hp2) by (eexists; split; [by vm_compute|done]).
  assert (∃ d3, documents sample_session_3 !! mkUUID 3 = Some d3
                ∧ DocumentNode.id d3 = mkUUID 3
                ∧ DocumentNode.version d3 = 3%Z
                ∧ DocumentNode.is_latest d3 = true
                ∧ DocumentNode.parent_version_id d3 = Some (mkUUID 2))
    as (d3 & H3 & Hid3 & Hv3 & Hl3 & Hp3)
    by (eexists; split; [by vm_compute|done]).
  exists d3. repeat (split; [done|]).
  eapply chain_child; [exact H3|exact Hp3|exact H2|].
  eapply chain_child; [exact H2|exact Hp2|exact H1|].
  by apply chain_root.
Qed.

Lemma stack_latest_is_second_version_witness :
  single_root sample_session (mkUUID 1)
  ∧ rtc call_on_latest sample_session sample_session_3
  ∧ ∃ l d stack base,
      chain_is sample_session_3 (mkUUID 1) l
      ∧ documents sample_session_3 !! mkUUID 3 = Some d
      ∧ DocumentNode.is_latest d = true
      ∧ get_version_stack (length l) sample_session_3 (mkUUID 3)
        = Returns stack
      ∧ VersionStack.get_latest stack = Ok base
      ∧ DocumentNode.is_latest base = bool_decide (length l ≤ 2).
Proof.
  split; [exact sample_single_root|]. split; [exact sample_calls_3|].
  destruct (stack_latest_is_second_version sample_session (mkUUID 1)
              sample_session_3 sample_single_root sample_calls_3)
    as (l & Hchain & Hstack).
  destruct sample_third as (d & Hd & Hid & _ & Hl & Hmem).
  assert (d ∈ l) as Hin by (by apply Hchain).
  destruct (Hstack d (length l) Hin (le_n _))
    as (stack & base & Hrun & _ & Hlatest & _ & Hflag).
  rewrite Hid in Hrun.
  exists l, d, stack, base. done.
Defined.

Lemma create_new_version_run fuel s document_id new_content metadata uuid4
    cur g n :
  session_wf s →
  documents s !! document_id = Some cur →
  graph_nodes s !! DocumentNode.graph_node_id cur = Some g →
  reaches_root s cur n → n ≤ fuel → fresh uuid4 s →
  let cur' := DocumentNode.set_is_latest false cur in
  let g' := stacked_graph_node uuid4.1.1 cur' g in
  let new_doc := next_version uuid4.1.2 g' cur' new_content metadata in
  create_new_version fuel s document_id new_content metadata uuid4
  = (put_graph_edge (supersedes_edge uuid4.2 new_doc g' g)
       (put_document new_doc (put_graph_node g' (put_document cur' s))),
     Ok new_doc).
Proof.
  destruct uuid4 as [[gid nd] e].
  intros Hwf Hc Hgn Hreach Hle (Hfg & Hfd & Hfe).
  simpl in Hfg, Hfd, Hfe.
  pose proof (wf_keys s Hwf _ _ Hc) as Hid.
  unfold create_new_version. rewrite Hc.
  destruct (get_root_id_terminates s document_id cur false Hwf Hc cur n Hreach
              fuel Hle) as [root Hroot].
  rewrite get_root_id_set_is_latest, Hroot. simpl.
  rewrite Hgn, Hfg.
  rewrite decide_False by (by intros [? [=]]).
  assert (nd ≠ document_id) as Hnd by congruence.
  rewrite lookup_insert_ne by congruence. rewrite Hfd.
  rewrite decide_False by (by intros [? [=]]).
  rewrite Hfe. rewrite decide_False by (by intros [? [=]]).
  reflexivity.
Qed.

Lemma dict_get_absent k (b : dict) : k ∉ b.*1 → dict_get k b = None.
Proof.
  induction b as [|[k' v'] b IH]; simpl; [done|].
  intros Hnot. rewrite decide_False by set_solver. apply IH. set_solver.
Qed.

Lemma dict_get_merge k (b : dict) : ∀ a : dict,
  NoDup b.*1 →
  dict_get k (dict_merge a b)
  = match dict_get k b with Some v => Some v | None => dict_get k a end.
Proof.
  unfold dict_merge.
  induction b as [|[k' v'] b IH]; intros a Hnodup; simpl; [done|].
  apply NoDup_cons in Hnodup as [Hk' Hnodup].
  rewrite IH by done. destruct (decide (k = k')) as [->|Hne].
  - rewrite dict_get_absent by done. apply dict_get_set_eq.
  - destruct (dict_get k b); [done|]. by apply dict_get_set_ne.
Qed.

Lemma revert_run s r l d i target fuel now uuid4 :
  chain_inv s r l → fresh uuid4 s →
  d ∈ l → l !! i = Some target → i < 2 → length l ≤ fuel →
  ∃ s' new_doc base,
    last (take 2 l) = Some base
    ∧ revert_to_version fuel s (DocumentNode.id d) (Z.of_nat (S i)) now uuid4
      = (s', Returns new_doc)
    ∧ DocumentNode.content new_doc = DocumentNode.content target
    ∧ DocumentNode.parent_version_id new_doc = Some (DocumentNode.id base)
    ∧ DocumentNode.version new_doc = (DocumentNode.version base + 1)%Z
    ∧ DocumentNode.is_latest new_doc = true
    ∧ dict_get "reverted_from_version" (DocumentNode.metadata new_doc)
      = Some (JInt (Z.of_nat (S i)))
    ∧ dict_get "revert_timestamp" (DocumentNode.metadata new_doc)
      = Some (JStr now).
Proof.
  intros Hinv Hfresh Hd Hi Hlt Hfuel.
  destruct (get_version_stack_chain s r l d fuel Hinv Hd Hfuel)
    as (root & H0 & Hstack).
  destruct (get_latest_first_two s r l root Hinv)
    as (j & base & Hj & Hjlt & Hlast & Hlatest).
  destruct (ci_nodes s r l Hinv j base Hj) as (Hbase & _ & _ & _ & [g Hg]).
  apply lookup_lt_Some in Hj as Hjlen.
  pose proof (create_new_version_run fuel s (DocumentNode.id base)
                (DocumentNode.content target)
                (Some [("reverted_from_version", JInt (Z.of_nat (S i)));
                       ("revert_timestamp", JStr now)])
                uuid4 base g j (ci_wf s r l Hinv) Hbase Hg
                (chain_inv_reaches s r l Hinv j base Hj) ltac:(lia) Hfresh)
    as Hrun.
  cbv zeta in Hrun.
  eexists _, _, base. split; [exact Hlast|].
  unfold revert_to_version.
  rewrite Hstack, (get_version_first_two s r l root i target Hinv Hi Hlt).
  rewrite Hlatest, Hrun. split; [reflexivity|].
  cbn [next_version DocumentNode.content DocumentNode.parent_version_id
       DocumentNode.version DocumentNode.is_latest DocumentNode.metadata
       DocumentNode.set_is_latest DocumentNode.id].
  repeat (split; [done|]). split.
  - rewrite dict_get_merge; [done|].
    cbn. repeat constructor; set_solver.
  - rewrite dict_get_merge; [done|].
    cbn. repeat constructor; set_solver.
Qed.

(** X25: in every session reached from a single root by edits of the latest
    version, reverting to version 1 or 2 from any member of the chain,
    with fresh identifiers, returns a new latest version that has the
    content of that version and records the revert in its metadata; it
    is built on the last version of the stack, the second of the chain
    when the chain has two versions or more. *)
Theorem revert_builds_on_stack_top s0 r s uuid4 :
  single_root s0 r → rtc call_on_latest s0 s → fresh uuid4 s →
  ∃ l, chain_is s r l
    ∧ ∀ d i target fuel now,
        d ∈ l → l !! i = Some target → i < 2 → length l ≤ fuel →
        ∃ s' new_doc base,
          last (take 2 l) = Some base
          ∧ revert_to_version fuel s (DocumentNode.id d) (Z.of_nat (S i))
              now uuid4
            = (s', Returns new_doc)
          ∧ DocumentNode.content new_doc = DocumentNode.content target
          ∧ DocumentNode.parent_version_id new_doc
            = Some (DocumentNode.id base)
          ∧ DocumentNode.version new_doc
            = (DocumentNode.version base + 1)%Z
          ∧ DocumentNode.is_latest new_doc = true
          ∧ dict_get "reverted_from_version" (DocumentNode.metadata new_doc)
            = Some (JInt (Z.of_nat (S i)))
          ∧ dict_get "revert_timestamp" (DocumentNode.metadata new_doc)
            = Some (JStr now).
Proof.
  intros Hroot Hcalls Hfresh.
  destruct (chain_inv_reachable s0 r s Hroot Hcalls) as [l Hinv].
  exists l. split; [by apply chain_inv_chain_is|].
  intros d i target fuel now Hd Hi Hlt Hfuel.
  by apply (revert_run s r l).
Qed.

Lemma revert_builds_on_stack_top_witness :
  single_root sample_session (mkUUID 1)
  ∧ rtc call_on_latest sample_session sample_session_2
  ∧ fresh (mkUUID 103, mkUUID 3, mkUUID 203) sample_session_2
  ∧ ∃ l, chain_is sample_session_2 (mkUUID 1) l
      ∧ ∀ d i target fuel now,
          d ∈ l → l !! i = Some target → i < 2 → length l ≤ fuel →
          ∃ s' new_doc base,
            last (take 2 l) = Some base
            ∧ revert_to_version fuel sample_session_2 (DocumentNode.id d)
                (Z.of_nat (S i)) now (mkUUID 103, mkUUID 3, mkUUID 203)
              = (s', Returns new_doc)
            ∧ DocumentNode.content new_doc = DocumentNode.content target
            ∧ DocumentNode.parent_version_id new_doc
              = Some (DocumentNode.id base)
            ∧ DocumentNode.version new_doc
              = (DocumentNode.version base + 1)%Z
            ∧ DocumentNode.is_latest new_doc = true
            ∧ dict_get "reverted_from_version"
                (DocumentNode.metadata new_doc)
              = Some (JInt (Z.of_nat (S i)))
            ∧ dict_get "revert_timestamp" (DocumentNode.metadata new_doc)
              = Some (JStr now).
Proof.
  split; [exact sample_single_root|]. split; [exact sample_calls|].
  split; [exact sample_fresh|].
  exact (revert_builds_on_stack_top sample_session (mkUUID 1)
           sample_session_2 (mkUUID 103, mkUUID 3, mkUUID 203)
           sample_single_root sample_calls sample_fresh).
Defined.

(** X26: in every session reached from a single root by edits of the
    latest version, a revert to a version number below 1, above 2 or
    above the length of the chain fails with the not-found error and
    changes nothing: the versions from the third on are in the chain but
    not in the stack. *)
Theorem revert_misses_versions_beyond_second s0 r s :
  single_root s0 r → rtc call_on_latest s0 s →
  ∃ l, chain_is s r l
    ∧ ∀ d n fuel now uuid4,
        d ∈ l → length l ≤ fuel →
        (n < 1 ∨ 2 < n ∨ Z.of_nat (length l) < n)%Z →
        revert_to_version fuel s (DocumentNode.id d) n now uuid4
        = (s, Raises (Base (ValueError
                              ("Version " +:+ pretty n +:+ " not found")))).
Proof.
  intros Hroot Hcalls.
  destruct (chain_inv_reachable s0 r s Hroot Hcalls) as [l Hinv].
  exists l. split; [by apply chain_inv_chain_is|].
  intros d n fuel now uuid4 Hd Hfuel Hn.
  destruct (get_version_stack_chain s r l d fuel Hinv Hd Hfuel)
    as (root & H0 & Hstack).
  unfold revert_to_version.
  by rewrite Hstack, (get_version_beyond s r l root n Hinv Hn).
Qed.

Lemma revert_misses_versions_beyond_second_witness :
  single_root sample_session (mkUUID 1)
  ∧ rtc call_on_latest sample_session sample_session_3
  ∧ ∃ l d,
      chain_is sample_session_3 (mkUUID 1) l
      ∧ documents sample_session_3 !! mkUUID 3 = Some d
      ∧ DocumentNode.version d = 3%Z
      ∧ ∀ now uuid4,
          revert_to_version (length l) sample_session_3 (mkUUID 3) 3 now
            uuid4
          = (sample_session_3,
             Raises (Base (ValueError "Version 3 not found"))).
Proof.
  split; [exact sample_single_root|]. split; [exact sample_calls_3|].
  destruct (revert_misses_versions_beyond_second sample_session (mkUUID 1)
              sample_session_3 sample_single_root sample_calls_3)
    as (l & Hchain & Hrevert).
  destruct sample_third as (d & Hd & Hid & Hv & _ & Hmem).
  assert (d ∈ l) as Hin by (by apply Hchain).
  exists l, d. split; [exact Hchain|]. split; [exact Hd|].
  split; [exact Hv|]. intros now uuid4.
  pose proof (Hrevert d 3%Z (length l) now uuid4 Hin (le_n _)
                ltac:(right; left; lia)) as Hrun.
  rewrite Hid in Hrun. exact Hrun.
Defined.

(** *** The node and the metadata of a new version *)






End VersionStackFacts.
(** ** The sequence matcher on any two sequences *)

Module MatchingFacts.
Import Difflib Matching.

Section matcher.
Context `{Countable A}.
Implicit Types (a b : list A) (best : nat * nat * nat).

Lemma scan_row_bounds alo ahi blo bhi i (j2len : gmap nat nat) :
  alo ≤ i < ahi → row_bounded alo blo i j2len →
  ∀ js newj2len best,
    row_bounded alo blo (S i) newj2len → in_range alo ahi blo bhi best →
    row_bounded alo blo (S i) (scan_row i js blo bhi j2len newj2len best).1
    ∧ in_range alo ahi blo bhi
        (scan_row i js blo bhi j2len newj2len best).2.
Proof.
  intros Hi Hprev. induction js as [|j js IH]; intros newj2len best Hnew Hbest.
  - done.
  - cbn [scan_row]. destruct (decide (j < blo)); [by apply IH|].
    destruct (decide (bhi ≤ j)); [done|].
    assert (j2len_get j2len j ≤ i - alo ∧ j2len_get j2len j ≤ j - blo)
      as [Hk1 Hk2].
    { unfold j2len_get. destruct j as [|j']; [lia|].
      destruct (j2len !! j') as [k'|] eqn:Hk'; simpl; [|lia].
      destruct (Hprev j' k' Hk'). lia. }
    apply IH.
    + intros j0 k0. destruct (decide (j0 = j)) as [->|Hne].
      * rewrite lookup_insert_eq. intros [= <-]. lia.
      * rewrite lookup_insert_ne by done. apply Hnew.
    + case_decide; [|done]. unfold in_range. simpl. lia.
Qed.

Lemma scan_rows_bounds a (b2j : gmap A (list nat)) alo ahi blo bhi :
  ∀ len start (j2len : gmap nat nat) best,
    alo ≤ start → start + len ≤ ahi →
    row_bounded alo blo start j2len → in_range alo ahi blo bhi best →
    in_range alo ahi blo bhi
      (scan_rows (seq start len) a b2j blo bhi j2len best).
Proof.
  induction len as [|len IH]; intros start j2len best Hlo Hhi Hrow Hbest.
  - done.
  - cbn [seq scan_rows].
    pose proof (scan_row_bounds alo ahi blo bhi start j2len ltac:(lia) Hrow
                  (default [] (a !! start ≫= λ elt, b2j !! elt)) ∅ best)
      as Hstep.
    destruct (scan_row start _ blo bhi j2len ∅ best) as [newj2len best'].
    destruct Hstep as [Hrow' Hbest']; [|done|].
    { intros j k. by rewrite lookup_empty. }
    apply IH; [lia|lia|done|done].
Qed.

Lemma extend_left_bounds junk a b alo ahi blo bhi : ∀ steps best,
  in_range alo ahi blo bhi best →
  in_range alo ahi blo bhi (extend_left junk steps a b alo blo best).
Proof.
  induction steps as [|steps IH]; intros [[bi bj] bk] Hbest; [done|].
  cbn [extend_left]. case_decide as Hc; [|done].
  apply IH. unfold in_range in *. simpl in *. lia.
Qed.

Lemma extend_right_bounds junk a b alo ahi blo bhi : ∀ steps best,
  in_range alo ahi blo bhi best →
  in_range alo ahi blo bhi (extend_right junk steps a b ahi bhi best).
Proof.
  induction steps as [|steps IH]; intros [[bi bj] bk] Hbest; [done|].
  cbn [extend_right]. case_decide as Hc; [|done].
  apply IH. unfold in_range in *. simpl in *. lia.
Qed.

(** The block [find_longest_match] returns lies inside the two ranges. *)
Lemma find_longest_match_bounds a b (b2j : gmap A (list nat))
    alo ahi blo bhi :
  alo ≤ ahi → blo ≤ bhi →
  in_range alo ahi blo bhi (find_longest_match a b b2j alo ahi blo bhi).
Proof.
  intros Ha Hb. unfold find_longest_match.
  apply extend_right_bounds, extend_left_bounds, extend_right_bounds,
    extend_left_bounds.
  apply scan_rows_bounds; [lia|lia| |].
  - intros j k. by rewrite lookup_empty.
  - unfold in_range. simpl. lia.
Qed.

Lemma queue_cost_cons q (queue : list (nat * nat * nat * nat)) :
  queue_cost (q :: queue) = 2 * span_a q + 1 + queue_cost queue.
Proof. reflexivity. Qed.

Lemma sum_list_with_cons {B} (f : B → nat) x (l : list B) :
  sum_list_with f (x :: l) = f x + sum_list_with f l.
Proof. reflexivity. Qed.

(** The queue loop ends within the fuel that the cost of the queue
    gives, and the blocks it adds fit in the ranges of the queue. *)
Lemma match_queue_total a b (b2j : gmap A (list nat)) : ∀ fuel queue blocks,
  queue_cost queue ≤ fuel → Forall ordered queue →
  ∃ blocks',
    match_queue fuel a b b2j queue blocks = Ok blocks'
    ∧ blocks_size blocks'
      ≤ blocks_size blocks + sum_list_with span_a queue
    ∧ blocks_size blocks'
      ≤ blocks_size blocks + sum_list_with span_b queue.
Proof.
  induction fuel as [|fuel IH]; intros queue blocks Hcost Hord.
  - destruct queue as [|[[[alo ahi] blo] bhi] queue'].
    + exists blocks. split; [done|]. cbn [sum_list_with]. lia.
    + rewrite queue_cost_cons in Hcost. lia.
  - destruct queue as [|[[[alo ahi] blo] bhi] queue'].
    + exists blocks. split; [done|]. cbn [sum_list_with]. lia.
    + apply Forall_cons in Hord as [[Ha Hb] Hord']. cbn [fst snd] in Ha, Hb.
      pose proof (find_longest_match_bounds a b b2j alo ahi blo bhi Ha Hb)
        as Hin.
      cbn [match_queue].
      destruct (find_longest_match a b b2j alo ahi blo bhi) as [[i j] k].
      unfold in_range in Hin. cbn [fst snd] in Hin.
      rewrite queue_cost_cons in Hcost.
      rewrite !sum_list_with_cons.
      unfold span_a at 1 in Hcost. unfold span_a at 1. unfold span_b at 1.
      cbn [fst snd] in Hcost |- *.
      destruct (decide (k = 0)) as [->|Hk].
      * destruct (IH queue' blocks) as (blocks' & Hrun & Hsa & Hsb);
          [lia|done|].
        exists blocks'. split; [done|]. lia.
      * set (queue1 := if decide (alo < i ∧ blo < j)
                       then (alo, i, blo, j) :: queue' else queue').
        set (queue2 := if decide (i + k < ahi ∧ j + k < bhi)
                       then (i + k, ahi, j + k, bhi) :: queue1 else queue1).
        assert (queue_cost queue2 ≤ fuel
                ∧ Forall ordered queue2
                ∧ sum_list_with span_a queue2 + k
                  ≤ (ahi - alo) + sum_list_with span_a queue'
                ∧ sum_list_with span_b queue2 + k
                  ≤ (bhi - blo) + sum_list_with span_b queue')
          as (Hcost2 & Hord2 & Hsa2 & Hsb2).
        { unfold queue2, queue1.
          destruct (decide (alo < i ∧ blo < j)),
                   (decide (i + k < ahi ∧ j + k < bhi));
            rewrite ?queue_cost_cons, ?sum_list_with_cons;
            unfold span_a, span_b; cbn [fst snd];
            (split; [lia|]);
            (split; [repeat (apply Forall_cons; split;
                             [unfold ordered; cbn [fst snd]; lia|]); done|]);
            lia. }
        destruct (IH queue2 (blocks ++ [(i, j, k)]) Hcost2 Hord2)
          as (blocks' & Hrun & Hsa & Hsb).
        exists blocks'. split; [done|].
        unfold blocks_size in *. rewrite sum_list_with_app in Hsa, Hsb.
        rewrite sum_list_with_cons in Hsa, Hsb.
        cbn [sum_list_with snd] in Hsa, Hsb. lia.
Qed.

Lemma collapse_step_size (L : list (nat * nat * nat)) : ∀ st,
  (foldl collapse_step st L).1.2 + blocks_size (foldl collapse_step st L).2
  = st.1.2 + blocks_size st.2 + blocks_size L.
Proof.
  unfold blocks_size.
  induction L as [|[[i2 j2] k2] L IH]; intros [[[i1 j1] k1] na]; simpl.
  - lia.
  - rewrite IH. case_decide; simpl; [lia|].
    case_decide; [lia|]. rewrite sum_list_with_app. simpl. lia.
Qed.

Lemma collapse_size (L : list (nat * nat * nat)) :
  blocks_size (collapse L) = blocks_size L.
Proof.
  unfold collapse.
  pose proof (collapse_step_size L (0, 0, 0, [])) as Hsize.
  destruct (foldl collapse_step (0, 0, 0, []) L) as [[[i1 j1] k1] na].
  simpl in Hsize. unfold blocks_size in *.
  case_decide; [simpl in *; lia|].
  rewrite sum_list_with_app. simpl in *. lia.
Qed.

Lemma get_matching_blocks_total a b :
  ∃ blocks,
    get_matching_blocks a b = Ok blocks
    ∧ blocks_size blocks ≤ length a
    ∧ blocks_size blocks ≤ length b.
Proof.
  unfold get_matching_blocks.
  destruct (match_queue_total a b (chain_b b) (2 * length a + 1)
              [(0, length a, 0, length b)] [])
    as (blocks & Hrun & Hsa & Hsb).
  { unfold queue_cost, span_a. simpl. lia. }
  { repeat constructor; simpl; lia. }
  rewrite Hrun. eexists. split; [reflexivity|].
  unfold blocks_size in *. rewrite sum_list_with_app.
  fold (blocks_size (collapse (merge_sort block_le blocks))).
  rewrite collapse_size. unfold blocks_size.
  rewrite merge_sort_Permutation.
  unfold span_a, span_b in *. simpl in *. lia.
Qed.

Lemma sum_list_fmap_snd (blocks : list (nat * nat * nat)) :
  sum_list (snd <$> blocks) = blocks_size blocks.
Proof.
  unfold blocks_size. induction blocks as [|x l IH]; [done|].
  rewrite fmap_cons, !sum_list_with_cons. by rewrite IH.
Qed.

Lemma calculate_ratio_range matches len :
  2 * matches ≤ len →
  (0 <= _calculate_ratio matches len)%Q ∧ (_calculate_ratio matches len <= 1)%Q.
Proof.
  intros Hle. unfold _calculate_ratio. case_decide as Hlen; [done|].
  assert (0 < inject_Z (Z.of_nat len))%Q as Hpos.
  { rewrite <- (Zlt_Qlt 0). lia. }
  assert (2 * inject_Z (Z.of_nat matches)
          == inject_Z (2 * Z.of_nat matches))%Q as Htwo.
  { by rewrite inject_Z_mult. }
  split.
  - apply Qle_shift_div_l; [done|]. rewrite Qmult_0_l, Htwo.
    rewrite <- (Zle_Qle 0). lia.
  - apply Qle_shift_div_r; [done|]. rewrite Qmult_1_l, Htwo.
    rewrite <- Zle_Qle. lia.
Qed.

Lemma ratio_range a b :
  ∃ q, ratio a b = Ok q ∧ (0 <= q)%Q ∧ (q <= 1)%Q.
Proof.
  unfold ratio.
  destruct (get_matching_blocks_total a b) as (blocks & -> & Ha & Hb).
  eexists. split; [reflexivity|]. rewrite sum_list_fmap_snd.
  apply calculate_ratio_range. lia.
Qed.

End matcher.

Import VersionDiffService.

(** X29: [compute_similarity] returns for any two contents, and what it
    returns is between 0 and 1: the queue loop of the matcher ends within
    its bound, and the blocks that match are disjoint parts of both
    contents. *)
Theorem compute_similarity_range content_a content_b :
  ∃ q, compute_similarity content_a content_b = Ok q
       ∧ (0 <= q)%Q ∧ (q <= 1)%Q.
Proof. unfold compute_similarity. apply ratio_range. Qed.

(** X30: [compute_diff] returns for any two contents, and the counts of added
    and removed lines it returns are 0 whatever the diff is. *)
Theorem compute_diff_returns_zero_counts content_a content_b :
  ∃ r, compute_diff content_a content_b = Ok r
       ∧ added_lines r = 0 ∧ removed_lines r = 0.
Proof.
  unfold compute_diff, unified_diff.
  destruct (get_matching_blocks_total (splitlines content_a)
              (splitlines content_b)) as (blocks & -> & _).
  destruct (get_grouped_opcodes 3 (get_opcodes blocks)); by eexists.
Qed.

End MatchingFacts.
